(** * Steerable_Pyramid_Freq: a shallow embedding

    Embedding of
    [plenoptic/simulate/canonical_computations/steerable_pyramid_freq.py]:
    the constructor's validation and mask bookkeeping, [forward],
    [recon_pyr] with its helpers, the pyramid/tensor codec and
    [steer_coeffs]; and of [nspd] in
    [plenoptic/metric/perceptual_distance.py], which calls the pyramid.

    Python exceptions and [warnings.warn] are threaded through a small
    monad; [OrderedDict]s are association lists in insertion order; the
    numeric kernel (torch, numpy, [tools.signal]) is an interface whose
    operations are deterministic functions, so every statement proved here
    holds for each implementation of it. *)

From Stdlib Require Import ZArith QArith List String Ascii Bool Lia DecimalString.
Import ListNotations.
Local Open Scope string_scope.
Local Open Scope Z_scope.
Local Open Scope list_scope.

Set Implicit Arguments.

(** ** Exceptions and warnings *)

Inductive exn : Type :=
| Exception (msg : string)
| AssertionError (msg : string)
| IndexError
| KeyError
| ValueError
| OverflowError
| RuntimeError.

Inductive result (A : Type) : Type :=
| Ok (a : A)
| Raise (e : exn).
Arguments Ok {A} a.
Arguments Raise {A} e.

(** A computation yields the warnings it issued with [warnings.warn], in
    order, and either a value or the exception that stopped it. *)
Definition M (A : Type) : Type := (list string * result A)%type.

Definition ret {A} (a : A) : M A := ([], Ok a).

Definition bind {A B} (m : M A) (f : A -> M B) : M B :=
  match m with
  | (w, Ok a) => let (w', r) := f a in (w ++ w', r)
  | (w, Raise e) => (w, Raise e)
  end.

Definition warn (msg : string) : M unit := ([msg], Ok tt).
Definition raise {A} (e : exn) : M A := ([], Raise e).

Notation "x <- m ;; k" := (bind m (fun x => k))
  (at level 61, m at next level, right associativity).
Notation "m ;;; k" := (bind m (fun _ => k))
  (at level 61, right associativity).

Definition when (b : bool) (m : M unit) : M unit := if b then m else ret tt.

(** [assert c, msg] *)
Definition assert (c : bool) (msg : string) : M unit :=
  if c then ret tt else raise (AssertionError msg).

Definition of_option {A} (o : option A) (e : exn) : M A :=
  match o with Some a => ret a | None => raise e end.

Definition warnings {A} (m : M A) : list string := fst m.
Definition outcome {A} (m : M A) : result A := snd m.

(** Two computations agree up to [R]: same warnings, and either results
    related by [R] or the same exception. *)
Definition agree {A B} (R : A -> B -> Prop) (m1 : M A) (m2 : M B) : Prop :=
  warnings m1 = warnings m2
  /\ match outcome m1, outcome m2 with
     | Ok a, Ok b => R a b
     | Raise e1, Raise e2 => e1 = e2
     | _, _ => False
     end.

Fixpoint foldM {A S} (f : S -> A -> M S) (l : list A) (s : S) : M S :=
  match l with
  | [] => ret s
  | a :: l' => s' <- f s a ;; foldM f l' s'
  end.

(** [range(n)]: empty when [n <= 0]. *)
Definition range (n : Z) : list Z := map Z.of_nat (seq 0 (Z.to_nat n)).

(** ["... %d ..." % z] and the f-string rendering of an integer. *)
Definition str_of_Z (z : Z) : string := NilZero.string_of_int (Z.to_int z).

(** ** Keys, selectors and ordered dictionaries *)

(** A key of [pyr_coeffs]: a residual name or a [(level, band)] tuple. *)
Inductive key : Type :=
| KStr (name : string)
| KTup (level band : Z).

(** An entry of a [scales] or [levels] list: an int or a str. *)
Inductive sel : Type :=
| SInt (i : Z)
| SStr (s : string).

Definition key_eqb (a b : key) : bool :=
  match a, b with
  | KStr s, KStr t => String.eqb s t
  | KTup i j, KTup i' j' => (i =? i') && (j =? j')
  | _, _ => false
  end.

Definition sel_eqb (a b : sel) : bool :=
  match a, b with
  | SInt i, SInt j => i =? j
  | SStr s, SStr t => String.eqb s t
  | _, _ => false
  end.

(** [v in l] on lists of selectors and of keys. *)
Definition sel_in (v : sel) (l : list sel) : bool := existsb (sel_eqb v) l.
Definition key_in (k : key) (l : list key) : bool := existsb (key_eqb k) l.

Definition residual_highpass : string := "residual_highpass".
Definition residual_lowpass : string := "residual_lowpass".

Module Dict.
(** [OrderedDict]: insertion order is kept, assignment to a present key
    replaces the value in place. *)
Definition t (V : Type) : Type := list (key * V).

Definition empty {V} : t V := [].

Fixpoint get {V} (d : t V) (k : key) : option V :=
  match d with
  | [] => None
  | (k', v) :: d' => if key_eqb k k' then Some v else get d' k
  end.

Fixpoint set {V} (d : t V) (k : key) (v : V) : t V :=
  match d with
  | [] => [(k, v)]
  | (k', v') :: d' =>
      if key_eqb k k' then (k', v) :: d' else (k', v') :: set d' k v
  end.

Definition keys {V} (d : t V) : list key := map fst d.

Definition mem {V} (k : key) (d : t V) : bool := key_in k (keys d).

(** A run of assignments [d[k] = v], in order. *)
Definition assign {V} (upd : list (key * V)) (d : t V) : t V :=
  fold_left (fun acc kv => set acc (fst kv) (snd kv)) upd d.

(** [d1] is contained in [d2]: every key of [d1] has the same value in
    [d2]. *)
Definition sub {V} (d1 d2 : t V) : Prop :=
  forall k v, get d1 k = Some v -> get d2 k = Some v.
End Dict.

(** ** The numeric kernel *)

(** [norm=] argument of [torch.fft]. *)
Inductive norm : Type := ortho | backward.

(** [dtype=] argument of [torch.zeros_like]. *)
Inductive dtype : Type := float64 | complex64.

(** The scalars the transform multiplies and divides tensors by:
    [np.power(complex(0, im), n)], [np.sqrt(2)] and [2]. *)
Inductive scalar : Type :=
| Cpow (im : Z) (n : Z)
| Sqrt2
| Two.

(** [[lostart, loend]]: the bounding box of one low-pass subsampling. *)
Definition box : Type := ((Z * Z) * (Z * Z))%type.

(** torch, numpy and [plenoptic.tools.signal] ([raised_cosine],
    [interpolate1d], [steer]) as the transform uses them.  None of these is
    part of the file embedded here, so each is a parameter; the comments give
    the Python expression an operation stands for.  The operations are
    functions: the errors torch raises by itself (shapes that do not
    broadcast, a dtype an operation refuses) are outside this interface, and
    what is proved of a call that returns is proved under the assumption
    that these operations did. *)
Class Backend : Type := {
  tensor : Type;
  ndarray : Type;
  lut : Type;
  angle_t : Type;
  (* len(x.shape) and x.shape[-2:] *)
  ndim : tensor -> Z;
  shape2 : tensor -> Z * Z;
  (* fft.fft2(x, dim=(-2,-1), norm=n), fft.ifft2, fft.fftshift, fft.ifftshift *)
  fft2 : norm -> tensor -> tensor;
  ifft2 : norm -> tensor -> tensor;
  fftshift : tensor -> tensor;
  ifftshift : tensor -> tensor;
  (* x * y, x + y, c * x, x / c, x.real *)
  mul : tensor -> tensor -> tensor;
  add : tensor -> tensor -> tensor;
  smul : scalar -> tensor -> tensor;
  sdiv : tensor -> scalar -> tensor;
  real : tensor -> tensor;
  (* x[:, :, a0:b0, a1:b1] and the assignment r[:, :, a0:b0, a1:b1] = v *)
  crop : tensor -> box -> tensor;
  place : tensor -> box -> tensor -> tensor;
  (* torch.zeros_like(x, dtype=d), x.dtype in complex_types *)
  zeros_like : tensor -> dtype -> tensor;
  is_complex_dtype : tensor -> bool;
  (* torch.tensor(m).unsqueeze(0) and m.to(torch.float32) *)
  torch_tensor : ndarray -> tensor;
  to_float32 : tensor -> tensor;
  (* np.arctan2(yramp, xramp) and np.log2 of the radius, centre patched,
     on the meshgrid of an image shape *)
  angle_grid : Z * Z -> ndarray;
  log_rad_grid : Z * Z -> ndarray;
  (* a[lostart[0]:loend[0], lostart[1]:loend[1]] *)
  slice2 : ndarray -> box -> ndarray;
  (* raised_cosine(twidth, (-twidth/2.0), np.array([0, 1])) *)
  raised_cosine : Z -> lut * lut;
  (* np.sqrt(Y), np.sqrt(1.0 - Y**2), X - np.log2(2) *)
  lut_sqrt : lut -> lut;
  lut_sqrt_compl : lut -> lut;
  lut_octave_down : lut -> lut;
  (* Ycosn_forward of the complex pyramid, and np.sqrt(const) *
     np.cos(Xcosn)**order, from order and num_orientations *)
  Ycosn_analytic : Z -> Z -> lut;
  Ycosn_real : Z -> Z -> lut;
  (* self.Xcosn + np.pi*b/self.num_orientations *)
  Xcosn_shifted : Z -> Z -> lut;
  (* interpolate1d(x_new, Y, X) *)
  interpolate1d : ndarray -> lut -> lut -> ndarray;
  (* torch.cat([c.squeeze().unsqueeze(-1) for c in cs], dim=-1) *)
  stack_basis : list tensor -> tensor;
  (* steer(basis, a, return_weights=True, even_phase=e) *)
  steer : tensor -> angle_t -> bool -> tensor * tensor;
  (* res.reshape(x.shape) *)
  reshape_as : tensor -> tensor -> tensor
}.

(** ** The pyramid object *)

(** [height]: ['auto'] or an int. *)
Inductive height_arg : Type :=
| Auto
| Height (h : Z).

Section Pyramid.
Context {B : Backend}.

Record pyramid : Type := {
  image_shape : Z * Z;
  order : Z;
  num_scales : Z;
  num_orientations : Z;
  is_complex : bool;
  downsample : bool;
  tight_frame : bool;
  fft_norm : norm;
  scales : list sel;
  lo0mask : tensor;
  hi0mask : tensor;
  _himasks : list tensor;
  _lomasks : list tensor;
  _anglemasks : list (list tensor);
  _anglemasks_recon : list (list tensor);
  _loindices : list box;
  pyr_size : Dict.t (Z * Z)
}.

(** [np.floor(np.log2(min(image_shape[0], image_shape[1]))) - 2], for a
    shape whose two sides are positive ([Z.log2] is the floor of the base-2
    logarithm there; the double-precision logarithm agrees with it far
    beyond any image size). *)
Definition max_ht (shape : Z * Z) : Z :=
  Z.log2 (Z.min (fst shape) (snd shape)) - 2.

(** [np.ceil((d + 0.5)/2).astype(int)] and [np.ceil((d - 0.5)/2).astype(int)] *)
Definition ceil_half_up (d : Z) : Z := - ((- (2 * d + 1)) / 4).
Definition ceil_half_down (d : Z) : Z := - ((- (2 * d - 1)) / 4).

(** Length of [a[lo:hi]] along an axis of length [n], for [0 <= lo, hi]. *)
Definition slice_len (n lo hi : Z) : Z := Z.max 0 (Z.min hi n - Z.min lo n).

(** The bounding box the constructor computes from [lodft.shape]. *)
Definition lo_box (dims : Z * Z) : box :=
  let ctr := (ceil_half_up (fst dims), ceil_half_up (snd dims)) in
  let lodims := (ceil_half_down (fst dims), ceil_half_down (snd dims)) in
  let loctr := (ceil_half_up (fst lodims), ceil_half_up (snd lodims)) in
  let lostart := (fst ctr - fst loctr, snd ctr - snd loctr) in
  let loend := (fst lostart + fst lodims, snd lostart + snd lodims) in
  (lostart, loend).

Definition box_shape (dims : Z * Z) (b : box) : Z * Z :=
  (slice_len (fst dims) (fst (fst b)) (fst (snd b)),
   slice_len (snd dims) (snd (fst b)) (snd (snd b))).

(** What the constructor's loop over the scales carries from one iteration to
    the next.  Of the mock image only the shape of [lodft] matters. *)
Record build : Type := {
  b_Xrcos : lut;
  b_angle : ndarray;
  b_log_rad : ndarray;
  b_dims : Z * Z;
  b_lodft_shape : Z * Z;
  b_himasks : list tensor;
  b_lomasks : list tensor;
  b_anglemasks : list (list tensor);
  b_anglemasks_recon : list (list tensor);
  b_loindices : list box
}.

(** One iteration of [for i in range(self.num_scales)] in [__init__]. *)
Definition build_scale (order num_orientations : Z) (is_complex downsample : bool)
    (Yrcos YIrcos : lut) (s : build) : build :=
  let Xrcos := lut_octave_down (b_Xrcos s) in
  let Ycosn_forward :=
    if is_complex then Ycosn_analytic order num_orientations
    else Ycosn_real order num_orientations in
  let Ycosn_recon := Ycosn_real order num_orientations in
  let himask := interpolate1d (b_log_rad s) Yrcos Xrcos in
  let anglemasks :=
    map (fun b => torch_tensor (interpolate1d (b_angle s) Ycosn_forward
                                  (Xcosn_shifted b num_orientations)))
        (range num_orientations) in
  let anglemasks_recon :=
    map (fun b => torch_tensor (interpolate1d (b_angle s) Ycosn_recon
                                  (Xcosn_shifted b num_orientations)))
        (range num_orientations) in
  if negb downsample then
    let lomask := interpolate1d (b_log_rad s) YIrcos Xrcos in
    {| b_Xrcos := Xrcos; b_angle := b_angle s; b_log_rad := b_log_rad s;
       b_dims := b_dims s; b_lodft_shape := b_lodft_shape s;
       b_himasks := b_himasks s ++ [torch_tensor himask];
       b_lomasks := b_lomasks s ++ [torch_tensor lomask];
       b_anglemasks := b_anglemasks s ++ [anglemasks];
       b_anglemasks_recon := b_anglemasks_recon s ++ [anglemasks_recon];
       b_loindices := b_loindices s ++ [((0, 0), b_dims s)] |}
  else
    let dims := b_lodft_shape s in
    let bx := lo_box dims in
    let log_rad := slice2 (b_log_rad s) bx in
    let angle := slice2 (b_angle s) bx in
    let lomask := interpolate1d log_rad YIrcos Xrcos in
    {| b_Xrcos := Xrcos; b_angle := angle; b_log_rad := log_rad;
       b_dims := dims; b_lodft_shape := box_shape dims bx;
       b_himasks := b_himasks s ++ [torch_tensor himask];
       b_lomasks := b_lomasks s ++ [torch_tensor lomask];
       b_anglemasks := b_anglemasks s ++ [anglemasks];
       b_anglemasks_recon := b_anglemasks_recon s ++ [anglemasks_recon];
       b_loindices := b_loindices s ++ [bx] |}.

Fixpoint build_scales (n : nat) (order num_orientations : Z)
    (is_complex downsample : bool) (Yrcos YIrcos : lut) (s : build) : build :=
  match n with
  | O => s
  | S n' =>
      build_scales n' order num_orientations is_complex downsample Yrcos YIrcos
        (build_scale order num_orientations is_complex downsample Yrcos YIrcos s)
  end.

Definition odd_size_warning : string :=
  "Reconstruction will not be perfect with odd-sized images".
Definition order_warning : string :=
  "order must be an integer in the range [1,15]. Truncating.".
Definition twidth_warning : string :=
  "twidth must be positive. Setting to 1.".
Definition height_error (max_ht : Z) : exn :=
  Exception (String.append "Cannot build pyramid higher than "
               (String.append (str_of_Z max_ht) " levels.")).

(** [max_ht] and the branch on [height].  The logarithm of a side that is
    not positive is [-inf] or [nan]: from [-inf] both branches raise, and
    [nan] compares false with every height and cannot be converted by
    [int]. *)
Definition choose_num_scales (shape : Z * Z) (height : height_arg) : M Z :=
  let m := Z.min (fst shape) (snd shape) in
  match height with
  | Auto =>
      if 0 <? m then ret (max_ht shape)
      else if m =? 0 then raise OverflowError else raise ValueError
  | Height h =>
      if 0 <? m then
        if max_ht shape <? h then raise (height_error (max_ht shape)) else ret h
      else if m =? 0 then raise OverflowError
      else ret h
  end.

(** [np.linspace] and the patch of the centre of [log_rad] fail on a shape
    with a negative side. *)
Definition check_grid (shape : Z * Z) : M unit :=
  if (fst shape <? -1) || (snd shape <? -1) then raise ValueError
  else if (fst shape <? 0) || (snd shape <? 0) then raise IndexError
  else ret tt.

(** [self.to(torch.float32)] *)
Definition to (cast : tensor -> tensor) (p : pyramid) : pyramid :=
  {| image_shape := image_shape p; order := order p;
     num_scales := num_scales p; num_orientations := num_orientations p;
     is_complex := is_complex p; downsample := downsample p;
     tight_frame := tight_frame p; fft_norm := fft_norm p;
     scales := scales p;
     lo0mask := cast (lo0mask p); hi0mask := cast (hi0mask p);
     _himasks := map cast (_himasks p);
     _lomasks := map cast (_lomasks p);
     _anglemasks := map (map cast) (_anglemasks p);
     _anglemasks_recon := map (map cast) (_anglemasks_recon p);
     _loindices := _loindices p;
     pyr_size := pyr_size p |}.

(** The second half of [__init__]: grids, look-up tables, masks, the list
    of scales, and the final [self.to(torch.float32)]. *)
Definition build_pyramid (image_shape : Z * Z) (num_scales order twidth : Z)
    (is_complex downsample tight_frame : bool) : pyramid :=
  let fft_norm := if tight_frame then ortho else backward in
  let num_orientations := order + 1 in
  let angle := angle_grid image_shape in
  let log_rad := log_rad_grid image_shape in
  let Xrcos := fst (raised_cosine twidth) in
  let Yrcos := lut_sqrt (snd (raised_cosine twidth)) in
  let YIrcos := lut_sqrt_compl Yrcos in
  let lo0mask := interpolate1d log_rad YIrcos Xrcos in
  let hi0mask := interpolate1d log_rad Yrcos Xrcos in
  let scales := [SStr residual_lowpass] ++ map SInt (rev (range num_scales))
                ++ [SStr residual_highpass] in
  let s := build_scales (Z.to_nat num_scales) order num_orientations
             is_complex downsample Yrcos YIrcos
             {| b_Xrcos := Xrcos; b_angle := angle; b_log_rad := log_rad;
                b_dims := image_shape; b_lodft_shape := image_shape;
                b_himasks := []; b_lomasks := []; b_anglemasks := [];
                b_anglemasks_recon := []; b_loindices := [] |} in
  to to_float32
     {| image_shape := image_shape; order := order;
        num_scales := num_scales; num_orientations := num_orientations;
        is_complex := is_complex; downsample := downsample;
        tight_frame := tight_frame; fft_norm := fft_norm;
        scales := scales;
        lo0mask := torch_tensor lo0mask; hi0mask := torch_tensor hi0mask;
        _himasks := b_himasks s; _lomasks := b_lomasks s;
        _anglemasks := b_anglemasks s;
        _anglemasks_recon := b_anglemasks_recon s;
        _loindices := b_loindices s;
        pyr_size := Dict.empty |}.

(** [int(x)] for a Python number [x], an int or a finite float, given as a
    rational: truncation towards zero. *)
Definition int_of (x : Q) : Z := Z.quot (Qnum x) (Z.pos (Qden x)).

(** [Steerable_Pyramid_Freq.__init__].  [twidth] is a number: the guard
    compares it with 0 and [int(twidth)] truncates what passes. *)
Definition __init__ (image_shape : Z * Z) (height : height_arg) (order : Z)
    (twidth : Q) (is_complex downsample tight_frame : bool) : M pyramid :=
  when (negb (fst image_shape mod 2 =? 0) || negb (snd image_shape mod 2 =? 0))
       (warn odd_size_warning) ;;;
  num_scales <- choose_num_scales image_shape height ;;
  order <- (if (15 <? order) || (order <=? 0)
            then warn order_warning ;;; ret (Z.min (Z.max order 1) 15)
            else ret order) ;;
  twidth <- (if Qle_bool twidth 0 then warn twidth_warning ;;; ret 1%Q
             else ret twidth) ;;
  let twidth := int_of twidth in
  check_grid image_shape ;;;
  ret (build_pyramid image_shape num_scales order twidth
         is_complex downsample tight_frame).

(** ** forward *)

(** The [scales] argument: a list (or tuple), or any other value. *)
Inductive scales_arg : Type :=
| ScalesList (l : list sel)
| ScalesOther (v : sel).

(** [l[i]] on a Python list. *)
Definition index {A} (l : list A) (i : Z) : M A :=
  let n := Z.of_nat (List.length l) in
  if (0 <=? i) && (i <? n) then of_option (nth_error l (Z.to_nat i)) IndexError
  else if (- n <=? i) && (i <? 0) then
    of_option (nth_error l (Z.to_nat (n + i))) IndexError
  else raise IndexError.

(** [d[k]] on a dictionary. *)
Definition item {V} (d : Dict.t V) (k : key) : M V :=
  of_option (Dict.get d k) KeyError.

(** [[s for s in scales if isinstance(s, int)]] *)
Fixpoint ints_of (l : list sel) : list Z :=
  match l with
  | [] => []
  | SInt i :: l' => i :: ints_of l'
  | SStr _ :: l' => ints_of l'
  end.

(** [max] and [min] of a non-empty list, given as head and tail. *)
Definition max_of (a : Z) (l : list Z) : Z := fold_left Z.max l a.
Definition min_of (a : Z) (l : list Z) : Z := fold_left Z.min l a.

Definition scales_error : string := "Scales must be within 0 and num_scales-1".
Definition input_error : string := "Input must be batch of images of shape BxCxHxW".

(** The coefficients and the sizes [forward] has written so far, and the
    low-pass spectrum that feeds the next scale. *)
Record fwd : Type := {
  f_coeffs : Dict.t tensor;
  f_size : Dict.t (Z * Z);
  f_lodft : tensor
}.

(** Two states of [forward] that differ in the recorded sizes only. *)
Definition same_coeffs (s1 s2 : fwd) : Prop :=
  f_coeffs s1 = f_coeffs s2 /\ f_lodft s1 = f_lodft s2.

(** Body of [for b in range(self.num_orientations)] at scale [i]. *)
Definition forward_band (p : pyramid) (i : Z) (himask : tensor) (s : fwd) (b : Z)
    : M fwd :=
  row <- index (_anglemasks p) i ;;
  anglemask <- index row b ;;
  let complex_const := Cpow (-1) (order p) in
  let banddft := mul (mul (smul complex_const (f_lodft s)) anglemask) himask in
  let band := ifftshift banddft in
  let band := ifft2 (fft_norm p) band in
  if negb (is_complex p) then
    ret {| f_coeffs := Dict.set (f_coeffs s) (KTup i b) (real band);
           f_size := Dict.set (f_size s) (KTup i b) (shape2 band);
           f_lodft := f_lodft s |}
  else
    let band := if tight_frame p then sdiv band Sqrt2 else band in
    ret {| f_coeffs := Dict.set (f_coeffs s) (KTup i b) band;
           f_size := Dict.set (f_size s) (KTup i b) (shape2 band);
           f_lodft := f_lodft s |}.

(** Body of [for i in range(self.num_scales)]. *)
Definition forward_scale (p : pyramid) (scales : list sel) (s : fwd) (i : Z)
    : M fwd :=
  s <- (if sel_in (SInt i) scales then
          himask <- index (_himasks p) i ;;
          foldM (forward_band p i himask) (range (num_orientations p)) s
        else ret s) ;;
  if negb (downsample p) then
    lomask <- index (_lomasks p) i ;;
    let lodft := mul (f_lodft s) lomask in
    let lodft := match fft_norm p with
                 | ortho => lodft
                 | backward => smul Two lodft
                 end in
    ret {| f_coeffs := f_coeffs s; f_size := f_size s; f_lodft := lodft |}
  else
    bx <- index (_loindices p) i ;;
    let lodft := crop (f_lodft s) bx in
    lomask <- index (_lomasks p) i ;;
    let lodft := mul lodft lomask in
    ret {| f_coeffs := f_coeffs s; f_size := f_size s; f_lodft := lodft |}.

Definition with_pyr_size (p : pyramid) (sz : Dict.t (Z * Z)) : pyramid :=
  {| image_shape := image_shape p; order := order p;
     num_scales := num_scales p; num_orientations := num_orientations p;
     is_complex := is_complex p; downsample := downsample p;
     tight_frame := tight_frame p; fft_norm := fft_norm p;
     scales := scales p; lo0mask := lo0mask p; hi0mask := hi0mask p;
     _himasks := _himasks p; _lomasks := _lomasks p;
     _anglemasks := _anglemasks p;
     _anglemasks_recon := _anglemasks_recon p;
     _loindices := _loindices p; pyr_size := sz |}.

(** [Steerable_Pyramid_Freq.forward]: the coefficients, and the pyramid
    whose [pyr_size] the call has updated.  The copies of [angle] and
    [log_rad] that the method crops at every scale are never read and are
    left out. *)
Definition forward (p : pyramid) (x : tensor) (arg : scales_arg)
    : M (Dict.t tensor * pyramid) :=
  given <- match arg with
           | ScalesList l => ret l
           | ScalesOther _ => raise (Exception "scales must be a list!")
           end ;;
  let scales := match given with [] => scales p | _ => given end in
  match ints_of scales with
  | [] => ret tt
  | a :: l => assert ((max_of a l <? num_scales p) && (0 <=? min_of a l))
                     scales_error
  end ;;;
  assert (ndim x =? 4) input_error ;;;
  let imdft := fft2 (fft_norm p) x in
  let imdft := fftshift imdft in
  let s :=
    if sel_in (SStr residual_highpass) scales then
      let hi0dft := mul imdft (hi0mask p) in
      let hi0 := ifftshift hi0dft in
      let hi0 := ifft2 (fft_norm p) hi0 in
      {| f_coeffs := Dict.set Dict.empty (KStr residual_highpass) (real hi0);
         f_size := Dict.set (pyr_size p) (KStr residual_highpass)
                     (shape2 (real hi0));
         f_lodft := mul imdft (lo0mask p) |}
    else
      {| f_coeffs := Dict.empty; f_size := pyr_size p;
         f_lodft := mul imdft (lo0mask p) |} in
  s <- foldM (forward_scale p scales) (range (num_scales p)) s ;;
  if sel_in (SStr residual_lowpass) scales then
    let lo0 := ifftshift (f_lodft s) in
    let lo0 := ifft2 (fft_norm p) lo0 in
    ret (Dict.set (f_coeffs s) (KStr residual_lowpass) (real lo0),
         with_pyr_size p (Dict.set (f_size s) (KStr residual_lowpass)
                            (shape2 (real lo0))))
  else
    ret (f_coeffs s, with_pyr_size p (f_size s)).

(** ** recon_pyr and its helpers *)

(** The [levels] argument: a list, or a single int or str (['all'] is one
    such str). *)
Inductive levels_arg : Type :=
| LevelsList (l : list sel)
| LevelsOne (v : sel).

(** The [bands] argument: the str ['all'], a list of ints, or one int. *)
Inductive bands_arg : Type :=
| BandsAll
| BandsList (l : list Z)
| BandsOne (b : Z).

(** [s.isdigit()] and [int(s)] on ASCII strings. *)
Definition is_digit (c : ascii) : bool :=
  let n := nat_of_ascii c in (48 <=? n)%nat && (n <=? 57)%nat.

Fixpoint all_digits (s : string) : bool :=
  match s with
  | EmptyString => true
  | String c s' => is_digit c && all_digits s'
  end.

Definition isdigit (s : string) : bool :=
  match s with
  | EmptyString => false
  | _ => all_digits s
  end.

Fixpoint int_of_digits (acc : Z) (s : string) : Z :=
  match s with
  | EmptyString => acc
  | String c s' => int_of_digits (10 * acc + (Z.of_nat (nat_of_ascii c) - 48)) s'
  end.

(** [[int(i) for i in levels if isinstance(i, int) or i.isdigit()]] *)
Fixpoint levs_nums_of (levels : list sel) : list Z :=
  match levels with
  | [] => []
  | SInt i :: l => i :: levs_nums_of l
  | SStr s :: l =>
      if isdigit s then int_of_digits 0 s :: levs_nums_of l else levs_nums_of l
  end.

(** [np.sort] *)
Fixpoint insert_sorted (x : Z) (l : list Z) : list Z :=
  match l with
  | [] => [x]
  | y :: l' => if x <=? y then x :: l else y :: insert_sorted x l'
  end.

Definition sort (l : list Z) : list Z := fold_right insert_sorted [] l.

Definition levels_range_error (num_scales : Z) : string :=
  String.append "Level numbers must be in the range [0, "
    (String.append (str_of_Z (num_scales - 1)) "]").

Definition _recon_levels_check (p : pyramid) (levels : levels_arg) : M (list sel) :=
  levels <-
    match levels with
    | LevelsOne (SStr "all") =>
        ret ([SStr residual_highpass] ++ map SInt (range (num_scales p))
             ++ [SStr residual_lowpass])
    | _ =>
        let levels := match levels with
                      | LevelsList l => l
                      | LevelsOne v => [v]
                      end in
        let levs_nums := levs_nums_of levels in
        assert (forallb (fun z => 0 <=? z) levs_nums)
               "Level numbers must be non-negative." ;;;
        assert (forallb (fun z => z <? num_scales p) levs_nums)
               (levels_range_error (num_scales p)) ;;;
        let levs_tmp := map SInt (sort levs_nums) in
        let levs_tmp := if sel_in (SStr residual_highpass) levels
                        then [SStr residual_highpass] ++ levs_tmp else levs_tmp in
        let levs_tmp := if sel_in (SStr residual_lowpass) levels
                        then levs_tmp ++ [SStr residual_lowpass] else levs_tmp in
        ret levs_tmp
    end ;;
  let levels :=
    if negb (Dict.mem (KStr residual_lowpass) (pyr_size p))
       && sel_in (SStr residual_lowpass) levels
    then removelast levels else levels in
  let levels :=
    if negb (Dict.mem (KStr residual_highpass) (pyr_size p))
       && sel_in (SStr residual_highpass) levels
    then tl levels else levels in
  ret levels.

Definition bands_range_error (num_orientations : Z) : string :=
  String.append "Error: band numbers must be in the range [0, "
    (String.append (str_of_Z (num_orientations - 1)) "]").

Definition _recon_bands_check (p : pyramid) (bands : bands_arg) : M (list Z) :=
  match bands with
  | BandsAll => ret (range (num_orientations p))
  | _ =>
      let bands := match bands with
                   | BandsList l => l
                   | BandsOne b => [b]
                   | BandsAll => []
                   end in
      assert (forallb (fun z => 0 <=? z) bands)
             "Error: band numbers must be larger than 0." ;;;
      assert (forallb (fun z => z <? num_orientations p) bands)
             (bands_range_error (num_orientations p)) ;;;
      ret bands
  end.

Definition max_orientations_warning (i m : Z) : string :=
  String.append "You wanted band "
    (String.append (str_of_Z i)
       (String.append " in the reconstruction but max_orientation is "
          (String.append (str_of_Z m) ", so we're ignoring that band"))).

Definition _recon_keys (p : pyramid) (levels : levels_arg) (bands : bands_arg)
    (max_orientations : option Z) : M (list key) :=
  levels <- _recon_levels_check p levels ;;
  bands <- _recon_bands_check p bands ;;
  bands <- match max_orientations with
           | None => ret bands
           | Some m =>
               foldM (fun _ i => when (m <=? i) (warn (max_orientations_warning i m)))
                     bands tt ;;;
               ret (filter (fun i => i <? m) bands)
           end ;;
  ret (flat_map (fun level => match level with
                              | SStr name => [KStr name]
                              | SInt l => map (fun band => KTup l band) bands
                              end) levels).

(** Body of [for b in range(self.num_orientations)] in [_recon_levels]. *)
Definition recon_band (p : pyramid) (pyr_coeffs : Dict.t tensor)
    (recon_keys : list key) (scale : Z) (himask : tensor)
    (orientdft : tensor) (b : Z) : M tensor :=
  if key_in (KTup scale b) recon_keys then
    row <- index (_anglemasks_recon p) scale ;;
    anglemask <- index row b ;;
    coeffs <- item pyr_coeffs (KTup scale b) ;;
    let coeffs := if tight_frame p && is_complex p
                  then smul Sqrt2 coeffs else coeffs in
    let banddft := fft2 (fft_norm p) coeffs in
    let banddft := fftshift banddft in
    let complex_const := Cpow 1 (order p) in
    let banddft := mul (mul (smul complex_const banddft) anglemask) himask in
    ret (add orientdft banddft)
  else ret orientdft.

(** [Steerable_Pyramid_Freq._recon_levels].  [rest] is
    [self._himasks[scale:]]: the recursion goes on for as long as
    [self._himasks[scale]] is there to be read. *)
Fixpoint _recon_levels (p : pyramid) (pyr_coeffs : Dict.t tensor)
    (recon_keys : list key) (rest : list tensor) (scale : Z) : M tensor :=
  if scale =? num_scales p then
    lo <- item pyr_coeffs (KStr residual_lowpass) ;;
    if key_in (KStr residual_lowpass) recon_keys then
      let lodft := fft2 (fft_norm p) lo in
      ret (fftshift lodft)
    else
      ret (fft2 (fft_norm p) (zeros_like lo float64))
  else
    match rest with
    | [] => raise IndexError
    | himask :: rest' =>
        let tensor_type := if is_complex p then complex64 else float64 in
        c0 <- item pyr_coeffs (KTup scale 0) ;;
        let orientdft := zeros_like c0 tensor_type in
        orientdft <- foldM (recon_band p pyr_coeffs recon_keys scale himask)
                       (range (num_orientations p)) orientdft ;;
        bx <- index (_loindices p) scale ;;
        lomask <- index (_lomasks p) scale ;;
        reslevdft <- _recon_levels p pyr_coeffs recon_keys rest' (scale + 1) ;;
        let reslevdft := if negb (tight_frame p) && negb (downsample p)
                         then sdiv reslevdft Two else reslevdft in
        let resdft := zeros_like c0 complex64 in
        let resdft := place resdft bx (mul reslevdft lomask) in
        ret (add resdft orientdft)
    end.

Definition missing_scale_error (s : sel) : exn :=
  Exception
    (String.append "scale "
       (String.append (match s with SStr name => name | SInt i => str_of_Z i end)
          (String.append " not in pyr_coeffs! pyr_coeffs must include all scales,"
             " so make sure forward() was called with arg scales=[]"))).

(** Body of [for s in self.scales] at the head of [recon_pyr]. *)
Definition check_scale (p : pyramid) (pyr_coeffs : Dict.t tensor) (s : sel)
    : M unit :=
  match s with
  | SStr name =>
      if negb (Dict.mem (KStr name) pyr_coeffs)
      then raise (missing_scale_error s) else ret tt
  | SInt i =>
      foldM (fun _ b => if negb (Dict.mem (KTup i b) pyr_coeffs)
                        then raise (missing_scale_error s) else ret tt)
            (range (num_orientations p)) tt
  end.

(** [Steerable_Pyramid_Freq.recon_pyr] *)
Definition recon_pyr (p : pyramid) (pyr_coeffs : Dict.t tensor)
    (levels : levels_arg) (bands : bands_arg) (twidth : Z) : M tensor :=
  foldM (fun _ s => check_scale p pyr_coeffs s) (scales p) tt ;;;
  twidth <- (if twidth <=? 0 then warn twidth_warning ;;; ret 1 else ret twidth) ;;
  recon_keys <- _recon_keys p levels bands None ;;
  let scale := 0 in
  recondft <- _recon_levels p pyr_coeffs recon_keys (_himasks p) scale ;;
  outdft <- (if key_in (KStr residual_highpass) recon_keys then
               hi <- item pyr_coeffs (KStr residual_highpass) ;;
               let hidft := fft2 (fft_norm p) hi in
               let hidft := fftshift hidft in
               ret (add (mul recondft (lo0mask p)) (mul hidft (hi0mask p)))
             else ret (mul recondft (lo0mask p))) ;;
  let reconstruction := ifftshift outdft in
  let reconstruction := ifft2 (fft_norm p) reconstruction in
  ret (real reconstruction).

(** ** steer_coeffs *)

(** [[pyr_coeffs[(i, j)] for j in range(num_orientations)]] *)
Fixpoint items {V} (d : Dict.t V) (ks : list key) : M (list V) :=
  match ks with
  | [] => ret []
  | k :: ks' => v <- item d k ;; vs <- items d ks' ;; ret (v :: vs)
  end.

(** [enumerate(l)] *)
Definition enumerate {A} (l : list A) : list (Z * A) :=
  combine (range (Z.of_nat (List.length l))) l.

(** The two dictionaries [steer_coeffs] fills. *)
Record steered : Type := {
  resteered_coeffs : Dict.t tensor;
  resteering_weights : Dict.t tensor
}.

(** Body of [for j, a in enumerate(angles)] at scale [i]. *)
Definition steer_angle (p : pyramid) (pyr_coeffs : Dict.t tensor)
    (even_phase : bool) (i : Z) (basis : tensor) (s : steered)
    (ja : Z * angle_t) : M steered :=
  let (j, a) := ja in
  let (res, steervect) := steer basis a even_phase in
  let weights := Dict.set (resteering_weights s) (KTup i j) steervect in
  c0 <- item pyr_coeffs (KTup i 0) ;;
  ret {| resteered_coeffs :=
           Dict.set (resteered_coeffs s) (KTup i (num_orientations p + j))
             (reshape_as res c0);
         resteering_weights := weights |}.

(** [Steerable_Pyramid_Freq.steer_coeffs] *)
Definition steer_coeffs (p : pyramid) (pyr_coeffs : Dict.t tensor)
    (angles : list angle_t) (even_phase : bool) : M steered :=
  c00 <- item pyr_coeffs (KTup 0 0) ;;
  assert (negb (is_complex_dtype c00))
         "steering only implemented for real coefficients" ;;;
  foldM (fun s i =>
           bands <- items pyr_coeffs
                      (map (fun j => KTup i j) (range (num_orientations p))) ;;
           let basis := stack_basis bands in
           foldM (steer_angle p pyr_coeffs even_phase i basis)
                 (enumerate angles) s)
        (range (num_scales p))
        {| resteered_coeffs := Dict.empty; resteering_weights := Dict.empty |}.

End Pyramid.

(** ** A caller: nspd *)

(** What [nspd] of [plenoptic/metric/perceptual_distance.py] uses besides
    the pyramid: [torch.cat((a, b), 0)], the two normalisations it imports
    from [canonical_computations] (they are not part of the files embedded
    here), [torch.sqrt(torch.mean((x[0] - x[1]) ** 2) + epsilon)] and
    [torch.stack(dist).mean()].  Each of them may raise. *)
Class Metric (B : Backend) : Type := {
  cat0 : tensor -> tensor -> M tensor;
  rectangular_to_polar_dict :
    Dict.t tensor -> M (Dict.t tensor * Dict.t tensor);
  local_gain_control : Dict.t tensor -> M (Dict.t tensor * Dict.t tensor);
  rms_diff : tensor -> M tensor;
  stack_mean : list tensor -> M tensor
}.

Section Distance.
Context {B : Backend} {MT : Metric B}.

(** [nspd(IM_1, IM_2, O, S, complex)]: the pyramid is built with the
    defaults twidth=1, downsample=True and tight_frame=False, and is called
    with its default [scales=[]]. *)
Definition nspd (IM_1 IM_2 : tensor) (O : Z) (S : height_arg) (complex : bool)
    : M tensor :=
  linear <- __init__ (shape2 IM_1) S O 1 complex true false ;;
  x <- cat0 IM_1 IM_2 ;;
  pyr <- forward linear x (ScalesList []) ;;
  ns <- (if complex then rectangular_to_polar_dict (fst pyr)
         else local_gain_control (fst pyr)) ;;
  let (normed, state) := ns in
  dist <- foldM (fun dist key =>
                   n <- item normed key ;;
                   a <- rms_diff n ;;
                   s <- item state key ;;
                   b <- rms_diff s ;;
                   ret (dist ++ [a; b]))
            (Dict.keys state) [] ;;
  stack_mean dist.

End Distance.

(** ** The pyramid/tensor codec *)

(** [convert_pyr_to_tensor] and [convert_tensor_to_pyr] are static methods
    that only move channels around, so here a tensor is given by its dtype
    and its channels.  Sample values are integers: what the codec does to a
    value is copy it, take its real or imaginary part, pair two of them, or
    round it to single precision. *)
Module Codec.

(** One channel of a real tensor: its shape [(B, H, W)] and its values. *)
Record plane : Type := {
  shape : Z * Z * Z;
  data : list Z
}.

Definition plane_eqb (a b : plane) : bool :=
  let '(b1, h1, w1) := shape a in
  let '(b2, h2, w2) := shape b in
  (b1 =? b2) && (h1 =? h2) && (w1 =? w2)
  && (List.length (data a) =? List.length (data b))%nat
  && forallb (fun xy => fst xy =? snd xy) (combine (data a) (data b)).

Definition shape_eqb (a b : Z * Z * Z) : bool :=
  let '(b1, h1, w1) := a in
  let '(b2, h2, w2) := b in
  (b1 =? b2) && (h1 =? h2) && (w1 =? w2).

Definition zeros (p : plane) : plane :=
  {| shape := shape p; data := map (fun _ => 0) (data p) |}.

(** The precision of a dtype: [torch.float32] and [torch.complex64] are
    single, [torch.float64] and [torch.complex128] are double. *)
Inductive precision : Type := Single | Double.

Definition wider (p q : precision) : precision :=
  match p with Single => q | Double => Double end.

(** A BxCxHxW tensor of a floating or of a complex dtype, as the list of
    its C channels; a complex channel is its real and its imaginary plane. *)
Inductive tensor : Type :=
| Float (p : precision) (cs : list plane)
| Complex (p : precision) (cs : list (plane * plane)).

(** Tensors of the dtypes [torch.float32] and [torch.complex64]. *)
Abbreviation Real := (Float Single).
Abbreviation Cplx := (Complex Single).

Definition precision_of (x : tensor) : precision :=
  match x with
  | Float p _ => p
  | Complex p _ => p
  end.

(** [x.size(1)] *)
Definition size1 (x : tensor) : Z :=
  match x with
  | Float _ cs => Z.of_nat (List.length cs)
  | Complex _ cs => Z.of_nat (List.length cs)
  end.

(** [l[lo:hi]] for [0 <= lo <= hi]. *)
Definition slice {A} (l : list A) (lo hi : Z) : list A :=
  firstn (Z.to_nat (hi - lo)) (skipn (Z.to_nat lo) l).

(** [x[:, lo:hi, ...]] *)
Definition narrow (x : tensor) (lo hi : Z) : tensor :=
  match x with
  | Float p cs => Float p (slice cs lo hi)
  | Complex p cs => Complex p (slice cs lo hi)
  end.

(** [x.dtype in complex_types], which holds [torch.cdouble] and
    [torch.cfloat]. *)
Definition is_complex_dtype (x : tensor) : bool :=
  match x with
  | Float _ _ => false
  | Complex _ _ => true
  end.

(** [x.real] and [x.imag]; the latter is not defined on a real tensor. *)
Definition real (x : tensor) : tensor :=
  match x with
  | Float p cs => Float p cs
  | Complex p cs => Float p (map fst cs)
  end.

Definition imag (x : tensor) : M tensor :=
  match x with
  | Float _ _ => raise RuntimeError
  | Complex p cs => ret (Float p (map snd cs))
  end.

(** The single-precision number nearest to the integer [v], ties going to
    the even significand: integers below [2^24] in magnitude are kept, the
    others keep their 24 leading bits.  (From [2^128 - 2^103] on, the
    magnitudes single precision cannot hold, torch gives an infinity; the
    integers here have none, and nothing below reads a value of that
    size.) *)
Definition round32 (v : Z) : Z :=
  let a := Z.abs v in
  if a <? 2 ^ 24 then v
  else
    let q := 2 ^ (Z.log2 a - 23) in
    let m := a / q in
    let r := a mod q in
    let m := if 2 * r <? q then m
             else if q <? 2 * r then m + 1
             else if Z.even m then m else m + 1 in
    Z.sgn v * (m * q).

(** A plane of the precision [p] converted to single precision. *)
Definition to_single (p : precision) (c : plane) : plane :=
  match p with
  | Single => c
  | Double => {| shape := shape c; data := map round32 (data c) |}
  end.

Definition cast_warning : string :=
  "Casting complex values to real discards the imaginary part".

(** [x.type(torch.float)]: the result is a [torch.float32] tensor; double
    precision values are rounded, and of a complex tensor the real part is
    kept, which torch reports with a warning.  (torch may keep the warning
    to the first such cast of a process; it is recorded at every cast
    here.) *)
Definition type_float (x : tensor) : M tensor :=
  match x with
  | Float p cs => ret (Float Single (map (to_single p) cs))
  | Complex p cs =>
      warn cast_warning ;;;
      ret (Float Single (map (fun c => to_single p (fst c)) cs))
  end.

(** The channels of a tensor after promotion to a complex dtype. *)
Definition as_complex (x : tensor) : list (plane * plane) :=
  match x with
  | Float _ cs => map (fun c => (c, zeros c)) cs
  | Complex _ cs => cs
  end.

Definition channel_shapes (x : tensor) : list (Z * Z * Z) :=
  match x with
  | Float _ cs => map shape cs
  | Complex _ cs => map (fun c => shape (fst c)) cs
  end.

Definition real_channels (x : tensor) : list plane :=
  match x with
  | Float _ cs => cs
  | Complex _ cs => []
  end.

(** The precision [torch.cat] promotes a list of tensors to. *)
Definition promote (xs : list tensor) : precision :=
  fold_right (fun x p => wider (precision_of x) p) Single xs.

(** [torch.cat(xs, dim=1)]: the list must not be empty, the tensors must
    agree on every dimension but the channel one, and the result has a
    complex dtype as soon as one of them has, and double precision as soon
    as one of them has. *)
Definition cat (xs : list tensor) : M tensor :=
  match flat_map channel_shapes xs with
  | [] => match xs with
          | [] => raise RuntimeError
          | _ => ret (if existsb is_complex_dtype xs
                      then Complex (promote xs) []
                      else Float (promote xs) [])
          end
  | s :: ss =>
      if forallb (shape_eqb s) ss then
        if existsb is_complex_dtype xs
        then ret (Complex (promote xs) (flat_map as_complex xs))
        else ret (Float (promote xs) (flat_map real_channels xs))
      else raise RuntimeError
  end.

(** [x[:, i, ...].unsqueeze(1)] for [0 <= i]. *)
Definition select (x : tensor) (i : Z) : M tensor :=
  match x with
  | Float p cs =>
      c <- of_option (nth_error cs (Z.to_nat i)) IndexError ;; ret (Float p [c])
  | Complex p cs =>
      c <- of_option (nth_error cs (Z.to_nat i)) IndexError ;; ret (Complex p [c])
  end.

(** [torch.view_as_complex(rearrange(x, 'b c h w -> b h w c').unsqueeze(1)
    .contiguous())]: [x] must be real and have exactly two channels. *)
Definition view_as_complex (x : tensor) : M tensor :=
  match x with
  | Float p [re; im] => ret (Complex p [(re, im)])
  | _ => raise RuntimeError
  end.

(** ['residual' in k]: a substring test on a str key, a membership test on a
    tuple of ints. *)
Fixpoint contains (needle s : string) : bool :=
  prefix needle s
  || match s with
     | EmptyString => false
     | String _ s' => contains needle s'
     end.

Definition is_residual (k : key) : bool :=
  match k with
  | KStr name => contains "residual" name
  | KTup _ _ => false
  end.

(** [pyr_info] *)
Record pyr_info : Type := {
  num_channels : Z;
  split_complex : bool;
  pyr_keys : list key
}.

(** Body of [for k in pyr_keys] in [convert_pyr_to_tensor]: the two lists
    [coeff_list_resid] and [coeff_list_bands]. *)
Definition pack_key (pyr_coeffs : Dict.t tensor) (split_complex : bool) (ch : Z)
    (s : list tensor * list tensor) (k : key) : M (list tensor * list tensor) :=
  let (coeff_list_resid, coeff_list_bands) := s in
  band <- item pyr_coeffs k ;;
  let coeffs := narrow band ch (ch + 1) in
  if is_residual k then ret (coeff_list_resid ++ [coeffs], coeff_list_bands)
  else if is_complex_dtype coeffs && split_complex then
    im <- imag coeffs ;;
    ret (coeff_list_resid, coeff_list_bands ++ [real coeffs; im])
  else ret (coeff_list_resid, coeff_list_bands ++ [coeffs]).

(** Body of [for ch in range(num_channels)]. *)
Definition pack_channel (pyr_coeffs : Dict.t tensor) (split_complex : bool)
    (coeff_list : list tensor) (ch : Z) : M (list tensor) :=
  s <- foldM (pack_key pyr_coeffs split_complex ch) (Dict.keys pyr_coeffs) ([], []) ;;
  let (coeff_list_resid, coeff_list_bands) := s in
  coeff_list_bands <-
    (if Dict.mem (KStr residual_highpass) pyr_coeffs then
       r0 <- index coeff_list_resid 0 ;;
       let bands := r0 :: coeff_list_bands in
       if Dict.mem (KStr residual_lowpass) pyr_coeffs then
         r1 <- index coeff_list_resid 1 ;;
         ret (bands ++ [r1])
       else ret bands
     else if Dict.mem (KStr residual_lowpass) pyr_coeffs then
       r0 <- index coeff_list_resid 0 ;;
       ret (coeff_list_bands ++ [r0])
     else ret coeff_list_bands) ;;
  ret (coeff_list ++ coeff_list_bands).

Definition concat_error : exn :=
  Exception "feature maps could not be concatenated into tensor.".

(** [Steerable_Pyramid_Freq.convert_pyr_to_tensor] *)
Definition convert_pyr_to_tensor (pyr_coeffs : Dict.t tensor) (split_complex : bool)
    : M (tensor * pyr_info) :=
  let pyr_keys := Dict.keys pyr_coeffs in
  k0 <- index pyr_keys 0 ;;
  test_band <- item pyr_coeffs k0 ;;
  let num_channels := size1 test_band in
  coeff_list <- foldM (pack_channel pyr_coeffs split_complex)
                  (range num_channels) [] ;;
  match cat coeff_list with
  | (w, Raise RuntimeError) => (w, Raise concat_error)
  | r =>
      pyr_tensor <- r ;;
      ret (pyr_tensor,
           {| num_channels := num_channels; split_complex := split_complex;
              pyr_keys := pyr_keys |})
  end.

(** Body of [for k in pyr_keys] in [convert_tensor_to_pyr]: the running
    channel index [i] and the dictionary. *)
Definition unpack_key (pyr_tensor : tensor) (split_complex : bool)
    (s : Z * Dict.t tensor) (k : key) : M (Z * Dict.t tensor) :=
  let (i, pyr_coeffs) := s in
  bi <- (if is_residual k then
           band <- select pyr_tensor i ;;
           band <- type_float band ;;
           ret (band, i + 1)
         else if split_complex then
           band <- view_as_complex (narrow pyr_tensor i (i + 2)) ;;
           ret (band, i + 2)
         else
           band <- select pyr_tensor i ;;
           ret (band, i + 1)) ;;
  let (band, i) := bi in
  match Dict.get pyr_coeffs k with
  | None => ret (i, Dict.set pyr_coeffs k band)
  | Some old =>
      both <- cat [old; band] ;;
      ret (i, Dict.set pyr_coeffs k both)
  end.

(** [Steerable_Pyramid_Freq.convert_tensor_to_pyr] *)
Definition convert_tensor_to_pyr (pyr_tensor : tensor) (num_channels : Z)
    (split_complex : bool) (pyr_keys : list key) : M (Dict.t tensor) :=
  s <- foldM (fun s _ => foldM (unpack_key pyr_tensor split_complex) pyr_keys s)
         (range num_channels) (0, Dict.empty) ;;
  ret (snd s).

(** [convert_tensor_to_pyr(pyr_tensor, *pyr_info)] on the result of
    [convert_pyr_to_tensor]. *)
Definition roundtrip (pyr_coeffs : Dict.t tensor) (split_complex : bool)
    : M (Dict.t tensor) :=
  packed <- convert_pyr_to_tensor pyr_coeffs split_complex ;;
  let (pyr_tensor, info) := packed in
  convert_tensor_to_pyr pyr_tensor (num_channels info) (Codec.split_complex info)
    (pyr_keys info).

(** *** The layout of the packed tensor *)

(** Channel [ch] of a tensor, and its first [n] channels. *)
Definition chan (ch : Z) (x : tensor) : tensor := narrow x ch (ch + 1).
Definition take (n : Z) (x : tensor) : tensor := narrow x 0 n.

(** What [x.imag] returns on a complex tensor. *)
Definition imag_part (x : tensor) : tensor :=
  match x with
  | Float p cs => Float p cs
  | Complex p cs => Float p (map snd cs)
  end.

(** The tensors that the entry [e] of the dictionary adds to [coeff_list]
    for the image channel [ch]. *)
Definition pieces (split_complex : bool) (ch : Z) (e : key * tensor)
    : list tensor :=
  let coeffs := chan ch (snd e) in
  if is_residual (fst e) then [coeffs]
  else if is_complex_dtype coeffs && split_complex
       then [real coeffs; imag_part coeffs]
       else [coeffs].

(** The share of [coeff_list_resid] and of [coeff_list_bands] in it. *)
Definition resid_pieces (ch : Z) (e : key * tensor) : list tensor :=
  if is_residual (fst e) then [chan ch (snd e)] else [].

Definition band_pieces (split_complex : bool) (ch : Z) (e : key * tensor)
    : list tensor :=
  if is_residual (fst e) then [] else pieces split_complex ch e.

(** [coeff_list] for a dictionary with [C] image channels: channel by
    channel, and within a channel entry by entry. *)
Definition coeff_list_of (d : Dict.t tensor) (split_complex : bool) (C : Z)
    : list tensor :=
  flat_map (fun ch => flat_map (pieces split_complex ch) d) (range C).

(** The band [unpack_key] reads at channel index [i], and the index after
    it. *)
Definition read_band (pyr_tensor : tensor) (split_complex : bool) (i : Z)
    (k : key) : M (tensor * Z) :=
  if is_residual k then
    band <- select pyr_tensor i ;;
    band <- type_float band ;;
    ret (band, i + 1)
  else if split_complex then
    band <- view_as_complex (narrow pyr_tensor i (i + 2)) ;;
    ret (band, i + 2)
  else
    band <- select pyr_tensor i ;;
    ret (band, i + 1).

(** A dictionary as [forward] lays it out: the high-pass residual if there
    is one, the bands, the low-pass residual if there is one. *)
Definition assemble (hi : option tensor) (bands : Dict.t tensor)
    (lo : option tensor) : Dict.t tensor :=
  match hi with Some v => [(KStr residual_highpass, v)] | None => [] end
  ++ bands
  ++ match lo with Some v => [(KStr residual_lowpass, v)] | None => [] end.

(** Every plane of [x] has the shape [sh]. *)
Definition uniform (sh : Z * Z * Z) (x : tensor) : bool :=
  match x with
  | Float _ cs => forallb (fun c => shape_eqb sh (shape c)) cs
  | Complex _ cs => forallb (fun c => shape_eqb sh (shape (fst c))
                                      && shape_eqb sh (shape (snd c))) cs
  end.

(** The dictionary [convert_tensor_to_pyr] holds while it reads the image
    channel [ch]: the entries [pre] have their channel [ch] already, the
    entries [es] not yet. *)
Definition partial (ch : Z) (pre es : Dict.t tensor) : Dict.t tensor :=
  map (fun e => (fst e, take (ch + 1) (snd e))) pre
  ++ (if ch =? 0 then [] else map (fun e => (fst e, take ch (snd e))) es).

(** [x.dtype] is [torch.float32] or [torch.complex64]. *)
Definition single (x : tensor) : bool :=
  match precision_of x with
  | Single => true
  | Double => false
  end.

Fixpoint nodupb (ks : list key) : bool :=
  match ks with
  | [] => true
  | k :: ks' => negb (key_in k ks') && nodupb ks'
  end.

(** The dictionaries the codec is made for: at least one entry; [C >= 1]
    image channels in every entry, all of the shape [sh]; real residuals;
    band keys that are distinct and are not residual names; bands that are
    all complex, or all real when [split_complex] is off. *)
Definition packable (C : Z) (sh : Z * Z * Z) (split_complex : bool)
    (hi : option tensor) (bands : Dict.t tensor) (lo : option tensor) : bool :=
  let d := assemble hi bands lo in
  (0 <? C)
  && negb (Nat.eqb (List.length d) 0)
  && forallb (fun e => (size1 (snd e) =? C) && uniform sh (snd e)) d
  && forallb (fun e => negb (is_residual (fst e))) bands
  && nodupb (Dict.keys bands)
  && match hi with Some v => negb (is_complex_dtype v) | None => true end
  && match lo with Some v => negb (is_complex_dtype v) | None => true end
  && (forallb (fun e => is_complex_dtype (snd e)) bands
      || negb split_complex
         && forallb (fun e => negb (is_complex_dtype (snd e))) bands).

End Codec.

(** ** Well-formed pyramids *)

Section Invariant.
Context {B : Backend}.

(** What the constructor establishes and [forward] and [to] keep: one mask
    and one bounding box per scale, one angle mask per scale and
    orientation, and the list [self.scales]. *)
Record wf (p : pyramid) : Prop := {
  wf_scales :
    scales p = [SStr residual_lowpass] ++ map SInt (rev (range (num_scales p)))
               ++ [SStr residual_highpass];
  wf_himasks : List.length (_himasks p) = Z.to_nat (num_scales p);
  wf_lomasks : List.length (_lomasks p) = Z.to_nat (num_scales p);
  wf_loindices : List.length (_loindices p) = Z.to_nat (num_scales p);
  wf_anglemasks : List.length (_anglemasks p) = Z.to_nat (num_scales p);
  wf_anglemasks_recon :
    List.length (_anglemasks_recon p) = Z.to_nat (num_scales p);
  wf_angle_rows :
    Forall (fun row => List.length row = Z.to_nat (num_orientations p))
           (_anglemasks p);
  wf_angle_rows_recon :
    Forall (fun row => List.length row = Z.to_nat (num_orientations p))
           (_anglemasks_recon p)
}.

(** The keys the pyramid defines. *)
Definition defined_key (p : pyramid) (k : key) : Prop :=
  match k with
  | KStr name => name = residual_highpass \/ name = residual_lowpass
  | KTup i b => 0 <= i < num_scales p /\ 0 <= b < num_orientations p
  end.

(** A valid entry of [scales]: a scale of the pyramid or a residual name. *)
Definition valid_scale (p : pyramid) (s : sel) : Prop :=
  match s with
  | SInt i => 0 <= i < num_scales p
  | SStr name => name = residual_highpass \/ name = residual_lowpass
  end.

End Invariant.

(** ** A small instance of the kernel

    Tensors, arrays and tables are single integers, the transforms are
    the identity, and a mask shows the abscissa it was interpolated on.  It
    serves to run the definitions on concrete inputs. *)
Definition sample_backend : Backend := {|
  tensor := Z; ndarray := Z; lut := Z; angle_t := Z;
  ndim := fun _ => 4;
  shape2 := fun _ => (1, 1);
  fft2 := fun _ x => x;
  ifft2 := fun _ x => x;
  fftshift := fun x => x;
  ifftshift := fun x => x;
  mul := Z.mul;
  add := Z.add;
  smul := fun c x => match c with Two => 2 * x | _ => x end;
  sdiv := fun x c => match c with Two => x / 2 | _ => x end;
  real := fun x => x;
  crop := fun x _ => x;
  place := fun _ _ v => v;
  zeros_like := fun _ _ => 0;
  is_complex_dtype := fun _ => false;
  torch_tensor := fun m => m;
  to_float32 := fun x => x;
  angle_grid := fun _ => 1;
  log_rad_grid := fun _ => 1;
  slice2 := fun a _ => a;
  raised_cosine := fun twidth => (twidth, 1);
  lut_sqrt := fun y => y;
  lut_sqrt_compl := fun y => y;
  lut_octave_down := fun x => x;
  Ycosn_analytic := fun _ _ => 1;
  Ycosn_real := fun _ _ => 1;
  Xcosn_shifted := fun b _ => b + 1;
  interpolate1d := fun x_new Y X => x_new * Y + X;
  stack_basis := fun cs => fold_right Z.add 0 cs;
  steer := fun basis a _ => (basis * a, a);
  reshape_as := fun res _ => res
|}.

(** The same kernel, except that a tensor's number of dimensions is its
    value. *)
Definition sample_backend_nd : Backend := {|
  tensor := Z; ndarray := Z; lut := Z; angle_t := Z;
  ndim := fun x => x;
  shape2 := fun _ => (1, 1);
  fft2 := fun _ x => x;
  ifft2 := fun _ x => x;
  fftshift := fun x => x;
  ifftshift := fun x => x;
  mul := Z.mul;
  add := Z.add;
  smul := fun c x => match c with Two => 2 * x | _ => x end;
  sdiv := fun x c => match c with Two => x / 2 | _ => x end;
  real := fun x => x;
  crop := fun x _ => x;
  place := fun _ _ v => v;
  zeros_like := fun _ _ => 0;
  is_complex_dtype := fun _ => false;
  torch_tensor := fun m => m;
  to_float32 := fun x => x;
  angle_grid := fun _ => 1;
  log_rad_grid := fun _ => 1;
  slice2 := fun a _ => a;
  raised_cosine := fun twidth => (twidth, 1);
  lut_sqrt := fun y => y;
  lut_sqrt_compl := fun y => y;
  lut_octave_down := fun x => x;
  Ycosn_analytic := fun _ _ => 1;
  Ycosn_real := fun _ _ => 1;
  Xcosn_shifted := fun b _ => b + 1;
  interpolate1d := fun x_new Y X => x_new * Y;
  stack_basis := fun cs => fold_right Z.add 0 cs;
  steer := fun basis a _ => (basis * a, a);
  reshape_as := fun res _ => res
|}.

(** A kernel whose images are 64 by 48, with a small instance of what
    [nspd] needs. *)
Definition sample_backend_64 : Backend := {|
  tensor := Z; ndarray := Z; lut := Z; angle_t := Z;
  ndim := fun _ => 4;
  shape2 := fun _ => (64, 48);
  fft2 := fun _ x => x;
  ifft2 := fun _ x => x;
  fftshift := fun x => x;
  ifftshift := fun x => x;
  mul := Z.mul;
  add := Z.add;
  smul := fun c x => match c with Two => 2 * x | _ => x end;
  sdiv := fun x c => match c with Two => x / 2 | _ => x end;
  real := fun x => x;
  crop := fun x _ => x;
  place := fun _ _ v => v;
  zeros_like := fun _ _ => 0;
  is_complex_dtype := fun _ => false;
  torch_tensor := fun m => m;
  to_float32 := fun x => x;
  angle_grid := fun _ => 1;
  log_rad_grid := fun _ => 1;
  slice2 := fun a _ => a;
  raised_cosine := fun twidth => (twidth, 1);
  lut_sqrt := fun y => y;
  lut_sqrt_compl := fun y => y;
  lut_octave_down := fun x => x;
  Ycosn_analytic := fun _ _ => 1;
  Ycosn_real := fun _ _ => 1;
  Xcosn_shifted := fun b _ => b + 1;
  interpolate1d := fun x_new Y X => x_new * Y;
  stack_basis := fun cs => fold_right Z.add 0 cs;
  steer := fun basis a _ => (basis * a, a);
  reshape_as := fun res _ => res
|}.

Definition sample_metric : Metric sample_backend_64 :=
  @Build_Metric sample_backend_64
    (fun a b => ret (Z.add a b))
    (fun d => ret (d, d))
    (fun d => ret (d, d))
    (fun x => ret x)
    (fun l => ret (fold_right Z.add 0 l)).

(** The pyramid of a 16x16 image with two scales and two orientations. *)
Definition sample_pyramid : @pyramid sample_backend :=
  @build_pyramid sample_backend (16, 16) 2 1 1 false true false.

(** A dictionary with every key of [sample_pyramid]. *)
Definition sample_coeffs : Dict.t Z :=
  [(KStr residual_highpass, 5); (KTup 0 0, 5); (KTup 0 1, 5);
   (KTup 1 0, 5); (KTup 1 1, 5); (KStr residual_lowpass, 5)].

(** Coefficients of a pyramid with one scale and two orientations, built
    without downsampling from an image with one channel: first of a real
    pyramid, then of a complex one. *)
Definition sample_plane (v : Z) : Codec.plane :=
  {| Codec.shape := (1, 1, 2); Codec.data := [v; v + 1] |}.

(** A pyramid of the dtype [torch.float64]: a high-pass residual that holds
    [2^24 + 1], and one band. *)
Definition double_coeffs : Dict.t Codec.tensor :=
  [(KStr residual_highpass,
    Codec.Float Codec.Double
      [{| Codec.shape := (1, 1, 2); Codec.data := [16777217; 3] |}]);
   (KTup 0 0, Codec.Float Codec.Double [sample_plane 20])].

Definition real_coeffs : Dict.t Codec.tensor :=
  [(KStr residual_highpass, Codec.Real [sample_plane 10]);
   (KTup 0 0, Codec.Real [sample_plane 20]);
   (KTup 0 1, Codec.Real [sample_plane 30]);
   (KStr residual_lowpass, Codec.Real [sample_plane 40])].

Definition complex_coeffs : Dict.t Codec.tensor :=
  [(KStr residual_highpass, Codec.Real [sample_plane 10]);
   (KTup 0 0, Codec.Cplx [(sample_plane 20, sample_plane 25)]);
   (KTup 0 1, Codec.Cplx [(sample_plane 30, sample_plane 35)]);
   (KStr residual_lowpass, Codec.Real [sample_plane 40])].

(** The same with two image channels. *)
Definition real_coeffs2 : Dict.t Codec.tensor :=
  [(KStr residual_highpass, Codec.Real [sample_plane 10; sample_plane 11]);
   (KTup 0 0, Codec.Real [sample_plane 20; sample_plane 21]);
   (KTup 0 1, Codec.Real [sample_plane 30; sample_plane 31]);
   (KStr residual_lowpass, Codec.Real [sample_plane 40; sample_plane 41])].

Definition complex_coeffs2 : Dict.t Codec.tensor :=
  [(KStr residual_highpass, Codec.Real [sample_plane 10; sample_plane 11]);
   (KTup 0 0, Codec.Cplx [(sample_plane 20, sample_plane 25);
                          (sample_plane 21, sample_plane 26)]);
   (KTup 0 1, Codec.Cplx [(sample_plane 30, sample_plane 35);
                          (sample_plane 31, sample_plane 36)]);
   (KStr residual_lowpass, Codec.Real [sample_plane 40; sample_plane 41])].

(** ** Quantities the properties are stated with *)

(** Half of a side, rounded up, and the side after [n] halvings: the sides
    of [lodft] along the scales of a pyramid built with downsampling. *)
Definition halve (d : Z) : Z := (d + 1) / 2.
Definition halve_n (n : nat) (d : Z) : Z := Nat.iter n halve d.

Section Selection.
Context {B : Backend}.

(** The selection [forward] works with: [self.scales] when [scales] is
    empty. *)
Definition selected (p : pyramid) (S : list sel) : list sel :=
  match S with
  | [] => scales p
  | _ => S
  end.

(** The keys of a pyramid in the order [forward] writes them, restricted
    to a selection. *)
Definition forward_keys (p : pyramid) (S : list sel) : list key :=
  (if sel_in (SStr residual_highpass) (selected p S)
   then [KStr residual_highpass] else [])
  ++ flat_map (fun i => if sel_in (SInt i) (selected p S)
                        then map (fun b => KTup i b) (range (num_orientations p))
                        else [])
              (range (num_scales p))
  ++ (if sel_in (SStr residual_lowpass) (selected p S)
      then [KStr residual_lowpass] else []).

(** The sizes recorded so far cover what [sz0] held and every coefficient
    written. *)
Definition sizes_cover (sz0 : Dict.t (Z * Z)) (s : fwd) : Prop :=
  forall k, Dict.mem k (f_coeffs s) = true \/ Dict.mem k sz0 = true ->
            Dict.mem k (f_size s) = true.

(** Every key of the pyramid, in the order of [forward]. *)
Definition all_keys (p : pyramid) : list key :=
  [KStr residual_highpass]
  ++ flat_map (fun i => map (fun b => KTup i b) (range (num_orientations p)))
              (range (num_scales p))
  ++ [KStr residual_lowpass].

End Selection.

(** * Properties *)

(** ** The monad *)

Lemma outcome_bind {A B} (m : M A) (f : A -> M B) :
  outcome (bind m f) =
  match outcome m with
  | Ok a => outcome (f a)
  | Raise e => Raise e
  end.
Proof.
  destruct m as [w [a|e]]; simpl; [destruct (f a)|]; reflexivity.
Qed.

Lemma bind_ok_nil {A B} (m : M A) (f : A -> M B) (a : A) :
  m = ([], Ok a) -> bind m f = f a.
Proof. intros ->. simpl. destruct (f a); reflexivity. Qed.

Lemma bind_ok_ok {A B} (m : M A) (f : A -> M B) (w1 w2 : list string) (a : A)
    (r : result B) :
  m = (w1, Ok a) -> f a = (w2, r) -> bind m f = (w1 ++ w2, r).
Proof. intros -> E. simpl. now rewrite E. Qed.

Lemma bind_inv_ok {A B} (m : M A) (f : A -> M B) (w : list string) (b : B) :
  bind m f = (w, Ok b) ->
  exists w1 a w2, m = (w1, Ok a) /\ f a = (w2, Ok b) /\ w = w1 ++ w2.
Proof.
  destruct m as [w1 [a|e]]; simpl; [|discriminate].
  destruct (f a) as [w2 r] eqn:E. intros [= <- ->].
  exists w1, a, w2. auto.
Qed.

(** ** Keys and dictionaries *)

Lemma key_eqb_spec (a b : key) : reflect (a = b) (key_eqb a b).
Proof.
  destruct a as [s|i j], b as [t|i' j']; simpl; try (constructor; discriminate).
  - destruct (String.eqb_spec s t); constructor; congruence.
  - destruct (Z.eqb_spec i i'), (Z.eqb_spec j j'); simpl; constructor; congruence.
Qed.

Lemma sel_eqb_spec (a b : sel) : reflect (a = b) (sel_eqb a b).
Proof.
  destruct a as [i|s], b as [j|t]; simpl; try (constructor; discriminate).
  - destruct (Z.eqb_spec i j); constructor; congruence.
  - destruct (String.eqb_spec s t); constructor; congruence.
Qed.

Lemma key_eqb_refl (a : key) : key_eqb a a = true.
Proof. destruct (key_eqb_spec a a); congruence. Qed.

Lemma key_in_spec (k : key) (l : list key) : key_in k l = true <-> In k l.
Proof.
  unfold key_in. rewrite existsb_exists. split.
  - intros [x [Hx E]]. destruct (key_eqb_spec k x); congruence.
  - intros H. exists k. split; [exact H|apply key_eqb_refl].
Qed.

Lemma sel_in_spec (v : sel) (l : list sel) : sel_in v l = true <-> In v l.
Proof.
  unfold sel_in. rewrite existsb_exists. split.
  - intros [x [Hx E]]. destruct (sel_eqb_spec v x); congruence.
  - intros H. exists v. split; [exact H|]. destruct (sel_eqb_spec v v); congruence.
Qed.

Lemma get_set {V} (d : Dict.t V) (k k' : key) (v : V) :
  Dict.get (Dict.set d k v) k' =
  if key_eqb k' k then Some v else Dict.get d k'.
Proof.
  induction d as [|[k0 v0] d IH]; simpl.
  - reflexivity.
  - destruct (key_eqb_spec k k0) as [->|Hk]; simpl.
    + destruct (key_eqb_spec k' k0); reflexivity.
    + rewrite IH. destruct (key_eqb_spec k' k0) as [->|]; [|reflexivity].
      destruct (key_eqb_spec k0 k); congruence.
Qed.

Lemma mem_get {V} (d : Dict.t V) (k : key) :
  Dict.mem k d = true <-> Dict.get d k <> None.
Proof.
  unfold Dict.mem, Dict.keys. induction d as [|[k0 v0] d IH]; simpl.
  - split; [discriminate|congruence].
  - unfold key_in in *. simpl. destruct (key_eqb k k0); simpl.
    + split; [discriminate|reflexivity].
    + exact IH.
Qed.

(** ** Ranges and indexing *)

Lemma range_length (n : Z) : List.length (range n) = Z.to_nat n.
Proof. unfold range. now rewrite length_map, length_seq. Qed.

Lemma in_range (n i : Z) : In i (range n) <-> 0 <= i < n.
Proof.
  unfold range. rewrite in_map_iff. split.
  - intros [k [<- Hk]]. apply in_seq in Hk. lia.
  - intros Hi. exists (Z.to_nat i). split; [lia|]. apply in_seq. lia.
Qed.

Lemma index_ok {A} (l : list A) (i : Z) :
  0 <= i < Z.of_nat (List.length l) ->
  exists a, index l i = ([], Ok a) /\ nth_error l (Z.to_nat i) = Some a.
Proof.
  intros Hi. unfold index.
  replace ((0 <=? i) && (i <? Z.of_nat (List.length l))) with true
    by (symmetry; apply andb_true_iff; split; [apply Z.leb_le|apply Z.ltb_lt]; lia).
  destruct (nth_error l (Z.to_nat i)) as [a|] eqn:E.
  - exists a. split; reflexivity.
  - apply nth_error_None in E. lia.
Qed.

(** ** The constructor *)

Section Constructor.
Context {B : Backend}.

Lemma build_scales_lengths (n : nat) (o no : Z) (c d : bool) (Y YI : lut)
    (s : build) :
  let s' := build_scales n o no c d Y YI s in
  List.length (b_himasks s') = (List.length (b_himasks s) + n)%nat
  /\ List.length (b_lomasks s') = (List.length (b_lomasks s) + n)%nat
  /\ List.length (b_loindices s') = (List.length (b_loindices s) + n)%nat
  /\ List.length (b_anglemasks s') = (List.length (b_anglemasks s) + n)%nat
  /\ List.length (b_anglemasks_recon s')
     = (List.length (b_anglemasks_recon s) + n)%nat.
Proof.
  revert s. induction n as [|n IH]; intros s; simpl.
  - repeat split; lia.
  - specialize (IH (build_scale o no c d Y YI s)). simpl in IH.
    destruct IH as (H1 & H2 & H3 & H4 & H5).
    rewrite H1, H2, H3, H4, H5.
    unfold build_scale. destruct (negb d); simpl;
      rewrite !length_app; simpl; repeat split; lia.
Qed.

Lemma build_scales_rows (n : nat) (o no : Z) (c d : bool) (Y YI : lut)
    (s : build) :
  let s' := build_scales n o no c d Y YI s in
  Forall (fun row => List.length row = Z.to_nat no) (b_anglemasks s) ->
  Forall (fun row => List.length row = Z.to_nat no) (b_anglemasks_recon s) ->
  Forall (fun row => List.length row = Z.to_nat no) (b_anglemasks s')
  /\ Forall (fun row => List.length row = Z.to_nat no) (b_anglemasks_recon s').
Proof.
  revert s. induction n as [|n IH]; intros s; simpl; intros Ha Hr.
  - split; assumption.
  - apply IH; unfold build_scale; destruct (negb d); simpl;
      apply Forall_app; split; try assumption;
      constructor; try constructor;
      rewrite length_map; apply range_length.
Qed.

Lemma to_wf (cast : tensor -> tensor) (p : pyramid) : wf p -> wf (to cast p).
Proof.
  intros [Hs H1 H2 H3 H4 H5 Ha Hr].
  constructor; simpl; rewrite ?length_map; try assumption.
  - apply Forall_forall. intros row Hin. apply in_map_iff in Hin.
    destruct Hin as [row0 [<- Hin]]. rewrite length_map.
    exact (proj1 (Forall_forall _ _) Ha row0 Hin).
  - apply Forall_forall. intros row Hin. apply in_map_iff in Hin.
    destruct Hin as [row0 [<- Hin]]. rewrite length_map.
    exact (proj1 (Forall_forall _ _) Hr row0 Hin).
Qed.

Lemma build_pyramid_wf (shape : Z * Z) (ns o t : Z) (c d tf : bool) :
  wf (build_pyramid shape ns o t c d tf).
Proof.
  unfold build_pyramid. apply to_wf.
  match goal with
  | |- context [build_scales ?n ?o ?no ?c ?d ?Y ?YI ?s] =>
      pose proof (build_scales_lengths n o no c d Y YI s) as HL;
      pose proof (build_scales_rows n o no c d Y YI s) as HR
  end.
  simpl in HL, HR. destruct HL as (H1 & H2 & H3 & H4 & H5).
  destruct (HR (Forall_nil _) (Forall_nil _)) as [Ha Hr].
  constructor;
    cbv [scales num_scales num_orientations _himasks _lomasks _loindices
         _anglemasks _anglemasks_recon];
    try assumption; reflexivity.
Qed.

(** A pyramid the constructor returns is well formed. *)
Lemma init_wf (shape : Z * Z) (height : height_arg) (o : Z) (t : Q) (c d tf : bool)
    (w : list string) (p : pyramid) :
  __init__ shape height o t c d tf = (w, Ok p) -> wf p.
Proof.
  unfold __init__. intros H.
  apply bind_inv_ok in H. destruct H as (w1 & [] & w2 & _ & H & _).
  apply bind_inv_ok in H. destruct H as (w3 & ns & w4 & _ & H & _).
  apply bind_inv_ok in H. destruct H as (w5 & o' & w6 & _ & H & _).
  apply bind_inv_ok in H. destruct H as (w7 & t' & w8 & _ & H & _).
  apply bind_inv_ok in H. destruct H as (w9 & [] & w10 & _ & H & _).
  injection H as _ <-. apply build_pyramid_wf.
Qed.

(** The two sides of the branch on [height], for a shape with positive
    sides. *)
Lemma choose_num_scales_auto (H W : Z) :
  0 < H -> 0 < W ->
  choose_num_scales (H, W) Auto = ([], Ok (Z.log2 (Z.min H W) - 2)).
Proof.
  intros HH HW. unfold choose_num_scales. simpl.
  destruct (Z.ltb_spec 0 (Z.min H W)); [reflexivity|lia].
Qed.

Lemma choose_num_scales_too_high (H W h : Z) :
  0 < H -> 0 < W -> Z.log2 (Z.min H W) - 2 < h ->
  choose_num_scales (H, W) (Height h)
  = ([], Raise (height_error (Z.log2 (Z.min H W) - 2))).
Proof.
  intros HH HW Hh. unfold choose_num_scales, max_ht. simpl.
  destruct (Z.ltb_spec 0 (Z.min H W)); [|lia].
  destruct (Z.ltb_spec (Z.log2 (Z.min H W) - 2) h); [reflexivity|lia].
Qed.

Lemma check_grid_ok (H W : Z) : 0 < H -> 0 < W -> check_grid (H, W) = ([], Ok tt).
Proof.
  intros HH HW. unfold check_grid. simpl.
  destruct (Z.ltb_spec H (-1)); [lia|]. destruct (Z.ltb_spec W (-1)); [lia|].
  destruct (Z.ltb_spec H 0); [lia|]. destruct (Z.ltb_spec W 0); [lia|].
  reflexivity.
Qed.

Lemma check_grid_warnings (shape : Z * Z) : warnings (check_grid shape) = [].
Proof.
  unfold check_grid. destruct (_ || _); [reflexivity|].
  destruct (_ || _); reflexivity.
Qed.

(** C3: for a shape with positive sides, a height above
    floor(log2(min(H, W))) - 2 makes the constructor raise an exception,
    and with height='auto' the constructor succeeds and sets num_scales to
    floor(log2(min(H, W))) - 2. *)
Theorem init_height_validation (H W h order : Z) (twidth : Q) (c d tf : bool) :
  0 < H -> 0 < W ->
  (Z.log2 (Z.min H W) - 2 < h ->
   exists msg,
     outcome (__init__ (H, W) (Height h) order twidth c d tf)
     = Raise (Exception msg))
  /\ exists p,
       outcome (__init__ (H, W) Auto order twidth c d tf) = Ok p
       /\ num_scales p = Z.log2 (Z.min H W) - 2.
Proof.
  intros HH HW. split.
  - intros Hh. eexists. unfold __init__.
    rewrite outcome_bind.
    replace (outcome (when _ (warn odd_size_warning))) with (Ok tt)
      by (destruct (_ || _); reflexivity).
    rewrite outcome_bind, (choose_num_scales_too_high HH HW Hh).
    reflexivity.
  - unfold __init__. rewrite (choose_num_scales_auto HH HW).
    destruct (negb _ || negb _); destruct ((15 <? order) || (order <=? 0));
      destruct (Qle_bool twidth 0); simpl; rewrite (check_grid_ok HH HW); simpl;
      eexists; split; reflexivity.
Qed.


End Constructor.

Lemma sample_pyramid_wf : wf sample_pyramid.
Proof. apply build_pyramid_wf. Qed.

Lemma init_height_validation_witness :
  (exists msg,
     outcome (@__init__ sample_backend (16, 16) (Height 3) 3 1 false true false)
     = Raise (Exception msg))
  /\ exists p,
       outcome (@__init__ sample_backend (16, 16) Auto 3 1 false true false) = Ok p
       /\ num_scales p = 2.
Proof.
  destruct (@init_height_validation sample_backend 16 16 3 3 1 false true false)
    as [Hraise Hauto]; [lia|lia|].
  split; [apply Hraise; vm_compute; reflexivity|exact Hauto].
Defined.



(** ** forward *)

Section Forward.
Context {B : Backend}.

Lemma assign_sub (upd : list (key * tensor)) (d1 d2 : Dict.t tensor) :
  Dict.sub d1 d2 -> Dict.sub (Dict.assign upd d1) (Dict.assign upd d2).
Proof.
  unfold Dict.sub, Dict.assign.
  revert d1 d2. induction upd as [|[k0 v0] upd IH]; intros d1 d2 H; simpl.
  - exact H.
  - apply IH. intros k v. rewrite !get_set.
    destruct (key_eqb k k0); [trivial|apply H].
Qed.

Lemma assign_frame (upd : list (key * tensor)) (d : Dict.t tensor) (k : key) :
  Forall (fun kv => fst kv <> k) upd ->
  Dict.get (Dict.assign upd d) k = Dict.get d k.
Proof.
  unfold Dict.assign.
  revert d. induction upd as [|[k0 v0] upd IH]; intros d H; simpl.
  - reflexivity.
  - inversion H as [|? ? Hk Hrest]; subst. rewrite (IH _ Hrest), get_set.
    simpl in Hk. destruct (key_eqb_spec k k0); congruence.
Qed.

Lemma assign_keys (upd : list (key * tensor)) (d : Dict.t tensor) (k : key) :
  Dict.get (Dict.assign upd d) k <> None ->
  Dict.get d k <> None \/ In k (map fst upd).
Proof.
  unfold Dict.assign.
  revert d. induction upd as [|[k0 v0] upd IH]; intros d H; simpl in *.
  - left. exact H.
  - destruct (IH _ H) as [H1|H1]; [|right; right; exact H1].
    rewrite get_set in H1. destruct (key_eqb_spec k k0) as [->|];
      [right; left; reflexivity|left; exact H1].
Qed.

Lemma wf_index_himasks (p : pyramid) (i : Z) :
  wf p -> 0 <= i < num_scales p -> exists m, index (_himasks p) i = ([], Ok m).
Proof.
  intros Hwf Hi. destruct (@index_ok _ (_himasks p) i) as [m [Hm _]].
  - rewrite (wf_himasks Hwf). lia.
  - eauto.
Qed.

Lemma wf_index_lomasks (p : pyramid) (i : Z) :
  wf p -> 0 <= i < num_scales p -> exists m, index (_lomasks p) i = ([], Ok m).
Proof.
  intros Hwf Hi. destruct (@index_ok _ (_lomasks p) i) as [m [Hm _]].
  - rewrite (wf_lomasks Hwf). lia.
  - eauto.
Qed.

Lemma wf_index_loindices (p : pyramid) (i : Z) :
  wf p -> 0 <= i < num_scales p -> exists bx, index (_loindices p) i = ([], Ok bx).
Proof.
  intros Hwf Hi. destruct (@index_ok _ (_loindices p) i) as [m [Hm _]].
  - rewrite (wf_loindices Hwf). lia.
  - eauto.
Qed.

Lemma wf_index_anglemask (p : pyramid) (i b : Z) :
  wf p -> 0 <= i < num_scales p -> 0 <= b < num_orientations p ->
  exists row m, index (_anglemasks p) i = ([], Ok row) /\ index row b = ([], Ok m).
Proof.
  intros Hwf Hi Hb. destruct (@index_ok _ (_anglemasks p) i) as [row [Hrow Hnth]].
  - rewrite (wf_anglemasks Hwf). lia.
  - apply nth_error_In in Hnth.
    pose proof (proj1 (Forall_forall _ _) (wf_angle_rows Hwf) row Hnth) as Hlen.
    simpl in Hlen. destruct (@index_ok _ row b) as [m [Hm _]]; [lia|eauto].
Qed.

Lemma wf_index_anglemask_recon (p : pyramid) (i b : Z) :
  wf p -> 0 <= i < num_scales p -> 0 <= b < num_orientations p ->
  exists row m,
    index (_anglemasks_recon p) i = ([], Ok row) /\ index row b = ([], Ok m).
Proof.
  intros Hwf Hi Hb.
  destruct (@index_ok _ (_anglemasks_recon p) i) as [row [Hrow Hnth]].
  - rewrite (wf_anglemasks_recon Hwf). lia.
  - apply nth_error_In in Hnth.
    pose proof (proj1 (Forall_forall _ _) (wf_angle_rows_recon Hwf) row Hnth) as Hlen.
    simpl in Hlen. destruct (@index_ok _ row b) as [m [Hm _]]; [lia|eauto].
Qed.

Lemma keys_of_scale (i : Z) (upd : list (key * tensor)) (bs : list Z) :
  map fst upd = map (fun b => KTup i b) bs ->
  Forall (fun kv => exists b, fst kv = KTup i b) upd.
Proof.
  intros H. apply Forall_forall. intros kv Hin.
  apply (in_map fst) in Hin. rewrite H in Hin. apply in_map_iff in Hin.
  destruct Hin as [b [Hb _]]. exists b. auto.
Qed.

(** One band, run from two states that carry the same low-pass spectrum:
    the same assignment is made to both dictionaries. *)
Lemma forward_band_sim (p : pyramid) (i b : Z) (himask : tensor) (s1 s2 : fwd) :
  wf p -> 0 <= i < num_scales p -> 0 <= b < num_orientations p ->
  f_lodft s1 = f_lodft s2 ->
  exists v s1' s2',
    forward_band p i himask s1 b = ([], Ok s1')
    /\ forward_band p i himask s2 b = ([], Ok s2')
    /\ f_lodft s1' = f_lodft s1 /\ f_lodft s2' = f_lodft s2
    /\ f_coeffs s1' = Dict.set (f_coeffs s1) (KTup i b) v
    /\ f_coeffs s2' = Dict.set (f_coeffs s2) (KTup i b) v.
Proof.
  intros Hwf Hi Hb Hlo.
  destruct (wf_index_anglemask Hwf Hi Hb) as (row & m & Hrow & Hm).
  unfold forward_band. rewrite Hrow. simpl. rewrite Hm. simpl. rewrite Hlo.
  destruct (is_complex p); simpl; do 3 eexists; repeat split.
Qed.

(** The loop over the orientations, likewise. *)
Lemma forward_bands_sim (p : pyramid) (i : Z) (himask : tensor) (bs : list Z) :
  wf p -> 0 <= i < num_scales p ->
  (forall b, In b bs -> 0 <= b < num_orientations p) ->
  forall s1 s2, f_lodft s1 = f_lodft s2 ->
  exists upd s1' s2',
    foldM (forward_band p i himask) bs s1 = ([], Ok s1')
    /\ foldM (forward_band p i himask) bs s2 = ([], Ok s2')
    /\ f_lodft s1' = f_lodft s1 /\ f_lodft s2' = f_lodft s2
    /\ f_coeffs s1' = Dict.assign upd (f_coeffs s1)
    /\ f_coeffs s2' = Dict.assign upd (f_coeffs s2)
    /\ map fst upd = map (fun b => KTup i b) bs.
Proof.
  intros Hwf Hi. induction bs as [|b bs IH]; intros Hbs s1 s2 Hlo.
  - exists [], s1, s2. simpl. repeat split; constructor.
  - destruct (@forward_band_sim p i b himask s1 s2 Hwf Hi) as
      (v & t1 & t2 & E1 & E2 & L1 & L2 & C1 & C2);
      [apply Hbs; left; reflexivity|exact Hlo|].
    destruct (IH (fun b' H => Hbs b' (or_intror H)) t1 t2) as
      (upd & u1 & u2 & F1 & F2 & M1 & M2 & D1 & D2 & Hupd); [congruence|].
    exists ((KTup i b, v) :: upd), u1, u2. simpl.
    rewrite E1, E2. simpl. rewrite F1, F2. unfold Dict.assign in *. simpl.
    repeat split; try congruence.
Qed.

(** One scale, run with two selections from two states that carry the same
    low-pass spectrum: the spectra stay equal, and each run makes the
    assignments of this scale exactly when its selection contains it. *)
Lemma forward_scale_sim (p : pyramid) (sc1 sc2 : list sel) (i : Z) (s1 s2 : fwd) :
  wf p -> 0 <= i < num_scales p ->
  f_lodft s1 = f_lodft s2 ->
  exists upd s1' s2',
    forward_scale p sc1 s1 i = ([], Ok s1')
    /\ forward_scale p sc2 s2 i = ([], Ok s2')
    /\ f_lodft s1' = f_lodft s2'
    /\ f_coeffs s1' = (if sel_in (SInt i) sc1
                       then Dict.assign upd (f_coeffs s1) else f_coeffs s1)
    /\ f_coeffs s2' = (if sel_in (SInt i) sc2
                       then Dict.assign upd (f_coeffs s2) else f_coeffs s2)
    /\ map fst upd = map (fun b => KTup i b) (range (num_orientations p)).
Proof.
  intros Hwf Hi Hlo.
  destruct (wf_index_himasks Hwf Hi) as [hm Hhm].
  destruct (wf_index_lomasks Hwf Hi) as [lm Hlm].
  destruct (wf_index_loindices Hwf Hi) as [bx Hbx].
  destruct (@forward_bands_sim p i hm (range (num_orientations p)) Hwf Hi
              (fun b H => proj1 (in_range _ _) H) s1 s2 Hlo)
    as (upd & t1 & t2 & F1 & F2 & M1 & M2 & D1 & D2 & Hupd).
  exists upd. unfold forward_scale.
  destruct (sel_in (SInt i) sc1), (sel_in (SInt i) sc2), (downsample p);
    simpl; rewrite ?Hhm; simpl; rewrite ?F1, ?F2; simpl;
    rewrite ?Hlm, ?Hbx; simpl; rewrite ?Hlm; simpl;
    do 2 eexists; repeat split; simpl;
    rewrite ?M1, ?M2, ?Hlo; try reflexivity; assumption.
Qed.

(** The loop over the scales, run with a selection [sc1] and with a
    selection [sc2] that contains every scale: the dictionary of the first
    run stays contained in that of the second. *)
Lemma forward_scales_sim (p : pyramid) (sc1 sc2 : list sel) (scs : list Z) :
  wf p ->
  (forall i, In i scs -> 0 <= i < num_scales p) ->
  (forall i, In i scs -> sel_in (SInt i) sc2 = true) ->
  forall s1 s2,
    f_lodft s1 = f_lodft s2 ->
    Dict.sub (f_coeffs s1) (f_coeffs s2) ->
    (forall k, Dict.get (f_coeffs s1) k <> None ->
               k = KStr residual_highpass) ->
    exists s1' s2',
      foldM (forward_scale p sc1) scs s1 = ([], Ok s1')
      /\ foldM (forward_scale p sc2) scs s2 = ([], Ok s2')
      /\ f_lodft s1' = f_lodft s2'
      /\ Dict.sub (f_coeffs s1') (f_coeffs s2')
      /\ Dict.get (f_coeffs s1') (KStr residual_lowpass) = None.
Proof.
  intros Hwf Hrange Hall.
  (* the invariant: a key of the first dictionary is the high-pass residual
     or a band of a selected scale *)
  assert (Hgen : forall s1 s2,
    f_lodft s1 = f_lodft s2 ->
    Dict.sub (f_coeffs s1) (f_coeffs s2) ->
    (forall k, Dict.get (f_coeffs s1) k <> None ->
               k = KStr residual_highpass
               \/ exists l b, k = KTup l b /\ sel_in (SInt l) sc1 = true) ->
    exists s1' s2',
      foldM (forward_scale p sc1) scs s1 = ([], Ok s1')
      /\ foldM (forward_scale p sc2) scs s2 = ([], Ok s2')
      /\ f_lodft s1' = f_lodft s2'
      /\ Dict.sub (f_coeffs s1') (f_coeffs s2')
      /\ (forall k, Dict.get (f_coeffs s1') k <> None ->
                    k = KStr residual_highpass
                    \/ exists l b, k = KTup l b /\ sel_in (SInt l) sc1 = true)).
  { induction scs as [|i scs IH]; intros s1 s2 Hlo Hsub Hkeys.
    - exists s1, s2. simpl. auto.
    - destruct (@forward_scale_sim p sc1 sc2 i s1 s2 Hwf) as
        (upd & t1 & t2 & E1 & E2 & L & C1 & C2 & Hupd);
        [apply Hrange; left; reflexivity|exact Hlo|].
      rewrite (Hall i (or_introl eq_refl)) in C2.
      apply keys_of_scale in Hupd.
      destruct (IH (fun j H => Hrange j (or_intror H))
                   (fun j H => Hall j (or_intror H)) t1 t2 L) as
        (u1 & u2 & F1 & F2 & M & Hs & Hk).
      + rewrite C1, C2. destruct (sel_in (SInt i) sc1) eqn:Hsel.
        * apply assign_sub. exact Hsub.
        * intros k v Hget. rewrite assign_frame; [apply Hsub; exact Hget|].
          apply Forall_forall. intros kv Hin Hk.
          destruct (proj1 (Forall_forall _ _) Hupd kv Hin) as [b Hb].
          destruct (Hkeys k) as [->|(l & b' & -> & Hl)]; [congruence| |].
          -- rewrite Hb in Hk. discriminate.
          -- rewrite Hb in Hk. injection Hk as -> ->. congruence.
      + rewrite C1. destruct (sel_in (SInt i) sc1) eqn:Hsel; [|exact Hkeys].
        intros k Hget. apply assign_keys in Hget. destruct Hget as [Hget|Hin].
        * apply Hkeys. exact Hget.
        * right. apply in_map_iff in Hin. destruct Hin as [kv [<- Hin]].
          destruct (proj1 (Forall_forall _ _) Hupd kv Hin) as [b Hb].
          exists i, b. split; assumption.
      + exists u1, u2. simpl. rewrite E1, E2. simpl. rewrite F1, F2. auto. }
  intros s1 s2 Hlo Hsub Hkeys.
  destruct (Hgen s1 s2 Hlo Hsub) as (u1 & u2 & F1 & F2 & M & Hs & Hk).
  - intros k Hget. left. apply Hkeys. exact Hget.
  - exists u1, u2. repeat split; try assumption.
    destruct (Dict.get (f_coeffs u1) (KStr residual_lowpass)) eqn:E;
      [|reflexivity].
    destruct (Hk (KStr residual_lowpass)) as [Heq|(l & b & Heq & _)];
      [congruence|discriminate Heq|discriminate Heq].
Qed.

(** [max] and [min] in the assertion on the ints of [scales]. *)
Lemma max_of_lt (n : Z) (l : list Z) (a : Z) :
  a < n -> Forall (fun z => z < n) l -> max_of a l < n.
Proof.
  unfold max_of. revert a. induction l as [|z l IH]; intros a Ha Hl; simpl.
  - exact Ha.
  - inversion Hl; subst. apply IH; [lia|assumption].
Qed.

Lemma min_of_ge (l : list Z) (a : Z) :
  0 <= a -> Forall (fun z => 0 <= z) l -> 0 <= min_of a l.
Proof.
  unfold min_of. revert a. induction l as [|z l IH]; intros a Ha Hl; simpl.
  - exact Ha.
  - inversion Hl; subst. apply IH; [lia|assumption].
Qed.

Lemma max_of_ge (l : list Z) (a z : Z) : In z (a :: l) -> z <= max_of a l.
Proof.
  unfold max_of. intros Hin.
  assert (Hgen : forall l a, (z <= a \/ exists w, In w l /\ z <= w) ->
                             z <= fold_left Z.max l a).
  { clear. induction l as [|y l IH]; intros a H; simpl.
    - destruct H as [H|(w & [] & _)]. exact H.
    - apply IH. destruct H as [H|(w & [<-|Hw] & Hz)].
      + left. lia.
      + left. lia.
      + right. exists w. auto. }
  apply Hgen. destruct Hin as [->|Hin]; [left; lia|].
  right. exists z. split; [exact Hin|lia].
Qed.

Lemma min_of_le (l : list Z) (a z : Z) : In z (a :: l) -> min_of a l <= z.
Proof.
  unfold min_of. intros Hin.
  assert (Hgen : forall l a, (a <= z \/ exists w, In w l /\ w <= z) ->
                             fold_left Z.min l a <= z).
  { clear. induction l as [|y l IH]; intros a H; simpl.
    - destruct H as [H|(w & [] & _)]. exact H.
    - apply IH. destruct H as [H|(w & [<-|Hw] & Hz)].
      + left. lia.
      + left. lia.
      + right. exists w. auto. }
  apply Hgen. destruct Hin as [->|Hin]; [left; lia|].
  right. exists z. split; [exact Hin|lia].
Qed.

Lemma in_ints_of (i : Z) (l : list sel) : In i (ints_of l) <-> In (SInt i) l.
Proof.
  induction l as [|[j|s] l IH]; simpl.
  - tauto.
  - rewrite IH. split; intros [H|H]; auto; left; congruence.
  - rewrite IH. split; [auto|]. intros [H|H]; [discriminate|exact H].
Qed.

Lemma scales_assert_ok (p : pyramid) (sc : list sel) :
  Forall (valid_scale p) sc ->
  match ints_of sc with
  | [] => ret tt
  | a :: l => assert ((max_of a l <? num_scales p) && (0 <=? min_of a l))
                     scales_error
  end = ([], Ok tt).
Proof.
  intros Hv.
  assert (Hall : Forall (fun z => 0 <= z < num_scales p) (ints_of sc)).
  { apply Forall_forall. intros z Hz. apply in_ints_of in Hz.
    exact (proj1 (Forall_forall _ _) Hv _ Hz). }
  destruct (ints_of sc) as [|a l]; [reflexivity|].
  inversion Hall as [|? ? Ha Hl]; subst.
  assert (max_of a l < num_scales p).
  { apply max_of_lt; [lia|]. eapply Forall_impl; [|exact Hl]. simpl. lia. }
  assert (0 <= min_of a l).
  { apply min_of_ge; [lia|]. eapply Forall_impl; [|exact Hl]. simpl. lia. }
  unfold assert.
  destruct (Z.ltb_spec (max_of a l) (num_scales p)); [|lia].
  destruct (Z.leb_spec 0 (min_of a l)); [|lia]. reflexivity.
Qed.

Lemma wf_scales_valid (p : pyramid) : wf p -> Forall (valid_scale p) (scales p).
Proof.
  intros Hwf. rewrite (wf_scales Hwf). apply Forall_forall. intros s Hin.
  apply in_app_or in Hin. destruct Hin as [[<-|[]]|Hin]; [right; reflexivity|].
  apply in_app_or in Hin. destruct Hin as [Hin|[<-|[]]]; [|left; reflexivity].
  apply in_map_iff in Hin. destruct Hin as [i [<- Hin]].
  apply in_rev, in_range in Hin. exact Hin.
Qed.

Lemma wf_scales_all (p : pyramid) (i : Z) :
  wf p -> 0 <= i < num_scales p -> sel_in (SInt i) (scales p) = true.
Proof.
  intros Hwf Hi. apply sel_in_spec. rewrite (wf_scales Hwf).
  apply in_or_app. right. apply in_or_app. left.
  apply in_map. apply -> in_rev. apply in_range. exact Hi.
Qed.

Lemma wf_scales_residuals (p : pyramid) :
  wf p ->
  sel_in (SStr residual_highpass) (scales p) = true
  /\ sel_in (SStr residual_lowpass) (scales p) = true.
Proof.
  intros Hwf. rewrite (wf_scales Hwf). split; apply sel_in_spec.
  - apply in_or_app. right. apply in_or_app. right. left. reflexivity.
  - left. reflexivity.
Qed.

Lemma assert_true (msg : string) : assert true msg = ([], Ok tt).
Proof. reflexivity. Qed.

Lemma forward_sim (p : pyramid) (x : tensor) (s0 : sel) (S : list sel) :
  wf p -> ndim x = 4 -> Forall (valid_scale p) (s0 :: S) ->
  exists d1 p1 d2 p2,
    forward p x (ScalesList (s0 :: S)) = ([], Ok (d1, p1))
    /\ forward p x (ScalesList []) = ([], Ok (d2, p2))
    /\ Dict.sub d1 d2.
Proof.
  intros Hwf Hx HS. unfold forward.
  rewrite !(bind_ok_nil _ (eq_refl : ret _ = ([], Ok _))).
  cbv zeta. cbv iota.
  rewrite (bind_ok_nil _ (scales_assert_ok HS)).
  rewrite (bind_ok_nil _ (scales_assert_ok (wf_scales_valid Hwf))).
  rewrite Hx. simpl (4 =? 4). rewrite !(bind_ok_nil _ (assert_true _)).
  destruct (wf_scales_residuals Hwf) as [Hhp Hlp]. rewrite Hhp, Hlp.
  match goal with
  | |- context [foldM (forward_scale p (s0 :: S)) _ ?a] => set (i1 := a)
  end.
  match goal with
  | |- context [foldM (forward_scale p (scales p)) _ ?a] => set (i2 := a)
  end.
  destruct (@forward_scales_sim p (s0 :: S) (scales p) (range (num_scales p)) Hwf
              (fun i H => proj1 (in_range _ _) H)
              (fun i H => wf_scales_all Hwf (proj1 (in_range _ _) H)) i1 i2)
    as (u1 & u2 & F1 & F2 & M & Hs & Hk).
  - subst i1 i2. destruct (sel_in _ (s0 :: S)); reflexivity.
  - subst i1 i2. destruct (sel_in _ (s0 :: S)); simpl; intros k v H;
      [exact H|discriminate H].
  - subst i1 i2. destruct (sel_in _ (s0 :: S)); simpl; intros k H.
    + destruct (key_eqb_spec k (KStr residual_highpass)); congruence.
    + congruence.
  - rewrite (bind_ok_nil _ F1), (bind_ok_nil _ F2).
    destruct (sel_in (SStr residual_lowpass) (s0 :: S)); do 4 eexists;
      (split; [reflexivity|split; [reflexivity|]]); intros k v.
    + rewrite !get_set, M. destruct (key_eqb k (KStr residual_lowpass));
        [trivial|apply Hs].
    + rewrite get_set. intros Hget.
      destruct (key_eqb_spec k (KStr residual_lowpass)) as [->|];
        [congruence|apply Hs; exact Hget].
Qed.

(** C4: for a selection of valid scales and residual names, [forward]
    succeeds, and every key it returns has the value that the same key has
    in the result of [forward] with all scales ([scales=[]]). *)
Theorem forward_scales_consistent (p : pyramid) (x : tensor) (S : list sel) :
  wf p -> ndim x = 4 -> Forall (valid_scale p) S ->
  exists dS pS dall pall,
    forward p x (ScalesList S) = ([], Ok (dS, pS))
    /\ forward p x (ScalesList []) = ([], Ok (dall, pall))
    /\ forall k v, Dict.get dS k = Some v -> Dict.get dall k = Some v.
Proof.
  intros Hwf Hx HS. destruct S as [|s0 S].
  - destruct (@forward_sim p x (SStr residual_lowpass) [] Hwf Hx)
      as (d1 & p1 & d2 & p2 & _ & E2 & _).
    + constructor; [right; reflexivity|constructor].
    + exists d2, p2, d2, p2. auto.
  - destruct (@forward_sim p x s0 S Hwf Hx HS) as (d1 & p1 & d2 & p2 & E1 & E2 & H).
    exists d1, p1, d2, p2. auto.
Qed.

(** The loop over the scales when the selection contains none of them: no
    coefficient is written. *)
Lemma forward_scales_unselected (p : pyramid) (sc : list sel) (scs : list Z) :
  wf p ->
  (forall i, In i scs -> 0 <= i < num_scales p) ->
  (forall i, In i scs -> sel_in (SInt i) sc = false) ->
  forall s, exists s',
    foldM (forward_scale p sc) scs s = ([], Ok s')
    /\ f_coeffs s' = f_coeffs s.
Proof.
  intros Hwf Hrange Hnone. induction scs as [|i scs IH]; intros s.
  - exists s. split; reflexivity.
  - destruct (@forward_scale_sim p sc sc i s s Hwf) as
      (upd & t1 & t2 & E1 & _ & _ & C1 & _);
      [apply Hrange; left; reflexivity|reflexivity|].
    rewrite (Hnone i (or_introl eq_refl)) in C1.
    destruct (IH (fun j H => Hrange j (or_intror H))
                 (fun j H => Hnone j (or_intror H)) t1) as (u & F & C).
    exists u. simpl. rewrite E1. simpl. rewrite F. split; congruence.
Qed.

(** C5, at the failing input: an entry of [scales] that is a str other than
    the two residual names is not rejected; [forward] returns normally, here
    with an empty dictionary. *)
Theorem forward_unknown_name_ignored (p : pyramid) (x : tensor) (name : string) :
  wf p -> ndim x = 4 ->
  name <> residual_highpass -> name <> residual_lowpass ->
  exists p',
    forward p x (ScalesList [SStr name]) = ([], Ok (Dict.empty, p')).
Proof.
  intros Hwf Hx Hhp Hlp. unfold forward.
  rewrite !(bind_ok_nil _ (eq_refl : ret _ = ([], Ok _))).
  cbv zeta. cbv iota. simpl ints_of. cbv iota.
  rewrite !(bind_ok_nil _ (eq_refl : ret _ = ([], Ok _))).
  rewrite Hx. simpl (4 =? 4). rewrite !(bind_ok_nil _ (assert_true _)).
  assert (E1 : sel_in (SStr residual_highpass) [SStr name] = false).
  { apply not_true_is_false. intros H. apply sel_in_spec in H.
    destruct H as [H|[]]. congruence. }
  assert (E2 : sel_in (SStr residual_lowpass) [SStr name] = false).
  { apply not_true_is_false. intros H. apply sel_in_spec in H.
    destruct H as [H|[]]. congruence. }
  rewrite E1, E2.
  match goal with
  | |- context [foldM (forward_scale p [SStr name]) _ ?a] =>
      destruct (@forward_scales_unselected p [SStr name] (range (num_scales p))
                  Hwf (fun i H => proj1 (in_range _ _) H)
                  (fun i H => eq_refl) a) as (u & F & C)
  end.
  rewrite (bind_ok_nil _ F). simpl in C. rewrite C. eexists. reflexivity.
Qed.

(** The part of C5 that holds: an int outside [0, num_scales-1] among the
    entries of [scales] fails the assertion. *)
Lemma forward_out_of_range_raises (p : pyramid) (x : tensor) (S : list sel) (i : Z) :
  In (SInt i) S -> i < 0 \/ num_scales p <= i ->
  forward p x (ScalesList S) = ([], Raise (AssertionError scales_error)).
Proof.
  intros Hin Hi. unfold forward.
  rewrite !(bind_ok_nil _ (eq_refl : ret _ = ([], Ok _))).
  cbv zeta. destruct S as [|s0 S]; [destruct Hin|]. cbv iota.
  apply in_ints_of in Hin.
  destruct (ints_of (s0 :: S)) as [|a l]; [destruct Hin|].
  pose proof (max_of_ge Hin). pose proof (min_of_le Hin).
  assert (E : (max_of a l <? num_scales p) && (0 <=? min_of a l) = false).
  { destruct (Z.ltb_spec (max_of a l) (num_scales p)); [|reflexivity].
    destruct (Z.leb_spec 0 (min_of a l)); [lia|reflexivity]. }
  rewrite E. reflexivity.
Qed.

End Forward.

Lemma with_pyr_size_wf {B : Backend} (p : pyramid) (sz : Dict.t (Z * Z)) :
  wf p -> wf (with_pyr_size p sz).
Proof. intros [H0 H1 H2 H3 H4 H5 H6 H7]. constructor; assumption. Qed.

(** [forward] keeps the pyramid well formed. *)
Lemma forward_wf {B : Backend} (p p' : pyramid) (x : tensor) (arg : scales_arg)
    (w : list string) (d : Dict.t tensor) :
  wf p -> forward p x arg = (w, Ok (d, p')) -> wf p'.
Proof.
  intros Hwf H. unfold forward in H.
  apply bind_inv_ok in H. destruct H as (? & given & ? & _ & H & _).
  cbv zeta in H.
  apply bind_inv_ok in H. destruct H as (? & [] & ? & _ & H & _).
  apply bind_inv_ok in H. destruct H as (? & [] & ? & _ & H & _).
  apply bind_inv_ok in H. destruct H as (? & s & ? & _ & H & _).
  destruct (sel_in (SStr residual_lowpass) _); injection H as _ _ <-;
    apply with_pyr_size_wf; exact Hwf.
Qed.

(** *** The sizes recorded in [pyr_size] do not influence the coefficients *)

Section ForwardState.
Context {B : Backend}.

Lemma agree_bind {A A' C C'} (R : A -> A' -> Prop) (Q : C -> C' -> Prop)
    (m1 : M A) (m2 : M A') (f1 : A -> M C) (f2 : A' -> M C') :
  agree R m1 m2 ->
  (forall a a', R a a' -> agree Q (f1 a) (f2 a')) ->
  agree Q (bind m1 f1) (bind m2 f2).
Proof.
  destruct m1 as [w1 [a|e1]], m2 as [w2 [a'|e2]]; unfold agree; simpl;
    intros [Hw HR] Hf; try contradiction.
  - specialize (Hf a a' HR). destruct (f1 a) as [v1 r1], (f2 a') as [v2 r2].
    simpl in *. destruct Hf as [Hv Hr]. split; [congruence|exact Hr].
  - auto.
Qed.

Lemma agree_refl {A} (m : M A) : agree eq m m.
Proof. unfold agree. split; [reflexivity|]. destruct (outcome m); reflexivity. Qed.

Lemma agree_foldM {A S} (R : S -> S -> Prop) (f g : S -> A -> M S) (l : list A) :
  (forall s1 s2 a, R s1 s2 -> agree R (f s1 a) (g s2 a)) ->
  forall s1 s2, R s1 s2 -> agree R (foldM f l s1) (foldM g l s2).
Proof.
  intros Hstep. induction l as [|a l IH]; intros s1 s2 HR; simpl.
  - split; [reflexivity|exact HR].
  - eapply agree_bind; [apply Hstep; exact HR|]. intros t1 t2 Ht. apply IH, Ht.
Qed.

Lemma forward_band_sizes (p : pyramid) (i b : Z) (himask : tensor) (s1 s2 : fwd) :
  same_coeffs s1 s2 ->
  agree same_coeffs (forward_band p i himask s1 b) (forward_band p i himask s2 b).
Proof.
  intros [Hc Hl]. unfold forward_band.
  eapply agree_bind; [apply agree_refl|]. intros row ? <-.
  eapply agree_bind; [apply agree_refl|]. intros m ? <-.
  rewrite Hc, Hl. destruct (is_complex p); split; simpl; try split; reflexivity.
Qed.

Lemma forward_scale_sizes (p : pyramid) (sc : list sel) (i : Z) (s1 s2 : fwd) :
  same_coeffs s1 s2 ->
  agree same_coeffs (forward_scale p sc s1 i) (forward_scale p sc s2 i).
Proof.
  intros H. unfold forward_scale.
  eapply agree_bind with (R := same_coeffs).
  - destruct (sel_in (SInt i) sc); [|split; [reflexivity|exact H]].
    eapply agree_bind; [apply agree_refl|]. intros hm ? <-.
    apply agree_foldM; [|exact H]. intros t1 t2 b Ht.
    apply forward_band_sizes, Ht.
  - intros t1 t2 [Hc Hl]. destruct (downsample p); simpl.
    + eapply agree_bind; [apply agree_refl|]. intros bx ? <-.
      eapply agree_bind; [apply agree_refl|]. intros lm ? <-.
      rewrite Hc, Hl. split; simpl; try split; reflexivity.
    + eapply agree_bind; [apply agree_refl|]. intros lm ? <-.
      rewrite Hc, Hl. split; simpl; try split; reflexivity.
Qed.

(** [forward] issues the same warnings, raises the same exception and
    returns the same coefficients whatever [pyr_size] holds when it is
    called. *)
Lemma forward_pyr_size_irrelevant (p : pyramid) (sz : Dict.t (Z * Z))
    (x : tensor) (arg : scales_arg) :
  agree (fun r1 r2 => fst r1 = fst r2)
        (forward (with_pyr_size p sz) x arg) (forward p x arg).
Proof.
  unfold forward.
  eapply agree_bind; [apply agree_refl|]. intros given ? <-. cbv zeta.
  eapply agree_bind; [apply agree_refl|]. intros [] ? _.
  eapply agree_bind; [apply agree_refl|]. intros [] ? _.
  eapply agree_bind with (R := same_coeffs).
  - apply agree_foldM.
    + intros s1 s2 i Hs. apply (@forward_scale_sizes p _ i s1 s2 Hs).
    + destruct (sel_in (SStr residual_highpass) _); split; reflexivity.
  - intros s1 s2 [Hc Hl]. destruct (sel_in (SStr residual_lowpass) _);
      split; simpl; rewrite ?Hc, ?Hl; reflexivity.
Qed.

End ForwardState.

Lemma forward_scales_consistent_witness :
  exists dS pS dall pall,
    @forward sample_backend sample_pyramid 5
      (ScalesList [SInt 1; SStr residual_lowpass]) = ([], Ok (dS, pS))
    /\ @forward sample_backend sample_pyramid 5 (ScalesList [])
       = ([], Ok (dall, pall))
    /\ forall k v, Dict.get dS k = Some v -> Dict.get dall k = Some v.
Proof.
  apply (@forward_scales_consistent sample_backend sample_pyramid 5
           [SInt 1; SStr residual_lowpass]).
  - exact sample_pyramid_wf.
  - reflexivity.
  - repeat constructor; simpl; lia.
Defined.

Lemma forward_unknown_name_ignored_witness :
  exists p',
    @forward sample_backend sample_pyramid 5 (ScalesList [SStr "residual_midpass"])
    = ([], Ok (Dict.empty, p')).
Proof.
  apply (@forward_unknown_name_ignored sample_backend sample_pyramid 5
           "residual_midpass").
  - exact sample_pyramid_wf.
  - reflexivity.
  - discriminate.
  - discriminate.
Defined.

(** ** recon_pyr *)

Section Reconstruction.
Context {B : Backend}.

(** The check of one scale at the head of [recon_pyr]: it passes when every
    key of the scale is present, and raises otherwise. *)
Lemma check_bands_result (d : Dict.t tensor) (s : sel) (i : Z) (bs : list Z) :
  (foldM (fun _ b => if negb (Dict.mem (KTup i b) d)
                     then raise (missing_scale_error s) else ret tt) bs tt
   = ([], Ok tt)
   /\ forall b, In b bs -> Dict.get d (KTup i b) <> None)
  \/ foldM (fun _ b => if negb (Dict.mem (KTup i b) d)
                       then raise (missing_scale_error s) else ret tt) bs tt
     = ([], Raise (missing_scale_error s)).
Proof.
  induction bs as [|b bs IH]; simpl.
  - left. split; [reflexivity|intros b []].
  - destruct (Dict.mem (KTup i b) d) eqn:E; simpl.
    + destruct IH as [[IH Hall]|IH]; rewrite IH; simpl.
      * left. split; [reflexivity|]. intros b' [<-|Hb]; [|apply Hall; exact Hb].
        apply mem_get. exact E.
      * right. reflexivity.
    + right. reflexivity.
Qed.

Lemma check_scale_result (p : pyramid) (d : Dict.t tensor) (s : sel) :
  (check_scale p d s = ([], Ok tt)
   /\ match s with
      | SStr name => Dict.get d (KStr name) <> None
      | SInt i => forall b, 0 <= b < num_orientations p ->
                            Dict.get d (KTup i b) <> None
      end)
  \/ check_scale p d s = ([], Raise (missing_scale_error s)).
Proof.
  destruct s as [i|name]; simpl.
  - destruct (check_bands_result d (SInt i) i (range (num_orientations p)))
      as [[E Hall]|E]; [left|right; exact E].
    split; [exact E|]. intros b Hb. apply Hall, in_range, Hb.
  - destruct (Dict.mem (KStr name) d) eqn:E; simpl.
    + left. split; [reflexivity|]. apply mem_get. exact E.
    + right. reflexivity.
Qed.

Lemma check_scales_result (p : pyramid) (d : Dict.t tensor) (l : list sel) :
  (foldM (fun _ s => check_scale p d s) l tt = ([], Ok tt)
   /\ forall s, In s l ->
        match s with
        | SStr name => Dict.get d (KStr name) <> None
        | SInt i => forall b, 0 <= b < num_orientations p ->
                              Dict.get d (KTup i b) <> None
        end)
  \/ exists s, In s l
       /\ foldM (fun _ s => check_scale p d s) l tt
          = ([], Raise (missing_scale_error s)).
Proof.
  induction l as [|s l IH]; simpl.
  - left. split; [reflexivity|intros s []].
  - destruct (check_scale_result p d s) as [[E Hs]|E]; rewrite E; simpl.
    + destruct IH as [[IH Hall]|(s' & Hin & IH)]; rewrite IH; simpl.
      * left. split; [reflexivity|]. intros s' [<-|Hin]; [exact Hs|].
        apply Hall. exact Hin.
      * right. exists s'. auto.
    + right. exists s. auto.
Qed.

(** C7: when a key the pyramid defines is missing from [pyr_coeffs],
    [recon_pyr] raises the exception of its first check, for every
    [levels], [bands] and [twidth], before any warning is issued. *)
Theorem recon_pyr_missing_key (p : pyramid) (pyr_coeffs : Dict.t tensor)
    (k : key) (levels : levels_arg) (bands : bands_arg) (twidth : Z) :
  wf p -> defined_key p k -> Dict.get pyr_coeffs k = None ->
  exists s,
    recon_pyr p pyr_coeffs levels bands twidth
    = ([], Raise (missing_scale_error s)).
Proof.
  intros Hwf Hk Hnone. unfold recon_pyr.
  destruct (check_scales_result p pyr_coeffs (scales p))
    as [[_ Hall]|(s & _ & E)].
  - exfalso. destruct k as [name|i b]; simpl in Hk.
    + destruct (wf_scales_residuals Hwf) as [Hhp Hlp].
      apply sel_in_spec in Hhp, Hlp.
      destruct Hk as [->| ->];
        [apply (Hall _ Hhp)|apply (Hall _ Hlp)]; exact Hnone.
    + destruct Hk as [Hi Hb].
      pose proof (proj1 (sel_in_spec _ _) (wf_scales_all Hwf Hi)) as Hin.
      exact (Hall _ Hin b Hb Hnone).
  - exists s. rewrite E. reflexivity.
Qed.

(** [recon_pyr] never reads [twidth] after the check of its sign. *)
Lemma recon_pyr_outcome_twidth (p : pyramid) (pyr_coeffs : Dict.t tensor)
    (levels : levels_arg) (bands : bands_arg) (t1 t2 : Z) :
  outcome (recon_pyr p pyr_coeffs levels bands t1)
  = outcome (recon_pyr p pyr_coeffs levels bands t2).
Proof.
  unfold recon_pyr. rewrite !outcome_bind.
  destruct (outcome (foldM _ (scales p) tt)) as [[]|e]; [|reflexivity].
  cbv beta iota. destruct (t1 <=? 0), (t2 <=? 0); reflexivity.
Qed.

(** C10: two positive values of [twidth] give the same result, warnings
    included, whatever the dictionary and the selection. *)
Theorem recon_pyr_twidth_irrelevant (p : pyramid) (pyr_coeffs : Dict.t tensor)
    (levels : levels_arg) (bands : bands_arg) (t1 t2 : Z) :
  0 < t1 -> 0 < t2 ->
  recon_pyr p pyr_coeffs levels bands t1 = recon_pyr p pyr_coeffs levels bands t2.
Proof.
  intros H1 H2. unfold recon_pyr.
  destruct (Z.leb_spec t1 0); [lia|]. destruct (Z.leb_spec t2 0); [lia|].
  reflexivity.
Qed.

Lemma item_ok {V} (d : Dict.t V) (k : key) :
  Dict.get d k <> None -> exists v, item d k = ([], Ok v).
Proof.
  unfold item. destruct (Dict.get d k) as [v|]; [|congruence].
  intros _. exists v. reflexivity.
Qed.

Lemma check_bands_ok (d : Dict.t tensor) (s : sel) (i : Z) (bs : list Z) :
  (forall b, In b bs -> Dict.get d (KTup i b) <> None) ->
  foldM (fun _ b => if negb (Dict.mem (KTup i b) d)
                    then raise (missing_scale_error s) else ret tt) bs tt
  = ([], Ok tt).
Proof.
  induction bs as [|b bs IH]; intros H; simpl; [reflexivity|].
  rewrite (proj2 (mem_get d (KTup i b)) (H b (or_introl eq_refl))). simpl.
  rewrite IH; [reflexivity|]. intros b' Hb'. apply H. right. exact Hb'.
Qed.

Lemma check_scales_ok (p : pyramid) (d : Dict.t tensor) (l : list sel) :
  (forall k, defined_key p k -> Dict.get d k <> None) ->
  Forall (valid_scale p) l ->
  foldM (fun _ s => check_scale p d s) l tt = ([], Ok tt).
Proof.
  intros Hd Hl. induction Hl as [|s l Hs Hl IH]; simpl; [reflexivity|].
  assert (E : check_scale p d s = ([], Ok tt)).
  { destruct s as [i|name]; simpl in *.
    - apply check_bands_ok. intros b Hb. apply Hd. split; [exact Hs|].
      apply in_range. exact Hb.
    - rewrite (proj2 (mem_get d (KStr name)) (Hd (KStr name) Hs)). reflexivity. }
  rewrite E. simpl. rewrite IH. reflexivity.
Qed.

(** The loop over the orientations in [_recon_levels] returns. *)
Lemma recon_bands_ok (p : pyramid) (d : Dict.t tensor) (keys : list key)
    (scale : Z) (himask : tensor) (bs : list Z) :
  wf p -> (forall k, defined_key p k -> Dict.get d k <> None) ->
  0 <= scale < num_scales p ->
  (forall b, In b bs -> 0 <= b < num_orientations p) ->
  forall o, exists o',
    foldM (recon_band p d keys scale himask) bs o = ([], Ok o').
Proof.
  intros Hwf Hd Hs. induction bs as [|b bs IH]; intros Hbs o; simpl.
  - eexists. reflexivity.
  - assert (Hb : 0 <= b < num_orientations p) by (apply Hbs; left; reflexivity).
    assert (exists o1, recon_band p d keys scale himask o b = ([], Ok o1))
      as [o1 E].
    { unfold recon_band. destruct (key_in (KTup scale b) keys);
        [|eexists; reflexivity].
      destruct (wf_index_anglemask_recon Hwf Hs Hb) as (row & m & Hrow & Hm).
      destruct (@item_ok _ d (KTup scale b)) as [v Hv];
        [apply Hd; split; assumption|].
      rewrite Hrow. simpl. rewrite Hm. simpl. rewrite Hv. simpl.
      eexists. reflexivity. }
    rewrite E. simpl.
    destruct (IH (fun b' H => Hbs b' (or_intror H)) o1) as [o' E'].
    rewrite E'. eexists. reflexivity.
Qed.

(** The recursion of [_recon_levels] returns: from scale [scale], with the
    masks of the scales that remain, it reaches the base case. *)
Lemma recon_levels_ok (p : pyramid) (d : Dict.t tensor) (keys : list key) :
  wf p -> (forall k, defined_key p k -> Dict.get d k <> None) ->
  0 < num_orientations p ->
  forall rest scale,
    0 <= scale -> Z.of_nat (List.length rest) = num_scales p - scale ->
    exists r, _recon_levels p d keys rest scale = ([], Ok r).
Proof.
  intros Hwf Hd Hno. induction rest as [|himask rest IH]; intros scale H0 Hlen;
    simpl in *.
  - replace (scale =? num_scales p) with true by (symmetry; apply Z.eqb_eq; lia).
    destruct (@item_ok _ d (KStr residual_lowpass)) as [lo Hlo];
      [apply Hd; right; reflexivity|].
    rewrite Hlo. simpl. destruct (key_in _ keys); eexists; reflexivity.
  - replace (scale =? num_scales p) with false by (symmetry; apply Z.eqb_neq; lia).
    assert (Hs : 0 <= scale < num_scales p) by lia.
    destruct (@item_ok _ d (KTup scale 0)) as [c0 Hc0];
      [apply Hd; split; [exact Hs|lia]|].
    rewrite Hc0. simpl.
    destruct (@recon_bands_ok p d keys scale himask (range (num_orientations p))
                Hwf Hd Hs (fun b H => proj1 (in_range _ _) H)
                (zeros_like c0 (if is_complex p then complex64 else float64)))
      as [o E].
    rewrite E. simpl.
    destruct (wf_index_loindices Hwf Hs) as [bx Hbx].
    destruct (wf_index_lomasks Hwf Hs) as [lm Hlm].
    rewrite Hbx. simpl. rewrite Hlm. simpl.
    destruct (IH (scale + 1)) as [r Hr]; [lia|lia|].
    rewrite Hr. simpl. eexists. reflexivity.
Qed.

(** On a complete dictionary, once the selection has passed
    [_recon_keys], [recon_pyr] returns a tensor. *)
Lemma recon_pyr_returns (p : pyramid) (pyr_coeffs : Dict.t tensor)
    (levels : levels_arg) (bands : bands_arg) (twidth : Z)
    (w : list string) (keys : list key) :
  wf p -> 0 <= num_scales p -> 0 < num_orientations p ->
  (forall k, defined_key p k -> Dict.get pyr_coeffs k <> None) ->
  _recon_keys p levels bands None = (w, Ok keys) ->
  exists r, outcome (recon_pyr p pyr_coeffs levels bands twidth) = Ok r.
Proof.
  intros Hwf Hns Hno Hd Hkeys. unfold recon_pyr.
  rewrite (bind_ok_nil _ (@check_scales_ok p pyr_coeffs _ Hd (wf_scales_valid Hwf))).
  rewrite outcome_bind.
  replace (outcome (if twidth <=? 0 then _ else _))
    with (Ok (A:=Z) (if twidth <=? 0 then 1 else twidth))
    by (destruct (twidth <=? 0); reflexivity).
  rewrite outcome_bind, Hkeys. simpl outcome at 1. cbv iota. cbv zeta.
  destruct (@recon_levels_ok p pyr_coeffs keys Hwf Hd Hno (_himasks p) 0)
    as [r Hr]; [lia|rewrite (wf_himasks Hwf); lia|].
  rewrite (bind_ok_nil _ Hr).
  destruct (key_in (KStr residual_highpass) keys).
  - destruct (@item_ok _ pyr_coeffs (KStr residual_highpass)) as [hi Hhi];
      [apply Hd; left; reflexivity|].
    rewrite Hhi. simpl. eexists. reflexivity.
  - simpl. eexists. reflexivity.
Qed.

End Reconstruction.

Lemma recon_pyr_missing_key_witness :
  exists s,
    @recon_pyr sample_backend sample_pyramid
      [(KStr residual_highpass, 5); (KTup 0 0, 5); (KTup 0 1, 5);
       (KTup 1 0, 5); (KStr residual_lowpass, 5)]
      (LevelsList [SInt 0]) (BandsOne 0) 1
    = ([], Raise (missing_scale_error s)).
Proof.
  apply (@recon_pyr_missing_key sample_backend sample_pyramid _ (KTup 1 1)).
  - exact sample_pyramid_wf.
  - split; split; vm_compute; first [discriminate|reflexivity].
  - reflexivity.
Defined.

Lemma recon_pyr_twidth_irrelevant_witness :
  @recon_pyr sample_backend sample_pyramid
    [(KStr residual_highpass, 5); (KTup 0 0, 5); (KTup 0 1, 5);
     (KTup 1 0, 5); (KTup 1 1, 5); (KStr residual_lowpass, 5)]
    (LevelsOne (SStr "all")) BandsAll 1
  = @recon_pyr sample_backend sample_pyramid
      [(KStr residual_highpass, 5); (KTup 0 0, 5); (KTup 0 1, 5);
       (KTup 1 0, 5); (KTup 1 1, 5); (KStr residual_lowpass, 5)]
      (LevelsOne (SStr "all")) BandsAll 4.
Proof.
  apply (@recon_pyr_twidth_irrelevant sample_backend sample_pyramid); lia.
Defined.

(** ** steer_coeffs *)

Section Steering.
Context {B : Backend}.

Lemma in_enumerate {A} (l : list A) (j : Z) (a : A) :
  In (j, a) (enumerate l) -> 0 <= j < Z.of_nat (List.length l).
Proof.
  unfold enumerate. intros H. apply in_combine_l in H. apply in_range in H.
  exact H.
Qed.

Lemma enumerate_complete {A} (l : list A) (j : Z) :
  0 <= j < Z.of_nat (List.length l) -> exists a, In (j, a) (enumerate l).
Proof.
  intros Hj. unfold enumerate, range. rewrite Nat2Z.id.
  destruct (nth_error l (Z.to_nat j)) as [a|] eqn:E.
  - exists a. replace j with (Z.of_nat (Z.to_nat j)) by lia.
    assert (Hgen : forall (l : list A) n k a,
               nth_error l n = Some a ->
               In (Z.of_nat (k + n), a)
                  (combine (map Z.of_nat (seq k (List.length l))) l)).
    { clear. induction l as [|x l IH]; intros [|n] k a H; simpl in *;
        try discriminate.
      - injection H as ->. left. now rewrite Nat.add_0_r.
      - right. replace (k + S n)%nat with (S k + n)%nat by lia.
        apply IH. exact H. }
    apply (Hgen l (Z.to_nat j) 0%nat a E).
  - apply nth_error_None in E. lia.
Qed.

(** The keys the loop over the angles adds at scale [i]. *)
Lemma steer_angles_keys (p : pyramid) (d : Dict.t tensor) (e : bool) (i : Z)
    (basis : tensor) (jas : list (Z * angle_t)) :
  forall s w s',
    foldM (steer_angle p d e i basis) jas s = (w, Ok s') ->
    (forall k, Dict.get (resteered_coeffs s') k <> None <->
               Dict.get (resteered_coeffs s) k <> None
               \/ exists j a, In (j, a) jas /\ k = KTup i (num_orientations p + j))
    /\ (forall k, Dict.get (resteering_weights s') k <> None <->
                  Dict.get (resteering_weights s) k <> None
                  \/ exists j a, In (j, a) jas /\ k = KTup i j).
Proof.
  induction jas as [|[j a] jas IH]; intros s w s' H; simpl in H.
  - injection H as _ <-. split; intros k; split; auto;
      intros [H|(j & a & [] & _)]; exact H.
  - apply bind_inv_ok in H. destruct H as (w1 & s1 & w2 & E1 & E2 & _).
    unfold steer_angle in E1. destruct (steer basis a e) as [res steervect].
    apply bind_inv_ok in E1. destruct E1 as (? & c0 & ? & _ & E1 & _).
    injection E1 as _ <-.
    destruct (IH _ _ _ E2) as [Hc Hw]. simpl in Hc, Hw.
    split; intros k; [rewrite Hc|rewrite Hw]; rewrite get_set;
      (split; intros [H|(j' & a' & Hin & ->)]).
    + destruct (key_eqb_spec k (KTup i (num_orientations p + j))) as [Heq|Hne];
        [right; exists j, a; split; [left; reflexivity|exact Heq]|left; exact H].
    + right. exists j', a'. split; [right; exact Hin|reflexivity].
    + left. destruct (key_eqb k (KTup i (num_orientations p + j)));
        [discriminate|exact H].
    + destruct Hin as [[= <- <-]|Hin].
      * left. rewrite key_eqb_refl. discriminate.
      * right. exists j', a'. auto.
    + destruct (key_eqb_spec k (KTup i j)) as [Heq|Hne];
        [right; exists j, a; split; [left; reflexivity|exact Heq]|left; exact H].
    + right. exists j', a'. split; [right; exact Hin|reflexivity].
    + left. destruct (key_eqb k (KTup i j)); [discriminate|exact H].
    + destruct Hin as [[= <- <-]|Hin].
      * left. rewrite key_eqb_refl. discriminate.
      * right. exists j', a'. auto.
Qed.

(** The keys the loop over the scales adds. *)
Lemma steer_scales_keys (p : pyramid) (d : Dict.t tensor) (e : bool)
    (angles : list angle_t) (scs : list Z) :
  forall s w s',
    foldM (fun s i =>
             bands <- items d (map (fun j => KTup i j)
                                   (range (num_orientations p))) ;;
             foldM (steer_angle p d e i (stack_basis bands))
                   (enumerate angles) s) scs s = (w, Ok s') ->
    (forall k, Dict.get (resteered_coeffs s') k <> None <->
               Dict.get (resteered_coeffs s) k <> None
               \/ exists i j, In i scs /\ 0 <= j < Z.of_nat (List.length angles)
                              /\ k = KTup i (num_orientations p + j))
    /\ (forall k, Dict.get (resteering_weights s') k <> None <->
                  Dict.get (resteering_weights s) k <> None
                  \/ exists i j, In i scs /\ 0 <= j < Z.of_nat (List.length angles)
                                 /\ k = KTup i j).
Proof.
  induction scs as [|i scs IH]; intros s w s' H; simpl in H.
  - injection H as _ <-. split; intros k; split; auto;
      intros [H|(i & j & [] & _)]; exact H.
  - apply bind_inv_ok in H. destruct H as (w1 & s1 & w2 & E1 & E2 & _).
    apply bind_inv_ok in E1. destruct E1 as (? & bands & ? & _ & E1 & _).
    destruct (steer_angles_keys _ _ _ _ _ _ _ E1) as [Hc1 Hw1].
    destruct (IH _ _ _ E2) as [Hc Hw].
    split; intros k; [rewrite Hc, Hc1|rewrite Hw, Hw1]; split.
    + intros [[H|(j & a & Hin & ->)]|(i' & j & Hin & Hj & ->)].
      * left. exact H.
      * right. exists i, j. split; [left; reflexivity|].
        split; [eapply in_enumerate; exact Hin|reflexivity].
      * right. exists i', j. auto with datatypes.
    + intros [H|(i' & j & [<-|Hin] & Hj & ->)].
      * left. left. exact H.
      * left. right. destruct (enumerate_complete angles Hj) as [a Ha].
        exists j, a. auto.
      * right. exists i', j. auto.
    + intros [[H|(j & a & Hin & ->)]|(i' & j & Hin & Hj & ->)].
      * left. exact H.
      * right. exists i, j. split; [left; reflexivity|].
        split; [eapply in_enumerate; exact Hin|reflexivity].
      * right. exists i', j. auto with datatypes.
    + intros [H|(i' & j & [<-|Hin] & Hj & ->)].
      * left. left. exact H.
      * left. right. destruct (enumerate_complete angles Hj) as [a Ha].
        exists j, a. auto.
      * right. exists i', j. auto.
Qed.

(** The keys of the two dictionaries [steer_coeffs] returns. *)
Lemma steer_coeffs_key_sets (p : pyramid) (pyr_coeffs : Dict.t tensor)
    (angles : list angle_t) (even_phase : bool) (w : list string) (r : steered) :
  steer_coeffs p pyr_coeffs angles even_phase = (w, Ok r) ->
  (forall k, Dict.get (resteered_coeffs r) k <> None <->
             exists i j, 0 <= i < num_scales p
                         /\ 0 <= j < Z.of_nat (List.length angles)
                         /\ k = KTup i (num_orientations p + j))
  /\ (forall k, Dict.get (resteering_weights r) k <> None <->
                exists i j, 0 <= i < num_scales p
                            /\ 0 <= j < Z.of_nat (List.length angles)
                            /\ k = KTup i j).
Proof.
  intros H. unfold steer_coeffs in H.
  apply bind_inv_ok in H. destruct H as (? & c00 & ? & _ & H & _).
  apply bind_inv_ok in H. destruct H as (? & [] & ? & _ & H & _).
  destruct (steer_scales_keys _ _ _ _ _ _ H) as [Hc Hw]. simpl in Hc, Hw.
  split; intros k; [rewrite Hc|rewrite Hw]; split.
  - intros [H'|(i & j & Hi & Hj & ->)]; [congruence|].
    exists i, j. split; [apply in_range; exact Hi|auto].
  - intros (i & j & Hi & Hj & ->). right. exists i, j.
    split; [apply in_range; exact Hi|auto].
  - intros [H'|(i & j & Hi & Hj & ->)]; [congruence|].
    exists i, j. split; [apply in_range; exact Hi|auto].
  - intros (i & j & Hi & Hj & ->). right. exists i, j.
    split; [apply in_range; exact Hi|auto].
Qed.

(** C9, what the code does: when [steer_coeffs] returns, the coefficient
    steered to the j-th angle at scale i is stored under the key
    (i, num_orientations + j), its weights are stored under (i, j), and no
    key (i', j') with j' < num_orientations is a key of the coefficients. *)
Theorem steer_coeffs_keys (p : pyramid) (pyr_coeffs : Dict.t tensor)
    (angles : list angle_t) (even_phase : bool) (w : list string) (r : steered)
    (i j : Z) :
  steer_coeffs p pyr_coeffs angles even_phase = (w, Ok r) ->
  0 <= i < num_scales p -> 0 <= j < Z.of_nat (List.length angles) ->
  Dict.get (resteered_coeffs r) (KTup i (num_orientations p + j)) <> None
  /\ Dict.get (resteering_weights r) (KTup i j) <> None
  /\ forall i' j', j' < num_orientations p ->
                   Dict.get (resteered_coeffs r) (KTup i' j') = None.
Proof.
  intros H Hi Hj. destruct (steer_coeffs_key_sets _ _ _ _ H) as [Hc Hw].
  repeat split.
  - apply Hc. exists i, j. auto.
  - apply Hw. exists i, j. auto.
  - intros i' j' Hj'.
    destruct (Dict.get (resteered_coeffs r) (KTup i' j')) eqn:E; [|reflexivity].
    destruct (proj1 (Hc (KTup i' j'))) as (i0 & j0 & _ & Hj0 & Hk);
      [congruence|]. injection Hk as _ Hk. lia.
Qed.

End Steering.

Lemma steer_coeffs_keys_witness :
  exists r,
    @steer_coeffs sample_backend sample_pyramid
      [(KStr residual_highpass, 5); (KTup 0 0, 5); (KTup 0 1, 5);
       (KTup 1 0, 5); (KTup 1 1, 5); (KStr residual_lowpass, 5)]
      [3; 4] true = ([], Ok r)
    /\ Dict.get (resteered_coeffs r) (KTup 0 2) <> None
    /\ Dict.get (resteering_weights r) (KTup 0 0) <> None
    /\ forall i' j', j' < 2 -> Dict.get (resteered_coeffs r) (KTup i' j') = None.
Proof.
  eexists. split; [reflexivity|].
  apply (@steer_coeffs_keys sample_backend sample_pyramid
           [(KStr residual_highpass, 5); (KTup 0 0, 5); (KTup 0 1, 5);
            (KTup 1 0, 5); (KTup 1 1, 5); (KStr residual_lowpass, 5)]
           [3; 4] true [] _ 0 0 eq_refl);
    vm_compute; split; first [discriminate|reflexivity].
Defined.

(** ** The pyramid/tensor codec *)

(** C8, at the failing input: the coefficients of a real pyramid packed with
    split_complex=True are not recovered.  Packing leaves the real bands as
    they are, one channel each, and unpacking reads two channels for every
    band, so it runs out of channels and raises. *)
Theorem roundtrip_real_split_fails :
  Codec.convert_pyr_to_tensor real_coeffs true
  = ([], Ok (Codec.Real [sample_plane 10; sample_plane 20;
                         sample_plane 30; sample_plane 40],
             {| Codec.num_channels := 1; Codec.split_complex := true;
                Codec.pyr_keys := Dict.keys real_coeffs |}))
  /\ Codec.roundtrip real_coeffs true = ([], Raise RuntimeError).
Proof. split; reflexivity. Qed.

(** The other three combinations on the same pyramids are recovered
    exactly, with one image channel and with two; with two channels the
    real pyramid packed with split_complex=True fails in the same way.
    Where the packed tensor is complex, every residual that is read back is
    cast to real, with the warning of the cast. *)
Lemma roundtrip_samples :
  Codec.roundtrip real_coeffs false = ([], Ok real_coeffs)
  /\ Codec.roundtrip complex_coeffs false
     = (repeat Codec.cast_warning 2, Ok complex_coeffs)
  /\ Codec.roundtrip complex_coeffs true = ([], Ok complex_coeffs)
  /\ Codec.roundtrip real_coeffs2 false = ([], Ok real_coeffs2)
  /\ Codec.roundtrip complex_coeffs2 false
     = (repeat Codec.cast_warning 4, Ok complex_coeffs2)
  /\ Codec.roundtrip complex_coeffs2 true = ([], Ok complex_coeffs2)
  /\ Codec.roundtrip real_coeffs2 true = ([], Raise RuntimeError).
Proof. repeat split; reflexivity. Qed.

(** ** forward followed by recon_pyr *)

Section AnalysisSynthesis.
Context {B : Backend}.

Lemma assign_mono (upd : list (key * tensor)) (d : Dict.t tensor) (k : key) :
  Dict.get d k <> None -> Dict.get (Dict.assign upd d) k <> None.
Proof.
  unfold Dict.assign. revert d.
  induction upd as [|[k0 v0] upd IH]; intros d H; simpl; [exact H|].
  apply IH. rewrite get_set. destruct (key_eqb k k0); [discriminate|exact H].
Qed.

Lemma assign_mem (upd : list (key * tensor)) (d : Dict.t tensor) (k : key) :
  In k (map fst upd) -> Dict.get (Dict.assign upd d) k <> None.
Proof.
  revert d. induction upd as [|[k0 v0] upd IH]; intros d H; simpl in H;
    [destruct H|].
  destruct H as [->|H].
  - apply (@assign_mono upd (Dict.set d k v0) k).
    rewrite get_set, key_eqb_refl. discriminate.
  - apply (IH (Dict.set d k0 v0) H).
Qed.

(** With every scale selected, the loop of [forward] over the scales writes
    every band. *)
Lemma forward_scales_all_keys (p : pyramid) (scs : list Z) :
  wf p ->
  (forall i, In i scs -> 0 <= i < num_scales p) ->
  forall s, exists s',
    foldM (forward_scale p (scales p)) scs s = ([], Ok s')
    /\ (forall k, Dict.get (f_coeffs s) k <> None ->
                  Dict.get (f_coeffs s') k <> None)
    /\ (forall i b, In i scs -> 0 <= b < num_orientations p ->
                    Dict.get (f_coeffs s') (KTup i b) <> None).
Proof.
  intros Hwf. induction scs as [|i scs IH]; intros Hrange s.
  - exists s. split; [reflexivity|]. split; [auto|]. intros i b [].
  - assert (Hi : 0 <= i < num_scales p) by (apply Hrange; left; reflexivity).
    destruct (@forward_scale_sim _ p (scales p) (scales p) i s s Hwf Hi eq_refl)
      as (upd & t1 & t2 & E1 & _ & _ & C1 & _ & Hupd).
    rewrite (wf_scales_all Hwf Hi) in C1.
    destruct (IH (fun j H => Hrange j (or_intror H)) t1) as (u & F & Hmono & Hall).
    exists u. simpl. rewrite E1. simpl. rewrite F.
    split; [reflexivity|]. split.
    + intros k Hk. apply Hmono. rewrite C1. apply assign_mono. exact Hk.
    + intros i' b [<-|Hin] Hb; [|apply Hall; assumption].
      apply Hmono. rewrite C1. apply assign_mem. rewrite Hupd.
      apply in_map_iff. exists b. split; [reflexivity|].
      apply in_range. exact Hb.
Qed.

(** [forward] with scales=[] returns a dictionary with every key the
    pyramid defines. *)
Lemma forward_all_complete (p : pyramid) (x : tensor) :
  wf p -> ndim x = 4 ->
  exists d sz,
    forward p x (ScalesList []) = ([], Ok (d, with_pyr_size p sz))
    /\ forall k, defined_key p k -> Dict.get d k <> None.
Proof.
  intros Hwf Hx. unfold forward.
  rewrite !(bind_ok_nil _ (eq_refl : ret _ = ([], Ok _))).
  cbv zeta. cbv iota.
  rewrite (bind_ok_nil _ (scales_assert_ok (wf_scales_valid Hwf))).
  rewrite Hx. simpl (4 =? 4). rewrite !(bind_ok_nil _ (assert_true _)).
  destruct (wf_scales_residuals Hwf) as [Hhp Hlp]. rewrite Hhp, Hlp.
  match goal with
  | |- context [foldM (forward_scale p (scales p)) _ ?a] =>
      destruct (@forward_scales_all_keys p (range (num_scales p)) Hwf
                  (fun i H => proj1 (in_range _ _) H) a)
        as (u & F & Hmono & Hall)
  end.
  rewrite (bind_ok_nil _ F). do 2 eexists. split; [reflexivity|].
  intros [name|i b] Hk; simpl in Hk; rewrite get_set.
  - destruct (key_eqb (KStr name) (KStr residual_lowpass)) eqn:E;
      [discriminate|].
    destruct Hk as [->| ->]; [|rewrite key_eqb_refl in E; discriminate].
    apply Hmono. simpl. discriminate.
  - simpl. apply Hall; [apply in_range|]; apply Hk.
Qed.

Lemma recon_keys_all (p : pyramid) :
  exists keys, _recon_keys p (LevelsOne (SStr "all")) BandsAll None = ([], Ok keys).
Proof.
  unfold _recon_keys, _recon_levels_check, _recon_bands_check.
  rewrite !(bind_ok_nil _ (eq_refl : ret _ = ([], Ok _))).
  cbv zeta. eexists. reflexivity.
Qed.

(** The checks of [forward] and [recon_pyr] agree on the full dictionary:
    as far as the method's own tests go (the assertions of [forward], the
    key test, the range checks and the list accesses of [recon_pyr]),
    reconstruction from what [forward] returned is defined.  The kernel
    operations of [Backend] return on every input, so this says nothing
    about the errors torch raises on its own, such as for an input whose
    size is not that of the masks. *)
Lemma forward_recon_returns (p : pyramid) (x : tensor) (twidth : Z) :
  wf p -> 0 <= num_scales p -> 0 < num_orientations p -> ndim x = 4 ->
  exists d p' r,
    forward p x (ScalesList []) = ([], Ok (d, p'))
    /\ outcome (recon_pyr p' d (LevelsOne (SStr "all")) BandsAll twidth) = Ok r.
Proof.
  intros Hwf Hns Hno Hx.
  destruct (@forward_all_complete p x Hwf Hx) as (d & sz & E & Hd).
  destruct (recon_keys_all (with_pyr_size p sz)) as [keys Hkeys].
  destruct (@recon_pyr_returns _ (with_pyr_size p sz) d _ _ twidth _ _
              (@with_pyr_size_wf _ p sz Hwf) Hns Hno Hd Hkeys) as [r Hr].
  exists d, (with_pyr_size p sz), r. auto.
Qed.

End AnalysisSynthesis.

(** * Further properties *)

(** ** The constructor: warnings, accepted heights, bounding boxes *)

Section ConstructorMore.
Context {B : Backend}.

Lemma odd_test (a : Z) : negb (a mod 2 =? 0) = Z.odd a.
Proof.
  rewrite Zmod_even, <- Z.negb_even. destruct (Z.even a); reflexivity.
Qed.

Lemma choose_num_scales_warnings (shape : Z * Z) (height : height_arg) :
  warnings (choose_num_scales shape height) = [].
Proof.
  unfold choose_num_scales. destruct height as [|h];
    repeat match goal with
           | |- context [if ?b then _ else _] => destruct b
           end; reflexivity.
Qed.

(** The warnings of a construction that succeeds are exactly these, in this
    order: odd image size, order outside [1, 15], twidth not positive. *)
Theorem init_warnings (shape : Z * Z) (height : height_arg) (o : Z) (t : Q)
    (c d tf : bool) (w : list string) (p : pyramid) :
  __init__ shape height o t c d tf = (w, Ok p) ->
  w = (if Z.odd (fst shape) || Z.odd (snd shape) then [odd_size_warning] else [])
      ++ (if (15 <? o) || (o <=? 0) then [order_warning] else [])
      ++ (if Qle_bool t 0 then [twidth_warning] else []).
Proof.
  unfold __init__. rewrite !odd_test.
  pose proof (check_grid_warnings shape) as Hg.
  pose proof (choose_num_scales_warnings shape height) as Hn.
  destruct (check_grid shape) as [w2 r2]. simpl in Hg. subst w2.
  destruct (choose_num_scales shape height) as [w1 r1]. simpl in Hn. subst w1.
  destruct (Z.odd (fst shape) || Z.odd (snd shape)); simpl;
    destruct r1 as [ns|e1]; simpl; try discriminate;
    destruct ((15 <? o) || (o <=? 0)); simpl;
    destruct (Qle_bool t 0); simpl;
    destruct r2 as [[]|e2]; simpl; try discriminate;
    intros [= <- _]; reflexivity.
Qed.

(** The order of a constructed pyramid is the requested order brought
    into [1, 15], and there is one orientation more than the order. *)
Theorem init_order_clamped (shape : Z * Z) (height : height_arg) (o : Z) (t : Q)
    (c d tf : bool) (w : list string) (p : pyramid) :
  __init__ shape height o t c d tf = (w, Ok p) ->
  order p = Z.min (Z.max o 1) 15
  /\ 1 <= order p <= 15
  /\ num_orientations p = order p + 1
  /\ (1 <= o <= 15 -> order p = o).
Proof.
  unfold __init__. intros H.
  apply bind_inv_ok in H. destruct H as (? & [] & ? & _ & H & _).
  apply bind_inv_ok in H. destruct H as (? & ns & ? & _ & H & _).
  apply bind_inv_ok in H. destruct H as (? & o' & ? & Ho & H & _).
  apply bind_inv_ok in H. destruct H as (? & t' & ? & _ & H & _).
  apply bind_inv_ok in H. destruct H as (? & [] & ? & _ & H & _).
  injection H as _ <-.
  assert (Ho' : o' = Z.min (Z.max o 1) 15).
  { destruct (Z.ltb_spec 15 o), (Z.leb_spec o 0); simpl in Ho;
      injection Ho as _ <-; lia. }
  subst o'. cbv [order num_orientations build_pyramid to].
  repeat split; lia.
Qed.

Lemma int_of_fraction (t : Q) : (0 < t)%Q -> (t < 1)%Q -> int_of t = 0.
Proof.
  unfold Qlt, int_of. destruct t as [n m]. simpl. intros H0 H1.
  apply Z.quot_small. lia.
Qed.

(** A positive twidth goes through [int()] without a warning about it: the
    pyramid is the one for its integer part, so a twidth between 0 and 1
    gives the pyramid for twidth 0, not the one for twidth 1. *)
Theorem init_twidth_truncated (shape : Z * Z) (height : height_arg) (o : Z)
    (t : Q) (c d tf : bool) (w : list string) (p : pyramid) :
  (0 < t)%Q ->
  __init__ shape height o t c d tf = (w, Ok p) ->
  w = (if Z.odd (fst shape) || Z.odd (snd shape) then [odd_size_warning] else [])
      ++ (if (15 <? o) || (o <=? 0) then [order_warning] else [])
  /\ p = build_pyramid shape (num_scales p) (order p) (int_of t) c d tf
  /\ ((t < 1)%Q -> int_of t = 0).
Proof.
  intros Ht. unfold __init__. rewrite !odd_test.
  assert (Hg0 : Qle_bool t 0 = false).
  { destruct (Qle_bool t 0) eqn:E; [|reflexivity].
    apply Qle_bool_iff in E. exfalso. exact (Qlt_not_le _ _ Ht E). }
  rewrite Hg0.
  pose proof (check_grid_warnings shape) as Hg.
  pose proof (choose_num_scales_warnings shape height) as Hn.
  destruct (check_grid shape) as [w2 r2]. simpl in Hg. subst w2.
  destruct (choose_num_scales shape height) as [w1 r1]. simpl in Hn. subst w1.
  destruct (Z.odd (fst shape) || Z.odd (snd shape)); simpl;
    destruct r1 as [ns|e1]; simpl; try discriminate;
    destruct ((15 <? o) || (o <=? 0)); simpl;
    destruct r2 as [[]|e2]; simpl; try discriminate;
    intros [= <- <-];
    (split; [reflexivity|split; [reflexivity|apply int_of_fraction, Ht]]).
Qed.

(** A height that does not exceed the maximum is taken as it is, a height
    of zero or below included: the pyramid then has no scale at all, only
    the two residuals. *)
Theorem init_height_accepted (H W h o : Z) (t : Q) (c d tf : bool) :
  0 < H -> 0 < W -> h <= Z.log2 (Z.min H W) - 2 ->
  exists p,
    outcome (__init__ (H, W) (Height h) o t c d tf) = Ok p
    /\ num_scales p = h
    /\ List.length (_himasks p) = Z.to_nat h
    /\ (h <= 0 ->
        scales p = [SStr residual_lowpass; SStr residual_highpass]).
Proof.
  intros HH HW Hh.
  assert (E : choose_num_scales (H, W) (Height h) = ([], Ok h)).
  { unfold choose_num_scales, max_ht. simpl.
    destruct (Z.ltb_spec 0 (Z.min H W)); [|lia].
    destruct (Z.ltb_spec (Z.log2 (Z.min H W) - 2) h); [lia|reflexivity]. }
  unfold __init__. rewrite E.
  destruct (negb _ || negb _); destruct ((15 <? o) || (o <=? 0));
    destruct (Qle_bool t 0); simpl; rewrite (check_grid_ok HH HW); simpl;
    (eexists; split; [reflexivity|]);
    (split; [reflexivity|]);
    (split; [apply (wf_himasks (build_pyramid_wf _ _ _ _ _ _ _))|]);
    intros Hneg; cbv [scales build_pyramid to]; unfold range;
    replace (Z.to_nat h) with 0%nat by lia; reflexivity.
Qed.

Lemma ceil_half_up_eq (d : Z) : ceil_half_up d = d / 2 + 1.
Proof. unfold ceil_half_up. Z.to_euclidean_division_equations; lia. Qed.

Lemma ceil_half_down_eq (d : Z) : ceil_half_down d = (d + 1) / 2.
Proof. unfold ceil_half_down. Z.to_euclidean_division_equations; lia. Qed.

(** The side of the low-pass spectrum after one subsampling. *)
Lemma box_shape_lo_box (a b : Z) :
  0 <= a -> 0 <= b -> box_shape (a, b) (lo_box (a, b)) = (halve a, halve b).
Proof.
  intros Ha Hb.
  unfold box_shape, lo_box, slice_len, halve. cbn [fst snd].
  rewrite !ceil_half_up_eq, !ceil_half_down_eq.
  f_equal; Z.to_euclidean_division_equations; lia.
Qed.

(** The bounding box of a subsampling lies inside the spectrum it is cut
    from, keeps half of each side (rounded up), and keeps the centre
    sample [d / 2] of the spectrum at the centre of the box. *)
Theorem lo_box_geometry (d0 d1 : Z) :
  0 <= d0 -> 0 <= d1 ->
  let '((s0, s1), (e0, e1)) := lo_box (d0, d1) in
  0 <= s0 /\ e0 <= d0 /\ e0 - s0 = (d0 + 1) / 2
  /\ 0 <= s1 /\ e1 <= d1 /\ e1 - s1 = (d1 + 1) / 2
  /\ d0 / 2 - s0 = (e0 - s0) / 2
  /\ d1 / 2 - s1 = (e1 - s1) / 2.
Proof.
  intros H0 H1. unfold lo_box. cbn [fst snd].
  rewrite !ceil_half_up_eq, !ceil_half_down_eq.
  repeat split; Z.to_euclidean_division_equations; lia.
Qed.

Lemma halve_nonneg (a : Z) : 0 <= a -> 0 <= halve a.
Proof. intros. unfold halve. Z.to_euclidean_division_equations; lia. Qed.

Lemma build_scales_loindices (n : nat) (o no : Z) (c d : bool) (Y YI : lut)
    (s : build) :
  0 <= fst (b_lodft_shape s) -> 0 <= snd (b_lodft_shape s) ->
  b_loindices (build_scales n o no c d Y YI s)
  = b_loindices s
    ++ map (fun j => if d
                     then lo_box (halve_n j (fst (b_lodft_shape s)),
                                  halve_n j (snd (b_lodft_shape s)))
                     else ((0, 0), b_dims s))
           (seq 0 n).
Proof.
  revert s. induction n as [|n IH]; intros s H0 H1.
  - simpl. now rewrite app_nil_r.
  - cbn [build_scales]. rewrite IH.
    + change (seq 0 (S n)) with (0%nat :: seq 1 n).
      rewrite <- seq_shift, map_cons, map_map. unfold build_scale.
      destruct (b_lodft_shape s) as [a b] eqn:Es. simpl in H0, H1.
      destruct d; cbn [negb b_loindices b_lodft_shape b_dims fst snd];
        rewrite <- app_assoc; cbn [app]; f_equal; f_equal;
        try reflexivity.
      apply map_ext. intros j. rewrite (box_shape_lo_box H0 H1).
      cbn [fst snd]. unfold halve_n. now rewrite !Nat.iter_succ_r.
    + unfold build_scale. destruct (b_lodft_shape s) as [a b] eqn:Es.
      simpl in H0, H1.
      destruct d; cbn [negb b_lodft_shape]; [|simpl; exact H0].
      rewrite (box_shape_lo_box H0 H1). apply halve_nonneg, H0.
    + unfold build_scale. destruct (b_lodft_shape s) as [a b] eqn:Es.
      simpl in H0, H1.
      destruct d; cbn [negb b_lodft_shape]; [|simpl; exact H1].
      rewrite (box_shape_lo_box H0 H1). apply halve_nonneg, H1.
Qed.

(** The bounding box recorded for scale [i]: with downsampling, the box of
    the image shape halved [i] times; without, the whole image. *)
Theorem init_loindices (H W o : Z) (t : Q) (i : Z) (height : height_arg)
    (c d tf : bool)
    (w : list string) (p : pyramid) :
  0 < H -> 0 < W ->
  __init__ (H, W) height o t c d tf = (w, Ok p) ->
  0 <= i < num_scales p ->
  index (_loindices p) i
  = ([], Ok (if d
             then lo_box (halve_n (Z.to_nat i) H, halve_n (Z.to_nat i) W)
             else ((0, 0), (H, W)))).
Proof.
  intros HH HW Hinit Hi. unfold __init__ in Hinit.
  apply bind_inv_ok in Hinit. destruct Hinit as (? & [] & ? & _ & Hinit & _).
  apply bind_inv_ok in Hinit. destruct Hinit as (? & ns & ? & _ & Hinit & _).
  apply bind_inv_ok in Hinit. destruct Hinit as (? & o' & ? & _ & Hinit & _).
  apply bind_inv_ok in Hinit. destruct Hinit as (? & t' & ? & _ & Hinit & _).
  apply bind_inv_ok in Hinit. destruct Hinit as (? & [] & ? & _ & Hinit & _).
  injection Hinit as _ <-.
  cbv [num_scales build_pyramid to] in Hi.
  cbv [_loindices build_pyramid to].
  rewrite build_scales_loindices by (simpl; lia). simpl.
  destruct (@index_ok _ (map (fun j : nat =>
              if d then lo_box (halve_n j H, halve_n j W) else (0, 0, (H, W)))
              (seq 0 (Z.to_nat ns))) i) as [bx [E Hnth]].
  - rewrite length_map, length_seq. lia.
  - rewrite E. rewrite nth_error_map, nth_error_seq in Hnth.
    destruct (Nat.ltb_spec (Z.to_nat i) (Z.to_nat ns)); [|lia].
    simpl in Hnth. injection Hnth as <-. reflexivity.
Qed.

End ConstructorMore.

(** ** forward: errors, keys, recorded sizes *)

Section ForwardMore.
Context {B : Backend}.

(** An input that is not 4-d fails the second assertion of [forward], once
    the selection has passed the first. *)
Theorem forward_input_not_4d (p : pyramid) (x : tensor) (S : list sel) :
  wf p -> Forall (valid_scale p) S -> ndim x <> 4 ->
  forward p x (ScalesList S) = ([], Raise (AssertionError input_error)).
Proof.
  intros Hwf HS Hx. unfold forward.
  rewrite !(bind_ok_nil _ (eq_refl : ret _ = ([], Ok _))). cbv zeta.
  assert (Hsel : Forall (valid_scale p)
                   match S with [] => scales p | _ :: _ => S end).
  { destruct S; [apply wf_scales_valid, Hwf|exact HS]. }
  rewrite (bind_ok_nil _ (scales_assert_ok Hsel)).
  destruct (Z.eqb_spec (ndim x) 4); [contradiction|reflexivity].
Qed.

Lemma in_keys_get {V} (d : Dict.t V) (k : key) :
  In k (Dict.keys d) <-> Dict.get d k <> None.
Proof. rewrite <- mem_get. unfold Dict.mem. symmetry. apply key_in_spec. Qed.

Lemma keys_set_new {V} (d : Dict.t V) (k : key) (v : V) :
  ~ In k (Dict.keys d) -> Dict.keys (Dict.set d k v) = Dict.keys d ++ [k].
Proof.
  unfold Dict.keys. induction d as [|[k0 v0] d IH]; simpl; intros H.
  - reflexivity.
  - destruct (key_eqb_spec k k0) as [->|Hne]; [exfalso; auto|].
    simpl. f_equal. apply IH. auto.
Qed.

Lemma keys_assign_fresh {V} (upd : list (key * V)) (d : Dict.t V) :
  NoDup (map fst upd) ->
  (forall k, In k (map fst upd) -> ~ In k (Dict.keys d)) ->
  Dict.keys (Dict.assign upd d) = Dict.keys d ++ map fst upd.
Proof.
  unfold Dict.assign. revert d.
  induction upd as [|[k v] upd IH]; intros d Hnd Hfresh; simpl.
  - now rewrite app_nil_r.
  - inversion Hnd as [|? ? Hk Hnd']; subst.
    rewrite IH; [|exact Hnd'|].
    + rewrite keys_set_new by (apply Hfresh; left; reflexivity).
      now rewrite <- app_assoc.
    + intros k' Hin. rewrite keys_set_new by (apply Hfresh; left; reflexivity).
      intros Hin'. apply in_app_or in Hin'. destruct Hin' as [Hin'|[<-|[]]].
      * apply (Hfresh k'); [right; exact Hin|exact Hin'].
      * apply Hk. exact Hin.
Qed.

Lemma NoDup_map_injective {A C} (f : A -> C) (l : list A) :
  (forall a b, f a = f b -> a = b) -> NoDup l -> NoDup (map f l).
Proof.
  intros Hf. induction 1 as [|a l Ha Hl IH]; simpl; constructor; [|exact IH].
  intros Hin. apply in_map_iff in Hin. destruct Hin as [b [E Hb]].
  apply Hf in E. subst b. auto.
Qed.

Lemma NoDup_range (n : Z) : NoDup (range n).
Proof.
  unfold range. apply NoDup_map_injective; [|apply seq_NoDup].
  intros a b H. lia.
Qed.

Lemma NoDup_band_keys (i n : Z) : NoDup (map (fun b => KTup i b) (range n)).
Proof.
  apply NoDup_map_injective; [|apply NoDup_range].
  intros a b H. congruence.
Qed.

(** The keys the loop of [forward] over the scales appends. *)
Lemma forward_scales_keys (p : pyramid) (sc : list sel) (scs : list Z) :
  wf p -> NoDup scs ->
  (forall i, In i scs -> 0 <= i < num_scales p) ->
  forall s,
    (forall i b, In i scs -> ~ In (KTup i b) (Dict.keys (f_coeffs s))) ->
    exists s',
      foldM (forward_scale p sc) scs s = ([], Ok s')
      /\ Dict.keys (f_coeffs s')
         = Dict.keys (f_coeffs s)
           ++ flat_map (fun i => if sel_in (SInt i) sc
                                 then map (fun b => KTup i b)
                                          (range (num_orientations p))
                                 else []) scs.
Proof.
  intros Hwf. induction scs as [|i scs IH]; intros Hnd Hrange s Hfresh.
  - exists s. simpl. now rewrite app_nil_r.
  - inversion Hnd as [|? ? Hi' Hnd']; subst.
    assert (Hi : 0 <= i < num_scales p) by (apply Hrange; left; reflexivity).
    destruct (@forward_scale_sim _ p sc sc i s s Hwf Hi eq_refl)
      as (upd & t1 & _ & E1 & _ & _ & C1 & _ & Hupd).
    assert (Hk1 : Dict.keys (f_coeffs t1)
                  = Dict.keys (f_coeffs s)
                    ++ (if sel_in (SInt i) sc
                        then map (fun b => KTup i b) (range (num_orientations p))
                        else [])).
    { rewrite C1. destruct (sel_in (SInt i) sc); [|now rewrite app_nil_r].
      rewrite keys_assign_fresh, Hupd; [reflexivity| |].
      - rewrite Hupd. apply NoDup_band_keys.
      - rewrite Hupd. intros k Hin. apply in_map_iff in Hin.
        destruct Hin as [b [<- _]]. apply Hfresh. left. reflexivity. }
    destruct (IH Hnd' (fun j H => Hrange j (or_intror H)) t1) as (u & F & Hk).
    + intros j b Hj. rewrite Hk1. intros Hin. apply in_app_or in Hin.
      destruct Hin as [Hin|Hin]; [exact (Hfresh j b (or_intror Hj) Hin)|].
      destruct (sel_in (SInt i) sc); [|destruct Hin].
      apply in_map_iff in Hin. destruct Hin as [b' [[= <- _] _]]. auto.
    + exists u. simpl. rewrite E1. simpl. rewrite F. split; [reflexivity|].
      rewrite Hk, Hk1, <- app_assoc. reflexivity.
Qed.

(** [forward] on a valid selection: the keys of the result. *)
Lemma forward_keys_eq (p : pyramid) (x : tensor) (S : list sel) :
  wf p -> ndim x = 4 -> Forall (valid_scale p) S ->
  exists d sz,
    forward p x (ScalesList S) = ([], Ok (d, with_pyr_size p sz))
    /\ Dict.keys d = forward_keys p S.
Proof.
  intros Hwf Hx HS. unfold forward, forward_keys, selected.
  rewrite !(bind_ok_nil _ (eq_refl : ret _ = ([], Ok _))). cbv zeta.
  assert (Hsel : Forall (valid_scale p)
                   match S with [] => scales p | _ :: _ => S end).
  { destruct S; [apply wf_scales_valid, Hwf|exact HS]. }
  set (sc := match S with [] => scales p | _ :: _ => S end) in *.
  rewrite (bind_ok_nil _ (scales_assert_ok Hsel)).
  rewrite Hx. simpl (4 =? 4). rewrite !(bind_ok_nil _ (assert_true _)).
  match goal with
  | |- context [foldM (forward_scale p sc) _ ?a] =>
      destruct (@forward_scales_keys p sc (range (num_scales p)) Hwf
                  (NoDup_range _) (fun i H => proj1 (in_range _ _) H) a)
        as (u & F & Hk)
  end.
  { intros i b _. destruct (sel_in (SStr residual_highpass) sc); simpl;
      [intros [H|[]]; discriminate H|auto]. }
  rewrite (bind_ok_nil _ F).
  assert (Hlp : ~ In (KStr residual_lowpass) (Dict.keys (f_coeffs u))).
  { rewrite Hk. intros Hin. apply in_app_or in Hin. destruct Hin as [Hin|Hin].
    - destruct (sel_in (SStr residual_highpass) sc); simpl in Hin;
        [destruct Hin as [H|[]]; discriminate H|exact Hin].
    - apply in_flat_map in Hin. destruct Hin as (i & _ & Hin).
      destruct (sel_in (SInt i) sc); [|exact Hin].
      apply in_map_iff in Hin. destruct Hin as [b [H _]]. discriminate H. }
  destruct (sel_in (SStr residual_lowpass) sc); do 2 eexists;
    (split; [reflexivity|]).
  - rewrite (@keys_set_new _ _ _ _ Hlp), Hk, <- app_assoc.
    destruct (sel_in (SStr residual_highpass) sc); reflexivity.
  - rewrite Hk, app_nil_r.
    destruct (sel_in (SStr residual_highpass) sc); reflexivity.
Qed.

Lemma NoDup_forward_keys (p : pyramid) (S : list sel) : NoDup (forward_keys p S).
Proof.
  unfold forward_keys.
  assert (Hb : forall l, NoDup l ->
             NoDup (flat_map (fun i => if sel_in (SInt i) (selected p S)
                                       then map (fun b => KTup i b)
                                                (range (num_orientations p))
                                       else []) l)).
  { induction l as [|i l IH]; intros Hnd; simpl; [constructor|].
    inversion Hnd as [|? ? Hi Hnd']; subst.
    apply NoDup_app.
    - destruct (sel_in (SInt i) _); [apply NoDup_band_keys|constructor].
    - apply IH, Hnd'.
    - intros k Hk Hk'. apply in_flat_map in Hk'. destruct Hk' as (j & Hj & Hk').
      destruct (sel_in (SInt i) _); [|destruct Hk].
      destruct (sel_in (SInt j) _); [|destruct Hk'].
      apply in_map_iff in Hk, Hk'. destruct Hk as [b [<- _]].
      destruct Hk' as [b' [[= -> _] _]]. auto. }
  assert (Hband : forall k l,
             In k (flat_map (fun i => if sel_in (SInt i) (selected p S)
                                      then map (fun b => KTup i b)
                                               (range (num_orientations p))
                                      else []) l) ->
             exists i b, k = KTup i b).
  { intros k l Hin. apply in_flat_map in Hin. destruct Hin as (i & _ & Hin).
    destruct (sel_in (SInt i) _); [|destruct Hin].
    apply in_map_iff in Hin. destruct Hin as [b [<- _]]. eauto. }
  apply NoDup_app; [|apply NoDup_app|].
  - destruct (sel_in _ _); repeat constructor. intros [].
  - apply Hb, NoDup_range.
  - destruct (sel_in (SStr residual_lowpass) _); repeat constructor. intros [].
  - intros k Hk Hk'.
    destruct (sel_in (SStr residual_lowpass) _); [|destruct Hk'].
    destruct Hk' as [<-|[]].
    destruct (Hband _ _ Hk) as (i & b & H). discriminate H.
  - intros k Hk Hk'. destruct (sel_in (SStr residual_highpass) _); [|destruct Hk].
    destruct Hk as [<-|[]]. apply in_app_or in Hk'. destruct Hk' as [Hk'|Hk'].
    + destruct (Hband _ _ Hk') as (i & b & H). discriminate H.
    + destruct (sel_in (SStr residual_lowpass) _); [|destruct Hk'].
      destruct Hk' as [H|[]]. discriminate H.
Qed.

(** Whenever [forward] returns, the keys of its result are those of the
    selection: the assertions have passed, and the loop over the scales is
    the one of [forward_scales_keys]. *)
Lemma forward_keys_of_result (p p' : pyramid) (x : tensor) (S : list sel)
    (w : list string) (d : Dict.t tensor) :
  wf p -> forward p x (ScalesList S) = (w, Ok (d, p')) ->
  Dict.keys d = forward_keys p S.
Proof.
  intros Hwf H. unfold forward in H. unfold forward_keys, selected.
  apply bind_inv_ok in H. destruct H as (? & given & ? & Eg & H & _).
  injection Eg as _ <-. cbv zeta in H.
  set (sc := match S with [] => scales p | _ :: _ => S end) in *.
  apply bind_inv_ok in H. destruct H as (? & [] & ? & _ & H & _).
  apply bind_inv_ok in H. destruct H as (? & [] & ? & _ & H & _).
  apply bind_inv_ok in H. destruct H as (? & s & ? & F & H & _).
  match type of F with
  | foldM _ _ ?a = _ =>
      destruct (@forward_scales_keys p sc (range (num_scales p)) Hwf
                  (NoDup_range _) (fun i H => proj1 (in_range _ _) H) a)
        as (u & F' & Hk)
  end.
  { intros i b _. destruct (sel_in (SStr residual_highpass) sc); simpl;
      [intros [E|[]]; discriminate E|auto]. }
  rewrite F' in F. injection F as _ <-.
  assert (Hlp : ~ In (KStr residual_lowpass) (Dict.keys (f_coeffs u))).
  { rewrite Hk. intros Hin. apply in_app_or in Hin. destruct Hin as [Hin|Hin].
    - destruct (sel_in (SStr residual_highpass) sc); simpl in Hin;
        [destruct Hin as [E|[]]; discriminate E|exact Hin].
    - apply in_flat_map in Hin. destruct Hin as (i & _ & Hin).
      destruct (sel_in (SInt i) sc); [|exact Hin].
      apply in_map_iff in Hin. destruct Hin as [b [E _]]. discriminate E. }
  destruct (sel_in (SStr residual_lowpass) sc); injection H as _ <- _.
  - rewrite (@keys_set_new _ _ _ _ Hlp), Hk, <- app_assoc.
    destruct (sel_in (SStr residual_highpass) sc); reflexivity.
  - rewrite Hk, app_nil_r.
    destruct (sel_in (SStr residual_highpass) sc); reflexivity.
Qed.

(** Whenever [forward] returns, the dictionary holds the residuals that were
    asked for and, for every selected scale, all its orientations, and
    nothing else; the keys come without repetition, high-pass residual
    first, then the bands by scale and orientation, low-pass residual last.
    (The numeric kernel decides whether the call returns: torch raises when
    the input does not have the size of the masks.) *)
Theorem forward_returns_keys (p p' : pyramid) (x : tensor) (S : list sel)
    (w : list string) (d : Dict.t tensor) :
  wf p ->
  forward p x (ScalesList S) = (w, Ok (d, p')) ->
  Dict.keys d = forward_keys p S
  /\ NoDup (Dict.keys d)
  /\ (forall i b, Dict.get d (KTup i b) <> None <->
                  0 <= i < num_scales p /\ 0 <= b < num_orientations p
                  /\ In (SInt i) (selected p S))
  /\ (forall name, Dict.get d (KStr name) <> None <->
                   (name = residual_highpass \/ name = residual_lowpass)
                   /\ In (SStr name) (selected p S)).
Proof.
  intros Hwf E.
  pose proof (forward_keys_of_result _ _ Hwf E) as Hk.
  split; [exact Hk|].
  split; [rewrite Hk; apply NoDup_forward_keys|].
  split.
  - intros i b. rewrite <- in_keys_get, Hk. unfold forward_keys.
    rewrite !in_app_iff, in_flat_map. split.
    + intros [H|[(j & Hj & H)|H]].
      * destruct (sel_in _ _); [destruct H as [H|[]]; discriminate H|destruct H].
      * destruct (sel_in (SInt j) _) eqn:Es; [|destruct H].
        apply in_map_iff in H. destruct H as [b' [[= -> ->] Hb]].
        apply in_range in Hj, Hb. apply sel_in_spec in Es. auto.
      * destruct (sel_in _ _); [destruct H as [H|[]]; discriminate H|destruct H].
    + intros (Hi & Hb & Hs). right. left. exists i. split; [apply in_range, Hi|].
      rewrite (proj2 (sel_in_spec _ _) Hs). apply in_map. apply in_range, Hb.
  - intros name. rewrite <- in_keys_get, Hk. unfold forward_keys.
    rewrite !in_app_iff, in_flat_map. split.
    + intros [H|[(j & Hj & H)|H]].
      * destruct (sel_in _ _) eqn:Es; [|destruct H].
        destruct H as [[= <-]|[]]. apply sel_in_spec in Es. auto.
      * destruct (sel_in (SInt j) _); [|destruct H].
        apply in_map_iff in H. destruct H as [b' [H _]]. discriminate H.
      * destruct (sel_in _ _) eqn:Es; [|destruct H].
        destruct H as [[= <-]|[]]. apply sel_in_spec in Es. auto.
    + intros [[-> | ->] Hs]; apply sel_in_spec in Hs; rewrite Hs.
      * left. left. reflexivity.
      * right. right. left. reflexivity.
Qed.

End ForwardMore.

(** ** forward and the keys of the reconstruction *)

Section ForwardSizes.
Context {B : Backend}.

Lemma mem_set {V} (d : Dict.t V) (k k' : key) (v : V) :
  Dict.mem k' (Dict.set d k v) = true <-> k' = k \/ Dict.mem k' d = true.
Proof.
  rewrite !mem_get, get_set. destruct (key_eqb_spec k' k) as [->|Hne].
  - split; [auto|discriminate].
  - split; [auto|intros [H|H]; [contradiction|exact H]].
Qed.

Lemma foldM_inv {A S} (P : S -> Prop) (f : S -> A -> M S) (l : list A) :
  (forall s a w s', P s -> f s a = (w, Ok s') -> P s') ->
  forall s w s', P s -> foldM f l s = (w, Ok s') -> P s'.
Proof.
  intros Hstep. induction l as [|a l IH]; intros s w s' HP H; simpl in H.
  - injection H as _ <-. exact HP.
  - apply bind_inv_ok in H. destruct H as (w1 & t & w2 & E1 & E2 & _).
    eapply IH; [|exact E2]. eapply Hstep; [exact HP|exact E1].
Qed.

Lemma forward_band_cover (p : pyramid) (sz0 : Dict.t (Z * Z)) (i b : Z)
    (himask : tensor) (s s' : fwd) (w : list string) :
  sizes_cover sz0 s -> forward_band p i himask s b = (w, Ok s') ->
  sizes_cover sz0 s'.
Proof.
  intros Hc H. unfold forward_band in H.
  apply bind_inv_ok in H. destruct H as (? & row & ? & _ & H & _).
  apply bind_inv_ok in H. destruct H as (? & m & ? & _ & H & _).
  destruct (is_complex p); simpl in H; injection H as _ <-;
    intros k; cbn [f_coeffs f_size]; rewrite !mem_set;
    intros [[->|Hk]|Hk]; auto; right; apply Hc; auto.
Qed.

Lemma forward_scale_cover (p : pyramid) (sz0 : Dict.t (Z * Z)) (sc : list sel)
    (i : Z) (s s' : fwd) (w : list string) :
  sizes_cover sz0 s -> forward_scale p sc s i = (w, Ok s') ->
  sizes_cover sz0 s'.
Proof.
  intros Hc H. unfold forward_scale in H.
  apply bind_inv_ok in H. destruct H as (w1 & t & w2 & E1 & H & _).
  assert (Ht : sizes_cover sz0 t).
  { destruct (sel_in (SInt i) sc).
    - apply bind_inv_ok in E1. destruct E1 as (? & hm & ? & _ & E1 & _).
      revert E1. apply foldM_inv; [|exact Hc].
      intros u b w' u' Hu. apply forward_band_cover, Hu.
    - injection E1 as _ <-. exact Hc. }
  destruct (downsample p); simpl in H.
  - apply bind_inv_ok in H. destruct H as (? & bx & ? & _ & H & _).
    apply bind_inv_ok in H. destruct H as (? & lm & ? & _ & H & _).
    injection H as _ <-. exact Ht.
  - apply bind_inv_ok in H. destruct H as (? & lm & ? & _ & H & _).
    destruct (fft_norm p); injection H as _ <-; exact Ht.
Qed.

(** What a call of [forward] that returns has recorded. *)
Lemma forward_sizes_cover (p p' : pyramid) (x : tensor) (arg : scales_arg)
    (w : list string) (d : Dict.t tensor) :
  forward p x arg = (w, Ok (d, p')) ->
  p' = with_pyr_size p (pyr_size p')
  /\ forall k, Dict.mem k d = true \/ Dict.mem k (pyr_size p) = true ->
               Dict.mem k (pyr_size p') = true.
Proof.
  intros H. unfold forward in H.
  apply bind_inv_ok in H. destruct H as (? & given & ? & _ & H & _).
  cbv zeta in H.
  apply bind_inv_ok in H. destruct H as (? & [] & ? & _ & H & _).
  apply bind_inv_ok in H. destruct H as (? & [] & ? & _ & H & _).
  apply bind_inv_ok in H. destruct H as (? & s & ? & F & H & _).
  assert (Hs : sizes_cover (pyr_size p) s).
  { revert F. apply foldM_inv.
    - intros u i w' u' Hu. apply forward_scale_cover, Hu.
    - destruct (sel_in (SStr residual_highpass) _); intros k;
        cbn [f_coeffs f_size].
      + rewrite !mem_set. intros [[->|Hk]|Hk]; auto. discriminate Hk.
      + intros [Hk|Hk]; [discriminate Hk|exact Hk]. }
  destruct (sel_in (SStr residual_lowpass) _); injection H as _ <- <-;
    (split; [reflexivity|]); intros k; cbn [pyr_size with_pyr_size].
  - rewrite !mem_set. intros [[->|Hk]|Hk]; auto; right; apply Hs; auto.
  - apply Hs.
Qed.

(** [forward] changes nothing of the pyramid but [pyr_size], and [pyr_size]
    only grows: it keeps the keys it held and gains every key of the
    dictionary that is returned. *)
Theorem forward_records_sizes (p p' : pyramid) (x : tensor) (arg : scales_arg)
    (w : list string) (d : Dict.t tensor) :
  forward p x arg = (w, Ok (d, p')) ->
  p' = with_pyr_size p (pyr_size p')
  /\ (forall k, In k (Dict.keys d) -> In k (Dict.keys (pyr_size p')))
  /\ (forall k, In k (Dict.keys (pyr_size p)) -> In k (Dict.keys (pyr_size p'))).
Proof.
  intros H. destruct (forward_sizes_cover _ _ _ H) as [E Hc].
  split; [exact E|].
  split; intros k Hk; apply key_in_spec; apply key_in_spec in Hk;
    apply Hc; auto.
Qed.

Lemma flat_map_map {A C D} (f : C -> list D) (g : A -> C) (l : list A) :
  flat_map f (map g l) = flat_map (fun a => f (g a)) l.
Proof. induction l as [|a l IH]; simpl; [reflexivity|now rewrite IH]. Qed.

(** The keys [_recon_keys] gives for levels='all' and bands='all': every
    band, and a residual only when [pyr_size] holds it. *)
Lemma recon_keys_all_eq (p : pyramid) :
  _recon_keys p (LevelsOne (SStr "all")) BandsAll None
  = ([], Ok ((if Dict.mem (KStr residual_highpass) (pyr_size p)
              then [KStr residual_highpass] else [])
             ++ flat_map (fun i => map (fun b => KTup i b)
                                       (range (num_orientations p)))
                         (range (num_scales p))
             ++ (if Dict.mem (KStr residual_lowpass) (pyr_size p)
                 then [KStr residual_lowpass] else []))).
Proof.
  unfold _recon_keys, _recon_levels_check, _recon_bands_check.
  rewrite !(bind_ok_nil _ (eq_refl : ret _ = ([], Ok _))). cbv zeta.
  set (mid := map SInt (range (num_scales p))).
  assert (Hlp : sel_in (SStr residual_lowpass)
                  ([SStr residual_highpass] ++ mid ++ [SStr residual_lowpass])
                = true).
  { apply sel_in_spec. apply in_or_app. right. apply in_or_app. right.
    left. reflexivity. }
  assert (Hrm : removelast ([SStr residual_highpass] ++ mid
                            ++ [SStr residual_lowpass])
                = [SStr residual_highpass] ++ mid).
  { rewrite app_assoc. apply removelast_last. }
  assert (Hmid : flat_map (fun level => match level with
                                        | SStr name => [KStr name]
                                        | SInt l => map (fun band => KTup l band)
                                                      (range (num_orientations p))
                                        end) mid
                 = flat_map (fun i => map (fun b => KTup i b)
                                          (range (num_orientations p)))
                            (range (num_scales p))).
  { unfold mid. apply flat_map_map. }
  rewrite Hlp.
  destruct (Dict.mem (KStr residual_lowpass) (pyr_size p));
    destruct (Dict.mem (KStr residual_highpass) (pyr_size p));
    cbn [negb andb]; rewrite ?Hrm; cbn [sel_in existsb app sel_eqb orb];
    rewrite ?String.eqb_refl; cbn [orb negb andb tl];
    unfold ret; repeat f_equal;
    rewrite ?flat_map_app, ?Hmid; cbn [flat_map app];
    rewrite ?Hmid, ?flat_map_app, ?app_nil_r; cbn [flat_map app];
    rewrite ?Hmid; reflexivity.
Qed.

(** On a pyramid that [__init__] has just built, [pyr_size] is empty, so
    the keys of a reconstruction with levels='all' hold the bands only:
    both residuals are dropped. *)
Theorem recon_keys_fresh (shape : Z * Z) (height : height_arg) (o : Z) (t : Q)
    (c d tf : bool) (w : list string) (p : pyramid) :
  __init__ shape height o t c d tf = (w, Ok p) ->
  _recon_keys p (LevelsOne (SStr "all")) BandsAll None
  = ([], Ok (flat_map (fun i => map (fun b => KTup i b)
                                    (range (num_orientations p)))
                      (range (num_scales p)))).
Proof.
  intros H. rewrite recon_keys_all_eq.
  assert (E : pyr_size p = Dict.empty).
  { unfold __init__ in H.
    apply bind_inv_ok in H. destruct H as (? & [] & ? & _ & H & _).
    apply bind_inv_ok in H. destruct H as (? & ns & ? & _ & H & _).
    apply bind_inv_ok in H. destruct H as (? & o' & ? & _ & H & _).
    apply bind_inv_ok in H. destruct H as (? & t' & ? & _ & H & _).
    apply bind_inv_ok in H. destruct H as (? & [] & ? & _ & H & _).
    injection H as _ <-. reflexivity. }
  rewrite E. simpl. now rewrite app_nil_r.
Qed.

(** After [forward] has run with every scale, the keys of a reconstruction
    with levels='all' and bands='all' are the keys of the dictionary that
    [forward] returned, in the same order. *)
Theorem recon_keys_after_forward (p p' : pyramid) (x : tensor)
    (w : list string) (d : Dict.t tensor) :
  wf p -> ndim x = 4 ->
  forward p x (ScalesList []) = (w, Ok (d, p')) ->
  _recon_keys p' (LevelsOne (SStr "all")) BandsAll None = ([], Ok (Dict.keys d))
  /\ Dict.keys d = all_keys p.
Proof.
  intros Hwf Hx H.
  destruct (forward_keys_eq x Hwf Hx (Forall_nil _)) as (d0 & sz & E & Hk).
  rewrite E in H. injection H as _ <- <-.
  assert (Hall : forward_keys p [] = all_keys p).
  { unfold forward_keys, all_keys, selected.
    destruct (wf_scales_residuals Hwf) as [-> ->]. do 2 f_equal.
    rewrite !flat_map_concat_map. f_equal.
    apply map_ext_in. intros i Hi. apply in_range in Hi.
    now rewrite (wf_scales_all Hwf Hi). }
  split; [|congruence].
  rewrite recon_keys_all_eq.
  destruct (forward_sizes_cover _ _ _ E) as [_ Hc].
  assert (Hin : forall k, In k (all_keys p) ->
                  Dict.mem k (pyr_size (with_pyr_size p sz)) = true).
  { intros k Hin. apply Hc. left. apply key_in_spec. congruence. }
  rewrite (Hin (KStr residual_highpass)), (Hin (KStr residual_lowpass)).
  - rewrite Hk, Hall. reflexivity.
  - unfold all_keys. rewrite !in_app_iff. right. right. left. reflexivity.
  - unfold all_keys. left. reflexivity.
Qed.

End ForwardSizes.

(** ** recon_pyr: selections out of range, pyramids without scales *)

Section ReconstructionMore.
Context {B : Backend}.

Lemma forallb_false {A} (f : A -> bool) (l : list A) (a : A) :
  In a l -> f a = false -> forallb f l = false.
Proof.
  intros Hin Hf. destruct (forallb f l) eqn:E; [|reflexivity].
  rewrite forallb_forall in E. rewrite (E a Hin) in Hf. discriminate.
Qed.

Lemma in_levs_nums_of (i : Z) (l : list sel) :
  In (SInt i) l -> In i (levs_nums_of l).
Proof.
  induction l as [|[j|s] l IH]; simpl; intros H.
  - destruct H.
  - destruct H as [[= ->]|H]; [left; reflexivity|right; auto].
  - destruct H as [H|H]; [discriminate H|].
    destruct (isdigit s); [right|]; auto.
Qed.

(** A level outside [0, num_scales-1] in the list [levels] makes
    [recon_pyr] fail one of the two assertions of [_recon_levels_check],
    whatever [bands] is: the one on negative numbers when the list holds
    one, the one on the range otherwise. *)
Theorem recon_pyr_level_out_of_range (p : pyramid) (d : Dict.t tensor)
    (levels : list sel) (bands : bands_arg) (twidth i : Z) :
  wf p -> (forall k, defined_key p k -> Dict.get d k <> None) ->
  In (SInt i) levels -> i < 0 \/ num_scales p <= i ->
  outcome (recon_pyr p d (LevelsList levels) bands twidth)
  = Raise (AssertionError
             (if forallb (fun z => 0 <=? z) (levs_nums_of levels)
              then levels_range_error (num_scales p)
              else "Level numbers must be non-negative.")).
Proof.
  intros Hwf Hd Hin Hi. unfold recon_pyr.
  rewrite (bind_ok_nil _ (@check_scales_ok _ p d _ Hd (wf_scales_valid Hwf))).
  rewrite outcome_bind.
  replace (outcome (if twidth <=? 0 then _ else _))
    with (Ok (A:=Z) (if twidth <=? 0 then 1 else twidth))
    by (destruct (twidth <=? 0); reflexivity).
  unfold _recon_keys, _recon_levels_check. cbv zeta.
  rewrite !outcome_bind.
  apply in_levs_nums_of in Hin.
  destruct (forallb (fun z => 0 <=? z) (levs_nums_of levels)) eqn:E0.
  - rewrite forallb_forall in E0. pose proof (E0 i Hin) as Hi0.
    apply Z.leb_le in Hi0.
    rewrite (forallb_false (fun z => z <? num_scales p) _ _ Hin)
      by (apply Z.ltb_ge; lia).
    reflexivity.
  - reflexivity.
Qed.

(** A band outside [0, num_orientations-1] in the list [bands] makes
    [recon_pyr] fail one of the two assertions of [_recon_bands_check],
    once [levels] has passed its own check. *)
Theorem recon_pyr_band_out_of_range (p : pyramid) (d : Dict.t tensor)
    (levels : levels_arg) (bands : list Z) (twidth b : Z)
    (w : list string) (ls : list sel) :
  wf p -> (forall k, defined_key p k -> Dict.get d k <> None) ->
  _recon_levels_check p levels = (w, Ok ls) ->
  In b bands -> b < 0 \/ num_orientations p <= b ->
  outcome (recon_pyr p d levels (BandsList bands) twidth)
  = Raise (AssertionError
             (if forallb (fun z => 0 <=? z) bands
              then bands_range_error (num_orientations p)
              else "Error: band numbers must be larger than 0.")).
Proof.
  intros Hwf Hd Hls Hin Hb. unfold recon_pyr.
  rewrite (bind_ok_nil _ (@check_scales_ok _ p d _ Hd (wf_scales_valid Hwf))).
  rewrite outcome_bind.
  replace (outcome (if twidth <=? 0 then _ else _))
    with (Ok (A:=Z) (if twidth <=? 0 then 1 else twidth))
    by (destruct (twidth <=? 0); reflexivity).
  unfold _recon_keys. rewrite !outcome_bind, Hls. simpl outcome at 1.
  cbv iota. unfold _recon_bands_check. rewrite !outcome_bind.
  destruct (forallb (fun z => 0 <=? z) bands) eqn:E0.
  - rewrite forallb_forall in E0. pose proof (E0 b Hin) as Hb0.
    apply Z.leb_le in Hb0.
    rewrite (forallb_false (fun z => z <? num_orientations p) _ _ Hin)
      by (apply Z.ltb_ge; lia).
    reflexivity.
  - reflexivity.
Qed.

(** A pyramid with a negative number of scales (height='auto' on an image
    with a side below 4, or a negative height) cannot be inverted: the
    checks pass on a dictionary that holds the two residuals, and
    [_recon_levels] then reads [_himasks[0]] from an empty list. *)
Theorem recon_pyr_negative_height (p : pyramid) (d : Dict.t tensor)
    (levels : levels_arg) (bands : bands_arg) (twidth : Z)
    (w : list string) (keys : list key) :
  wf p -> num_scales p < 0 ->
  Dict.get d (KStr residual_highpass) <> None ->
  Dict.get d (KStr residual_lowpass) <> None ->
  _recon_keys p levels bands None = (w, Ok keys) ->
  outcome (recon_pyr p d levels bands twidth) = Raise IndexError.
Proof.
  intros Hwf Hns Hhp Hlp Hkeys. unfold recon_pyr.
  assert (Hd : forall k, defined_key p k -> Dict.get d k <> None).
  { intros [name|i b]; simpl; [intros [->| ->]; assumption|lia]. }
  rewrite (bind_ok_nil _ (@check_scales_ok _ p d _ Hd (wf_scales_valid Hwf))).
  rewrite outcome_bind.
  replace (outcome (if twidth <=? 0 then _ else _))
    with (Ok (A:=Z) (if twidth <=? 0 then 1 else twidth))
    by (destruct (twidth <=? 0); reflexivity).
  rewrite outcome_bind, Hkeys. simpl outcome at 1. cbv iota. cbv zeta.
  pose proof (wf_himasks Hwf) as Hlen.
  destruct (_himasks p) as [|hm rest]; [|simpl in Hlen; lia].
  rewrite outcome_bind. cbn [_recon_levels].
  destruct (Z.eqb_spec 0 (num_scales p)); [lia|]. reflexivity.
Qed.

End ReconstructionMore.

(** ** steer_coeffs: when it returns *)

Section SteeringMore.
Context {B : Backend}.

Lemma items_ok {V} (d : Dict.t V) (ks : list key) :
  (forall k, In k ks -> Dict.get d k <> None) ->
  exists vs, items d ks = ([], Ok vs).
Proof.
  induction ks as [|k ks IH]; intros H; simpl.
  - eexists. reflexivity.
  - destruct (@item_ok _ d k) as [v Hv]; [apply H; left; reflexivity|].
    destruct IH as [vs Hvs]; [intros k' Hk'; apply H; right; exact Hk'|].
    rewrite Hv. simpl. rewrite Hvs. eexists. reflexivity.
Qed.

Lemma items_inv {V} (d : Dict.t V) (ks : list key) (w : list string)
    (vs : list V) :
  items d ks = (w, Ok vs) -> forall k, In k ks -> Dict.get d k <> None.
Proof.
  revert w vs. induction ks as [|k ks IH]; intros w vs H k' Hin; simpl in *.
  - destruct Hin.
  - apply bind_inv_ok in H. destruct H as (? & v & ? & Ev & H & _).
    apply bind_inv_ok in H. destruct H as (? & vs' & ? & Evs & _ & _).
    destruct Hin as [<-|Hin]; [|exact (IH _ _ Evs _ Hin)].
    unfold item in Ev. destruct (Dict.get d k); [discriminate|discriminate Ev].
Qed.

Lemma steer_angles_ok (p : pyramid) (d : Dict.t tensor) (e : bool) (i : Z)
    (basis : tensor) (jas : list (Z * angle_t)) :
  Dict.get d (KTup i 0) <> None ->
  forall s, exists s', foldM (steer_angle p d e i basis) jas s = ([], Ok s').
Proof.
  intros H0. destruct (item_ok _ _ H0) as [c0 Hc0].
  induction jas as [|[j a] jas IH]; intros s; simpl.
  - eexists. reflexivity.
  - destruct (steer basis a e) as [res sv]. rewrite Hc0. simpl.
    match goal with |- context [foldM _ jas ?t] => destruct (IH t) as [s' E] end.
    rewrite E. eexists. reflexivity.
Qed.

(** [steer_coeffs] returns exactly when the dictionary holds every band of
    the pyramid and the band (0, 0) is there and real; it then returns
    without a warning.  The band (0, 0) is read even by a pyramid that has
    no scale. *)
Theorem steer_coeffs_returns_iff (p : pyramid) (pyr_coeffs : Dict.t tensor)
    (angles : list angle_t) (even_phase : bool) :
  0 < num_orientations p ->
  (exists w r, steer_coeffs p pyr_coeffs angles even_phase = (w, Ok r))
  <-> (exists c, Dict.get pyr_coeffs (KTup 0 0) = Some c
                 /\ is_complex_dtype c = false)
      /\ (forall i b, 0 <= i < num_scales p -> 0 <= b < num_orientations p ->
                      Dict.get pyr_coeffs (KTup i b) <> None)
      /\ warnings (steer_coeffs p pyr_coeffs angles even_phase) = [].
Proof.
  intros Hno.
  assert (Hback :
            (exists c, Dict.get pyr_coeffs (KTup 0 0) = Some c
                       /\ is_complex_dtype c = false) ->
            (forall i b, 0 <= i < num_scales p -> 0 <= b < num_orientations p ->
                         Dict.get pyr_coeffs (KTup i b) <> None) ->
            exists r, steer_coeffs p pyr_coeffs angles even_phase = ([], Ok r)).
  { intros (c & E0 & Ed) Hall. unfold steer_coeffs.
    assert (Hc : item pyr_coeffs (KTup 0 0) = ([], Ok c))
      by (unfold item; rewrite E0; reflexivity).
    rewrite (bind_ok_nil _ Hc), Ed. simpl negb.
    rewrite (bind_ok_nil _ (assert_true _)).
    assert (Hgen : forall scs,
               (forall i, In i scs -> 0 <= i < num_scales p) ->
               forall s, exists r,
                 foldM (fun s i =>
                          bands <- items pyr_coeffs
                                     (map (fun j => KTup i j)
                                          (range (num_orientations p))) ;;
                          foldM (steer_angle p pyr_coeffs even_phase i
                                   (stack_basis bands)) (enumerate angles) s)
                       scs s = ([], Ok r)).
    { induction scs as [|i scs IH]; intros Hscs s; simpl; [eexists; reflexivity|].
      assert (Hi : 0 <= i < num_scales p) by (apply Hscs; left; reflexivity).
      destruct (@items_ok _ pyr_coeffs
                  (map (fun j => KTup i j) (range (num_orientations p))))
        as [vs Hvs].
      { intros k Hk. apply in_map_iff in Hk. destruct Hk as [b [<- Hb]].
        apply Hall; [exact Hi|apply in_range, Hb]. }
      rewrite Hvs. simpl.
      assert (H0 : Dict.get pyr_coeffs (KTup i 0) <> None)
        by (apply Hall; [exact Hi|lia]).
      destruct (@steer_angles_ok p pyr_coeffs even_phase i (stack_basis vs)
                  (enumerate angles) H0 s) as [t Et].
      rewrite Et. simpl.
      destruct (IH (fun j H => Hscs j (or_intror H)) t) as [r Er].
      rewrite Er. eexists. reflexivity. }
    apply Hgen. intros i H. apply in_range, H. }
  split.
  - intros (w & r & H).
    assert (Hconds :
              (exists c, Dict.get pyr_coeffs (KTup 0 0) = Some c
                         /\ is_complex_dtype c = false)
              /\ (forall i b, 0 <= i < num_scales p ->
                              0 <= b < num_orientations p ->
                              Dict.get pyr_coeffs (KTup i b) <> None)).
    { unfold steer_coeffs in H.
      apply bind_inv_ok in H. destruct H as (w1 & c & ? & Ec & H & _).
      apply bind_inv_ok in H. destruct H as (w2 & [] & w3 & Ea & H & _).
      unfold item in Ec.
      destruct (Dict.get pyr_coeffs (KTup 0 0)) as [c'|] eqn:E0;
        [|discriminate Ec].
      injection Ec as _ <-.
      unfold assert in Ea. destruct (is_complex_dtype c') eqn:Ed;
        [discriminate Ea|].
      split; [exists c'; auto|].
      assert (Hgen : forall scs s w r,
                 foldM (fun s i =>
                          bands <- items pyr_coeffs
                                     (map (fun j => KTup i j)
                                          (range (num_orientations p))) ;;
                          foldM (steer_angle p pyr_coeffs even_phase i
                                   (stack_basis bands)) (enumerate angles) s)
                       scs s = (w, Ok r) ->
                 forall i b, In i scs -> 0 <= b < num_orientations p ->
                             Dict.get pyr_coeffs (KTup i b) <> None).
      { clear. induction scs as [|i0 scs IH]; intros s w r H i b Hi Hb;
          [destruct Hi|].
        simpl in H. apply bind_inv_ok in H.
        destruct H as (? & t & ? & E1 & E2 & _).
        destruct Hi as [->|Hi]; [|exact (IH _ _ _ E2 i b Hi Hb)].
        apply bind_inv_ok in E1. destruct E1 as (? & vs & ? & Ei & _ & _).
        apply (items_inv _ _ Ei). apply in_map. apply in_range, Hb. }
      intros i b Hi Hb. apply (Hgen _ _ _ _ H i b); [apply in_range, Hi|exact Hb]. }
    destruct Hconds as [H1 H2]. split; [exact H1|]. split; [exact H2|].
    destruct (Hback H1 H2) as [r' Hr']. rewrite Hr'. reflexivity.
  - intros (H1 & H2 & _). destruct (Hback H1 H2) as [r Hr]. exists [], r. exact Hr.
Qed.

End SteeringMore.

(** ** The codec: layout of the packed tensor and round trip *)

Section CodecLayout.
Import Codec.

Lemma shape_eqb_eq (a b : Z * Z * Z) : shape_eqb a b = true <-> a = b.
Proof.
  destruct a as [[a1 a2] a3], b as [[b1 b2] b3]. unfold shape_eqb.
  rewrite !andb_true_iff, !Z.eqb_eq. split.
  - intros [[-> ->] ->]. reflexivity.
  - intros [= -> -> ->]. auto.
Qed.

Lemma get_notin {V} (d : Dict.t V) (k : key) :
  ~ In k (Dict.keys d) -> Dict.get d k = None.
Proof.
  intros H. destruct (Dict.get d k) eqn:E; [|reflexivity].
  exfalso. apply H. apply in_keys_get. congruence.
Qed.

Lemma get_in_nodup {V} (d : Dict.t V) (k : key) (v : V) :
  NoDup (Dict.keys d) -> In (k, v) d -> Dict.get d k = Some v.
Proof.
  unfold Dict.keys. induction d as [|[k0 v0] d IH]; simpl; intros Hnd Hin;
    [destruct Hin|].
  inversion Hnd as [|? ? Hk Hnd']; subst. destruct Hin as [[= -> ->]|Hin].
  - now rewrite key_eqb_refl.
  - destruct (key_eqb_spec k k0) as [->|]; [|auto].
    exfalso. apply Hk. apply (in_map fst) in Hin. exact Hin.
Qed.

Lemma get_app_notin {V} (d1 d2 : Dict.t V) (k : key) :
  ~ In k (Dict.keys d1) -> Dict.get (d1 ++ d2) k = Dict.get d2 k.
Proof.
  unfold Dict.keys. induction d1 as [|[k0 v0] d1 IH]; simpl; intros H;
    [reflexivity|].
  destruct (key_eqb_spec k k0) as [->|]; [exfalso; auto|auto].
Qed.

Lemma set_app_notin {V} (d1 d2 : Dict.t V) (k : key) (v : V) :
  ~ In k (Dict.keys d1) -> Dict.set (d1 ++ d2) k v = d1 ++ Dict.set d2 k v.
Proof.
  unfold Dict.keys. induction d1 as [|[k0 v0] d1 IH]; simpl; intros H;
    [reflexivity|].
  destruct (key_eqb_spec k k0) as [->|]; [exfalso; auto|].
  f_equal. auto.
Qed.

Lemma flat_map_flat_map {A C D} (f : C -> list D) (g : A -> list C)
    (l : list A) :
  flat_map f (flat_map g l) = flat_map (fun a => flat_map f (g a)) l.
Proof.
  induction l as [|a l IH]; simpl; [reflexivity|].
  now rewrite flat_map_app, IH.
Qed.

(** *** Packing *)

Lemma imag_complex (x : tensor) :
  is_complex_dtype x = true -> imag x = ([], Ok (imag_part x)).
Proof. destruct x; [discriminate|reflexivity]. Qed.

Lemma pack_key_pieces (d : Dict.t tensor) (split : bool) (ch : Z)
    (r b : list tensor) (e : key * tensor) :
  Dict.get d (fst e) = Some (snd e) ->
  pack_key d split ch (r, b) (fst e)
  = ([], Ok (r ++ resid_pieces ch e, b ++ band_pieces split ch e)).
Proof.
  intros H. destruct e as [k v]. simpl in *.
  assert (E : item d k = ([], Ok v)) by (unfold item; rewrite H; reflexivity).
  unfold pack_key. rewrite (bind_ok_nil _ E).
  unfold resid_pieces, band_pieces, pieces, chan. simpl fst. simpl snd.
  destruct (is_residual k); [now rewrite app_nil_r|].
  destruct (is_complex_dtype (narrow v ch (ch + 1))) eqn:Ec; destruct split;
    simpl andb; cbv iota; rewrite ?app_nil_r; try reflexivity.
  rewrite (bind_ok_nil _ (imag_complex _ Ec)). reflexivity.
Qed.

Lemma pack_keys_fold (d : Dict.t tensor) (split : bool) (ch : Z) :
  forall es r b,
    (forall e, In e es -> Dict.get d (fst e) = Some (snd e)) ->
    foldM (pack_key d split ch) (map fst es) (r, b)
    = ([], Ok (r ++ flat_map (resid_pieces ch) es,
               b ++ flat_map (band_pieces split ch) es)).
Proof.
  induction es as [|e es IH]; intros r b H; simpl.
  - now rewrite !app_nil_r.
  - rewrite (bind_ok_nil _ (@pack_key_pieces d split ch r b e
                              (H e (or_introl eq_refl)))).
    rewrite IH by (intros e' He'; apply H; right; exact He').
    now rewrite <- !app_assoc.
Qed.

Lemma key_in_bands (bands : Dict.t tensor) (k : key) :
  (forall e, In e bands -> is_residual (fst e) = false) ->
  is_residual k = true -> key_in k (Dict.keys bands) = false.
Proof.
  intros Hb Hk. apply not_true_is_false. intros H.
  apply key_in_spec in H. apply in_map_iff in H.
  destruct H as [e [<- He]]. rewrite (Hb e He) in Hk. discriminate.
Qed.

Lemma bands_pieces (bands : Dict.t tensor) (split : bool) (ch : Z) :
  (forall e, In e bands -> is_residual (fst e) = false) ->
  flat_map (resid_pieces ch) bands = []
  /\ flat_map (band_pieces split ch) bands = flat_map (pieces split ch) bands.
Proof.
  induction bands as [|e bands IH]; intros H; simpl; [auto|].
  destruct IH as [IH1 IH2]; [intros e' He'; apply H; right; exact He'|].
  unfold resid_pieces at 1, band_pieces at 1.
  rewrite (H e (or_introl eq_refl)), IH1, IH2. auto.
Qed.

(** One image channel: the pieces of the entries, in the order of the
    dictionary. *)
Lemma pack_channel_row (split : bool) (hi : option tensor)
    (bands : Dict.t tensor) (lo : option tensor) (cl : list tensor) (ch : Z) :
  (forall e, In e bands -> is_residual (fst e) = false) ->
  NoDup (Dict.keys bands) ->
  pack_channel (assemble hi bands lo) split cl ch
  = ([], Ok (cl ++ flat_map (pieces split ch) (assemble hi bands lo))).
Proof.
  intros Hb Hnd.
  assert (Hhp : key_in (KStr residual_highpass) (Dict.keys bands) = false)
    by (apply key_in_bands; [exact Hb|reflexivity]).
  assert (Hlp : key_in (KStr residual_lowpass) (Dict.keys bands) = false)
    by (apply key_in_bands; [exact Hb|reflexivity]).
  assert (Hnd' : NoDup (Dict.keys (assemble hi bands lo))).
  { unfold assemble, Dict.keys. rewrite !map_app.
    assert (Hhp' : ~ In (KStr residual_highpass) (map fst bands))
      by (intros H; apply key_in_spec in H; unfold Dict.keys in Hhp; congruence).
    assert (Hlp' : ~ In (KStr residual_lowpass) (map fst bands))
      by (intros H; apply key_in_spec in H; unfold Dict.keys in Hlp; congruence).
    destruct hi, lo; simpl; rewrite ?app_nil_r.
    - constructor.
      + rewrite in_app_iff. intros [H|[H|[]]]; [auto|discriminate H].
      + apply NoDup_app; [exact Hnd|repeat constructor; intros []|].
        intros k Hk [<-|[]]. auto.
    - constructor; assumption.
    - apply NoDup_app; [exact Hnd|repeat constructor; intros []|].
      intros k Hk [<-|[]]. auto.
    - exact Hnd. }
  unfold pack_channel.
  assert (Hget : forall e, In e (assemble hi bands lo) ->
                   Dict.get (assemble hi bands lo) (fst e) = Some (snd e)).
  { intros [k v] He. apply get_in_nodup; assumption. }
  rewrite (bind_ok_nil _ (@pack_keys_fold _ split ch _ [] [] Hget)).
  destruct (@bands_pieces bands split ch Hb) as [E1 E2].
  unfold Dict.mem, Dict.keys, key_in, assemble.
  rewrite !map_app, !existsb_app, !flat_map_app, E1, E2.
  unfold Dict.keys, key_in in Hhp, Hlp. rewrite Hhp, Hlp.
  destruct hi, lo; simpl; rewrite ?app_nil_r; reflexivity.
Qed.

Lemma pack_channels (split : bool) (hi : option tensor)
    (bands : Dict.t tensor) (lo : option tensor) :
  (forall e, In e bands -> is_residual (fst e) = false) ->
  NoDup (Dict.keys bands) ->
  forall chs cl,
    foldM (pack_channel (assemble hi bands lo) split) chs cl
    = ([], Ok (cl ++ flat_map (fun ch => flat_map (pieces split ch)
                                           (assemble hi bands lo)) chs)).
Proof.
  intros Hb Hnd. induction chs as [|ch chs IH]; intros cl; simpl.
  - now rewrite app_nil_r.
  - rewrite (bind_ok_nil _ (@pack_channel_row split hi bands lo cl ch Hb Hnd)).
    rewrite IH. now rewrite <- app_assoc.
Qed.


(** *** Channels *)

Lemma chan_real (p : precision) (cs : list plane) (ch : Z) :
  0 <= ch ->
  chan ch (Float p cs) = Float p (firstn 1 (skipn (Z.to_nat ch) cs)).
Proof.
  intros H. unfold chan, narrow, slice.
  replace (Z.to_nat (ch + 1 - ch)) with 1%nat by lia. reflexivity.
Qed.

Lemma chan_cplx (p : precision) (cs : list (plane * plane)) (ch : Z) :
  0 <= ch ->
  chan ch (Complex p cs) = Complex p (firstn 1 (skipn (Z.to_nat ch) cs)).
Proof.
  intros H. unfold chan, narrow, slice.
  replace (Z.to_nat (ch + 1 - ch)) with 1%nat by lia. reflexivity.
Qed.

Lemma take_real (p : precision) (cs : list plane) (n : Z) :
  take n (Float p cs) = Float p (firstn (Z.to_nat n) cs).
Proof. unfold take, narrow, slice. rewrite Z.sub_0_r. reflexivity. Qed.

Lemma take_cplx (p : precision) (cs : list (plane * plane)) (n : Z) :
  take n (Complex p cs) = Complex p (firstn (Z.to_nat n) cs).
Proof. unfold take, narrow, slice. rewrite Z.sub_0_r. reflexivity. Qed.

Lemma firstn1_skipn {A} (l : list A) (n : nat) :
  (n < List.length l)%nat -> exists c, firstn 1 (skipn n l) = [c].
Proof.
  revert n. induction l as [|a l IH]; intros [|n] H; simpl in *; try lia.
  - exists a. reflexivity.
  - apply IH. lia.
Qed.

Lemma firstn_succ {A} (l : list A) (n : nat) :
  firstn n l ++ firstn 1 (skipn n l) = firstn (S n) l.
Proof.
  revert n. induction l as [|a l IH]; intros [|n]; simpl; try reflexivity.
  f_equal. apply IH.
Qed.

Lemma take_all (v : tensor) : take (size1 v) v = v.
Proof.
  destruct v as [p cs|p cs]; rewrite ?take_real, ?take_cplx; simpl;
    rewrite Nat2Z.id, firstn_all; reflexivity.
Qed.

Lemma forallb_firstn {A} (f : A -> bool) (l : list A) (n : nat) :
  forallb f l = true -> forallb f (firstn n l) = true.
Proof.
  revert n. induction l as [|a l IH]; intros [|n] H; simpl in *; auto.
  apply andb_true_iff in H. destruct H as [-> H]. simpl. auto.
Qed.

Lemma forallb_skipn {A} (f : A -> bool) (l : list A) (n : nat) :
  forallb f l = true -> forallb f (skipn n l) = true.
Proof.
  revert n. induction l as [|a l IH]; intros [|n] H; simpl in *; auto.
  apply andb_true_iff in H. destruct H as [_ H]. auto.
Qed.

Lemma uniform_narrow (sh : Z * Z * Z) (v : tensor) (lo hi : Z) :
  uniform sh v = true -> uniform sh (narrow v lo hi) = true.
Proof.
  destruct v as [p cs|p cs]; simpl; unfold slice; intros H;
    apply forallb_firstn, forallb_skipn, H.
Qed.

(** *** Concatenation *)

Lemma channel_shapes_uniform (sh : Z * Z * Z) (x : tensor) :
  uniform sh x = true -> Forall (eq sh) (channel_shapes x).
Proof.
  destruct x as [p cs|p cs]; simpl; rewrite forallb_forall; intros H;
    apply Forall_forall; intros s Hs; apply in_map_iff in Hs;
    destruct Hs as [c [<- Hc]]; specialize (H c Hc).
  - apply shape_eqb_eq, H.
  - apply andb_true_iff in H. apply shape_eqb_eq, H.
Qed.

Lemma cat_uniform (sh : Z * Z * Z) (xs : list tensor) :
  Forall (fun x => uniform sh x = true) xs ->
  flat_map channel_shapes xs <> [] ->
  cat xs = ([], Ok (if existsb is_complex_dtype xs
                    then Complex (promote xs) (flat_map as_complex xs)
                    else Float (promote xs) (flat_map real_channels xs))).
Proof.
  intros Hu Hne. unfold cat.
  assert (Hall : Forall (eq sh) (flat_map channel_shapes xs)).
  { clear Hne. induction Hu as [|x xs Hx Hxs IH]; simpl; [constructor|].
    apply Forall_app. split; [apply channel_shapes_uniform, Hx|exact IH]. }
  destruct (flat_map channel_shapes xs) as [|s ss]; [contradiction|].
  apply Forall_cons_iff in Hall. destruct Hall as [<- Hss].
  assert (E : forallb (shape_eqb sh) ss = true).
  { apply forallb_forall. intros y Hy. apply shape_eqb_eq.
    exact (proj1 (Forall_forall _ _) Hss y Hy). }
  rewrite E. destruct (existsb is_complex_dtype xs); reflexivity.
Qed.

(** Appending channel [ch] to the first [ch] channels. *)
Lemma cat_take_chan (sh : Z * Z * Z) (v : tensor) (ch : Z) :
  uniform sh v = true -> 0 < ch < size1 v ->
  cat [take ch v; chan ch v] = ([], Ok (take (ch + 1) v)).
Proof.
  intros Hu Hch.
  rewrite (@cat_uniform sh).
  - destruct v as [p cs|p cs]; rewrite ?take_real, ?take_cplx,
      ?chan_real, ?chan_cplx by lia;
      cbn [existsb is_complex_dtype orb flat_map real_channels as_complex
           promote fold_right precision_of];
      rewrite app_nil_r;
      replace (Z.to_nat (ch + 1)) with (S (Z.to_nat ch)) by lia;
      rewrite firstn_succ; destruct p; reflexivity.
  - repeat constructor; apply uniform_narrow, Hu.
  - destruct v as [p cs|p cs]; rewrite ?take_real, ?take_cplx; simpl in *;
      (destruct cs as [|c cs]; [simpl in Hch; lia|]);
      (destruct (Z.to_nat ch) eqn:E; [lia|]); simpl; discriminate.
Qed.


(** *** Unpacking *)

Lemma unpack_key_read (P : tensor) (split : bool) (i : Z)
    (acc : Dict.t tensor) (k : key) :
  unpack_key P split (i, acc) k
  = (bi <- read_band P split i k ;;
     let (band, i') := bi in
     match Dict.get acc k with
     | None => ret (i', Dict.set acc k band)
     | Some old => both <- cat [old; band] ;; ret (i', Dict.set acc k both)
     end).
Proof. reflexivity. Qed.

Section Unpack.
Variable X : Type.
Variable mk : list X -> tensor.
Variable cells : Z -> key * tensor -> list X.
Variable split : bool.
Variable d : Dict.t tensor.
Variable C : Z.
Variable sh : Z * Z * Z.
Variable quiet : list string -> Prop.
Hypothesis quiet_nil : quiet [].
Hypothesis quiet_app : forall a b, quiet a -> quiet b -> quiet (a ++ b).
Hypothesis Hnd : NoDup (Dict.keys d).
Hypothesis Hent : forall e, In e d -> size1 (snd e) = C /\ uniform sh (snd e) = true.
Hypothesis Hread : forall A rest ch e,
  In e d -> 0 <= ch < C ->
  exists w,
    quiet w
    /\ read_band (mk (A ++ cells ch e ++ rest)) split
         (Z.of_nat (List.length A)) (fst e)
       = (w, Ok (chan ch (snd e), Z.of_nat (List.length (A ++ cells ch e)))).

(** One pass over the keys: every entry gains its channel [ch]. *)
Lemma unpack_pass (ch : Z) (P : tensor) :
  0 <= ch < C ->
  forall es pre A rest,
    d = pre ++ es ->
    P = mk (A ++ flat_map (cells ch) es ++ rest) ->
    exists w,
      quiet w
      /\ foldM (unpack_key P split) (map fst es)
           (Z.of_nat (List.length A), partial ch pre es)
         = (w, Ok (Z.of_nat (List.length (A ++ flat_map (cells ch) es)),
                   partial ch (pre ++ es) [])).
Proof.
  intros Hch. induction es as [|e es IH]; intros pre A rest Hd HP.
  - exists []. split; [exact quiet_nil|].
    simpl. rewrite !app_nil_r. unfold partial. simpl.
    destruct (ch =? 0); reflexivity.
  - assert (Hin : In e d) by (rewrite Hd; apply in_or_app; right; left; reflexivity).
    assert (Hk : ~ In (fst e) (map fst pre)).
    { pose proof Hnd as H. unfold Dict.keys in H. rewrite Hd, map_app in H.
      simpl in H. apply NoDup_remove_2 in H. intros Hc. apply H.
      apply in_or_app. left. exact Hc. }
    destruct (Hent e Hin) as [Hsz Hu].
    assert (HP1 : P = mk (A ++ cells ch e ++ (flat_map (cells ch) es ++ rest))).
    { rewrite HP. simpl. now rewrite <- !app_assoc. }
    assert (HP2 : P = mk ((A ++ cells ch e) ++ flat_map (cells ch) es ++ rest)).
    { rewrite HP1. now rewrite <- !app_assoc. }
    assert (Hd2 : d = (pre ++ [e]) ++ es) by (rewrite Hd, <- app_assoc; reflexivity).
    destruct (@Hread A (flat_map (cells ch) es ++ rest) ch e Hin Hch)
      as (w1 & Hw1 & Hr).
    rewrite <- HP1 in Hr.
    assert (Hstep :
              match Dict.get (partial ch pre (e :: es)) (fst e) with
              | None => ret (Z.of_nat (List.length (A ++ cells ch e)),
                             Dict.set (partial ch pre (e :: es)) (fst e)
                               (chan ch (snd e)))
              | Some old =>
                  both <- cat [old; chan ch (snd e)] ;;
                  ret (Z.of_nat (List.length (A ++ cells ch e)),
                       Dict.set (partial ch pre (e :: es)) (fst e) both)
              end
              = ([], Ok (Z.of_nat (List.length (A ++ cells ch e)),
                         partial ch (pre ++ [e]) es))).
    { unfold partial.
      assert (Hk' : ~ In (fst e)
                      (Dict.keys (map (fun e0 => (fst e0, take (ch + 1) (snd e0)))
                                      pre))).
      { unfold Dict.keys. rewrite map_map. simpl. exact Hk. }
      rewrite (@get_app_notin _ _ _ _ Hk'), (@set_app_notin _ _ _ _ _ Hk').
      destruct (Z.eqb_spec ch 0) as [->|Hne].
      - simpl. rewrite map_app, <- app_assoc. reflexivity.
      - simpl. rewrite key_eqb_refl.
        rewrite (bind_ok_nil _ (@cat_take_chan sh (snd e) ch Hu
                                  ltac:(rewrite Hsz; lia))).
        rewrite (@set_app_notin _ _ _ _ _ Hk'). simpl.
        rewrite key_eqb_refl, map_app, <- app_assoc. reflexivity. }
    assert (E1 : unpack_key P split
                   (Z.of_nat (List.length A), partial ch pre (e :: es)) (fst e)
                 = (w1 ++ [], Ok (Z.of_nat (List.length (A ++ cells ch e)),
                                  partial ch (pre ++ [e]) es))).
    { rewrite unpack_key_read. apply (bind_ok_ok _ Hr). exact Hstep. }
    destruct (IH (pre ++ [e]) (A ++ cells ch e) rest Hd2 HP2) as (w2 & Hw2 & E2).
    exists ((w1 ++ []) ++ w2). split.
    { apply quiet_app; [apply quiet_app; [exact Hw1|exact quiet_nil]|exact Hw2]. }
    simpl map. cbn [foldM]. apply (bind_ok_ok _ E1).
    rewrite E2. simpl flat_map. rewrite <- !app_assoc. reflexivity.
Qed.

Lemma partial_next (ch : Z) :
  0 <= ch -> partial ch d [] = partial (ch + 1) [] d.
Proof.
  intros H. unfold partial. simpl.
  destruct (Z.eqb_spec (ch + 1) 0); [lia|].
  destruct (ch =? 0); now rewrite app_nil_r.
Qed.

(** All the passes: every entry gains all its channels. *)
Lemma unpack_passes (P : tensor) :
  forall n c0 A,
    Z.of_nat (c0 + n) <= C ->
    P = mk (A ++ flat_map (fun ch => flat_map (cells ch) d)
                          (map Z.of_nat (seq c0 n))) ->
    exists i w,
      quiet w
      /\ foldM (fun s _ => foldM (unpack_key P split) (Dict.keys d) s)
           (map Z.of_nat (seq c0 n))
           (Z.of_nat (List.length A), partial (Z.of_nat c0) [] d)
         = (w, Ok (i, partial (Z.of_nat (c0 + n)) [] d)).
Proof.
  induction n as [|n IH]; intros c0 A Hc HP.
  - simpl. rewrite Nat.add_0_r. exists (Z.of_nat (List.length A)), [].
    split; [exact quiet_nil|reflexivity].
  - simpl seq. simpl map. cbn [foldM].
    assert (Hch : 0 <= Z.of_nat c0 < C) by lia.
    simpl in HP.
    unfold Dict.keys at 1.
    destruct (@unpack_pass (Z.of_nat c0) P Hch d [] A _ eq_refl HP)
      as (w1 & Hw1 & E1).
    simpl app in E1. rewrite partial_next in E1 by lia.
    replace (Z.of_nat c0 + 1) with (Z.of_nat (S c0)) in E1 by lia.
    destruct (IH (S c0) (A ++ flat_map (cells (Z.of_nat c0)) d)) as (i & w2 & Hw2 & Hi).
    + lia.
    + rewrite HP, <- app_assoc. reflexivity.
    + exists i, (w1 ++ w2). split; [apply quiet_app; assumption|].
      apply (bind_ok_ok _ E1). rewrite Hi. do 3 f_equal. f_equal. lia.
Qed.

End Unpack.

Lemma singleton_chan_real (p : precision) (cs : list plane) (ch : Z) :
  0 <= ch < Z.of_nat (List.length cs) ->
  exists c, chan ch (Float p cs) = Float p [c].
Proof.
  intros H. rewrite chan_real by lia.
  destruct (@firstn1_skipn _ cs (Z.to_nat ch)) as [c Hc]; [lia|].
  exists c. now rewrite Hc.
Qed.

Lemma singleton_chan_cplx (p : precision) (cs : list (plane * plane)) (ch : Z) :
  0 <= ch < Z.of_nat (List.length cs) ->
  exists c, chan ch (Complex p cs) = Complex p [c].
Proof.
  intros H. rewrite chan_cplx by lia.
  destruct (@firstn1_skipn _ cs (Z.to_nat ch)) as [c Hc]; [lia|].
  exists c. now rewrite Hc.
Qed.

Lemma nth_error_middle {A} (l1 l2 : list A) (a : A) :
  nth_error (l1 ++ a :: l2) (Z.to_nat (Z.of_nat (List.length l1))) = Some a.
Proof.
  rewrite Nat2Z.id, nth_error_app2 by lia. now rewrite Nat.sub_diag.
Qed.

Lemma slice_middle {A} (l1 l2 : list A) (a b : A) :
  slice (l1 ++ [a; b] ++ l2) (Z.of_nat (List.length l1))
        (Z.of_nat (List.length l1) + 2) = [a; b].
Proof.
  unfold slice.
  replace (Z.to_nat (Z.of_nat (List.length l1) + 2 - Z.of_nat (List.length l1)))
    with 2%nat by lia.
  rewrite Nat2Z.id, skipn_app, skipn_all, Nat.sub_diag. reflexivity.
Qed.

(** Reading a band back from a packed [torch.float32] tensor. *)
Lemma read_real (split : bool) (A rest : list plane) (ch : Z)
    (e : key * tensor) :
  0 <= ch < size1 (snd e) ->
  single (snd e) = true ->
  forallb (fun x => negb (is_complex_dtype x)) (pieces split ch e) = true ->
  (is_residual (fst e) = false -> split = true ->
   is_complex_dtype (snd e) = true) ->
  read_band (Real (A ++ flat_map real_channels (pieces split ch e) ++ rest))
    split (Z.of_nat (List.length A)) (fst e)
  = ([], Ok (chan ch (snd e),
             Z.of_nat (List.length
                         (A ++ flat_map real_channels (pieces split ch e))))).
Proof.
  destruct e as [k v]. simpl fst. simpl snd. intros Hch Hs Hreal Hsplit.
  unfold pieces, read_band in *. simpl fst in *. simpl snd in *.
  destruct v as [p cs|p cs]; (destruct p; [|discriminate Hs]);
    simpl size1 in Hch.
  - destruct (singleton_chan_real Single cs Hch) as [c Hc]. rewrite Hc in *.
    simpl is_complex_dtype in *. simpl andb in *.
    assert (Hlen : Z.of_nat (List.length (A ++ [c])) = Z.of_nat (List.length A) + 1)
      by (rewrite length_app; simpl; lia).
    destruct (is_residual k).
    + simpl flat_map. simpl app. unfold select.
      rewrite nth_error_middle. simpl. rewrite Hlen. reflexivity.
    + destruct split; [specialize (Hsplit eq_refl eq_refl); discriminate|].
      simpl flat_map. simpl app. unfold select.
      rewrite nth_error_middle. simpl. rewrite Hlen. reflexivity.
  - destruct (singleton_chan_cplx Single cs Hch) as [[re im] Hc]. rewrite Hc in *.
    simpl is_complex_dtype in *.
    destruct (is_residual k); [simpl in Hreal; discriminate|].
    destruct split; [|simpl in Hreal; discriminate].
    simpl andb. cbv iota. simpl flat_map. unfold narrow.
    change ([re] ++ [im] ++ []) with [re; im].
    rewrite slice_middle. simpl.
    rewrite length_app. simpl. do 3 f_equal. lia.
Qed.

(** Reading a band back from a packed [torch.complex64] tensor: a residual
    is cast to real, and the cast is reported. *)
Lemma read_cplx (A rest : list (plane * plane)) (ch : Z) (e : key * tensor) :
  0 <= ch < size1 (snd e) ->
  single (snd e) = true ->
  (is_residual (fst e) = true -> is_complex_dtype (snd e) = false) ->
  (is_residual (fst e) = false -> is_complex_dtype (snd e) = true) ->
  exists w,
    Forall (eq cast_warning) w
    /\ read_band (Cplx (A ++ flat_map as_complex (pieces false ch e) ++ rest))
         false (Z.of_nat (List.length A)) (fst e)
       = (w, Ok (chan ch (snd e),
                 Z.of_nat (List.length
                             (A ++ flat_map as_complex (pieces false ch e))))).
Proof.
  destruct e as [k v]. simpl fst. simpl snd. intros Hch Hs Hres Hband.
  unfold pieces, read_band. simpl fst. simpl snd. rewrite andb_false_r.
  assert (Hp : (if is_residual k then [chan ch v] else [chan ch v])
               = [chan ch v]) by (destruct (is_residual k); reflexivity).
  rewrite Hp. clear Hp.
  destruct v as [p cs|p cs]; (destruct p; [|discriminate Hs]);
    simpl size1 in Hch.
  - destruct (singleton_chan_real Single cs Hch) as [c Hc]. rewrite Hc.
    destruct (is_residual k); [|specialize (Hband eq_refl); discriminate].
    exists [cast_warning]. split; [repeat constructor|].
    simpl flat_map. simpl app. unfold select.
    rewrite nth_error_middle. simpl.
    rewrite length_app. simpl. do 3 f_equal. lia.
  - destruct (singleton_chan_cplx Single cs Hch) as [c Hc]. rewrite Hc.
    destruct (is_residual k); [specialize (Hres eq_refl); discriminate|].
    exists []. split; [constructor|].
    simpl flat_map. simpl app. unfold select.
    rewrite nth_error_middle. simpl.
    rewrite length_app. simpl. do 3 f_equal. lia.
Qed.


(** *** Packable dictionaries *)

Lemma nodupb_spec (ks : list key) : nodupb ks = true -> NoDup ks.
Proof.
  induction ks as [|k ks IH]; simpl; intros H; [constructor|].
  apply andb_true_iff in H. destruct H as [Hk H]. constructor; [|auto].
  intros Hin. apply key_in_spec in Hin. rewrite Hin in Hk. discriminate.
Qed.

Lemma in_assemble (hi : option tensor) (bands : Dict.t tensor)
    (lo : option tensor) (e : key * tensor) :
  In e (assemble hi bands lo) <->
  hi = Some (snd e) /\ fst e = KStr residual_highpass
  \/ In e bands
  \/ lo = Some (snd e) /\ fst e = KStr residual_lowpass.
Proof.
  unfold assemble. rewrite !in_app_iff. destruct e as [k v]. simpl.
  split.
  - intros [H|[H|H]].
    + destruct hi; [|destruct H]. destruct H as [[= <- <-]|[]]. auto.
    + auto.
    + destruct lo; [|destruct H]. destruct H as [[= <- <-]|[]]. auto.
  - intros [[-> ->]|[H|[-> ->]]]; [left|right; left|right; right]; simpl; auto.
Qed.

Lemma assemble_nodup (hi : option tensor) (bands : Dict.t tensor)
    (lo : option tensor) :
  (forall e, In e bands -> is_residual (fst e) = false) ->
  NoDup (Dict.keys bands) ->
  NoDup (Dict.keys (assemble hi bands lo)).
Proof.
  intros Hb Hnd.
  assert (Hhp : ~ In (KStr residual_highpass) (map fst bands)).
  { intros H. apply key_in_spec in H.
    pose proof (@key_in_bands bands (KStr residual_highpass) Hb eq_refl) as H'.
    unfold Dict.keys in H'. congruence. }
  assert (Hlp : ~ In (KStr residual_lowpass) (map fst bands)).
  { intros H. apply key_in_spec in H.
    pose proof (@key_in_bands bands (KStr residual_lowpass) Hb eq_refl) as H'.
    unfold Dict.keys in H'. congruence. }
  unfold assemble, Dict.keys in *. rewrite !map_app.
  destruct hi, lo; simpl; rewrite ?app_nil_r.
  - constructor.
    + rewrite in_app_iff. intros [H|[H|[]]]; [auto|discriminate H].
    + apply NoDup_app; [exact Hnd|repeat constructor; intros []|].
      intros k Hk [<-|[]]. auto.
  - constructor; assumption.
  - apply NoDup_app; [exact Hnd|repeat constructor; intros []|].
    intros k Hk [<-|[]]. auto.
  - exact Hnd.
Qed.

Lemma packable_facts (C : Z) (sh : Z * Z * Z) (split : bool)
    (hi : option tensor) (bands : Dict.t tensor) (lo : option tensor) :
  packable C sh split hi bands lo = true ->
  0 < C
  /\ assemble hi bands lo <> []
  /\ (forall e, In e (assemble hi bands lo) ->
                size1 (snd e) = C /\ uniform sh (snd e) = true)
  /\ (forall e, In e bands -> is_residual (fst e) = false)
  /\ NoDup (Dict.keys bands)
  /\ (forall e, In e (assemble hi bands lo) -> is_residual (fst e) = true ->
                is_complex_dtype (snd e) = false)
  /\ ((forall e, In e bands -> is_complex_dtype (snd e) = true)
      \/ split = false
         /\ forall e, In e bands -> is_complex_dtype (snd e) = false).
Proof.
  unfold packable. intros H.
  repeat (apply andb_true_iff in H; let H' := fresh "H" in destruct H as [H H']).
  rename H into HC, H6 into Hne, H5 into Hent, H4 into Hb, H3 into Hnd,
    H2 into Hhi, H1 into Hlo, H0 into Hty.
  assert (Hb' : forall e, In e bands -> is_residual (fst e) = false).
  { intros e He. rewrite forallb_forall in Hb. specialize (Hb e He).
    now apply negb_true_iff in Hb. }
  split; [apply Z.ltb_lt, HC|].
  split; [intros E; rewrite E in Hne; discriminate|].
  split.
  { intros e He. rewrite forallb_forall in Hent. specialize (Hent e He).
    apply andb_true_iff in Hent. destruct Hent as [H1 H2].
    split; [apply Z.eqb_eq, H1|exact H2]. }
  split; [exact Hb'|].
  split; [apply nodupb_spec, Hnd|].
  split.
  { intros e He Hr. apply in_assemble in He.
    destruct He as [[E _]|[He|[E _]]].
    - rewrite E in Hhi. now apply negb_true_iff in Hhi.
    - rewrite (Hb' e He) in Hr. discriminate.
    - rewrite E in Hlo. now apply negb_true_iff in Hlo. }
  apply orb_true_iff in Hty. destruct Hty as [Hty|Hty].
  - left. intros e He. rewrite forallb_forall in Hty. exact (Hty e He).
  - right. apply andb_true_iff in Hty. destruct Hty as [Hs Hty].
    split; [now apply negb_true_iff in Hs|].
    intros e He. rewrite forallb_forall in Hty. specialize (Hty e He).
    now apply negb_true_iff in Hty.
Qed.

Lemma uniform_pieces (sh : Z * Z * Z) (split : bool) (ch : Z)
    (e : key * tensor) (x : tensor) :
  uniform sh (snd e) = true -> In x (pieces split ch e) -> uniform sh x = true.
Proof.
  intros Hu. pose proof (@uniform_narrow sh (snd e) ch (ch + 1) Hu) as Hc.
  unfold pieces, chan.
  destruct (narrow (snd e) ch (ch + 1)) as [p cs|p cs]; simpl in *.
  - destruct (is_residual (fst e)); simpl; intros [<-|[]]; exact Hc.
  - assert (Hre : forallb (fun c => shape_eqb sh (shape c)) (map fst cs) = true).
    { rewrite forallb_forall in *. intros c Hin. apply in_map_iff in Hin.
      destruct Hin as [c' [<- Hc']]. specialize (Hc c' Hc').
      apply andb_true_iff in Hc. apply Hc. }
    assert (Him : forallb (fun c => shape_eqb sh (shape c)) (map snd cs) = true).
    { rewrite forallb_forall in *. intros c Hin. apply in_map_iff in Hin.
      destruct Hin as [c' [<- Hc']]. specialize (Hc c' Hc').
      apply andb_true_iff in Hc. apply Hc. }
    destruct (is_residual (fst e)); [simpl; intros [<-|[]]; exact Hc|].
    destruct split; simpl.
    + intros [<-|[<-|[]]]; assumption.
    + intros [<-|[]]; exact Hc.
Qed.

Lemma nonempty_pieces (split : bool) (ch : Z) (e : key * tensor) :
  0 <= ch < size1 (snd e) ->
  flat_map channel_shapes (pieces split ch e) <> [].
Proof.
  intros Hch. unfold pieces. destruct (snd e) as [p cs|p cs]; simpl size1 in Hch.
  - destruct (singleton_chan_real p cs Hch) as [c ->]. simpl.
    destruct (is_residual (fst e)); discriminate.
  - destruct (singleton_chan_cplx p cs Hch) as [c ->]. simpl.
    destruct (is_residual (fst e)); [discriminate|].
    destruct split; discriminate.
Qed.

Lemma real_pieces (split : bool) (ch : Z) (e : key * tensor) :
  0 <= ch ->
  is_complex_dtype (snd e) = false
  \/ is_residual (fst e) = false /\ split = true ->
  forallb (fun x => negb (is_complex_dtype x)) (pieces split ch e) = true.
Proof.
  intros Hch H. unfold pieces. destruct (snd e) as [p cs|p cs].
  - rewrite chan_real by lia. simpl.
    destruct (is_residual (fst e)); reflexivity.
  - destruct H as [H|[-> ->]]; [discriminate H|].
    rewrite chan_cplx by lia. reflexivity.
Qed.

Lemma existsb_false_in {A} (f : A -> bool) (l : list A) (a : A) :
  existsb f l = false -> In a l -> f a = false.
Proof.
  intros H Hin. destruct (f a) eqn:E; [|reflexivity].
  rewrite <- H. symmetry. apply existsb_exists. exists a. auto.
Qed.

Lemma in_assemble_band (hi : option tensor) (bands : Dict.t tensor)
    (lo : option tensor) (e : key * tensor) :
  In e (assemble hi bands lo) -> is_residual (fst e) = false -> In e bands.
Proof.
  intros He Hr. apply in_assemble in He.
  destruct He as [[_ E]|[He|[_ E]]]; [|exact He|];
    rewrite E in Hr; discriminate Hr.
Qed.

Lemma in_coeff_list (d : Dict.t tensor) (split : bool) (C ch : Z)
    (e : key * tensor) (x : tensor) :
  0 <= ch < C -> In e d -> In x (pieces split ch e) ->
  In x (coeff_list_of d split C).
Proof.
  intros Hch He Hx. unfold coeff_list_of. apply in_flat_map.
  exists ch. split; [apply in_range, Hch|].
  apply in_flat_map. exists e. auto.
Qed.

(** *** convert_pyr_to_tensor *)

(** The packed tensor of a packable dictionary. *)
Lemma pack_result (C : Z) (sh : Z * Z * Z) (split : bool)
    (hi : option tensor) (bands : Dict.t tensor) (lo : option tensor) :
  packable C sh split hi bands lo = true ->
  convert_pyr_to_tensor (assemble hi bands lo) split
  = ([], Ok (if existsb is_complex_dtype
                  (coeff_list_of (assemble hi bands lo) split C)
             then Complex
                    (promote (coeff_list_of (assemble hi bands lo) split C))
                    (flat_map as_complex
                       (coeff_list_of (assemble hi bands lo) split C))
             else Float
                    (promote (coeff_list_of (assemble hi bands lo) split C))
                    (flat_map real_channels
                       (coeff_list_of (assemble hi bands lo) split C)),
             {| num_channels := C; split_complex := split;
                pyr_keys := Dict.keys (assemble hi bands lo) |})).
Proof.
  intros Hp.
  destruct (packable_facts _ _ _ _ _ _ Hp)
    as (HC & Hne & Hent & Hb & Hnd & Hres & Hty).
  unfold convert_pyr_to_tensor. cbv zeta.
  pose proof (@pack_channels split hi bands lo Hb Hnd (range C) []) as Hpack.
  simpl app in Hpack. fold (coeff_list_of (assemble hi bands lo) split C) in Hpack.
  remember (coeff_list_of (assemble hi bands lo) split C) as cl eqn:Ecl.
  remember (assemble hi bands lo) as d eqn:Ed.
  assert (Hfirst : exists k0 v0,
             index (Dict.keys d) 0 = ([], Ok k0)
             /\ item d k0 = ([], Ok v0) /\ size1 v0 = C
             /\ flat_map channel_shapes (flat_map (pieces split 0) d) <> []).
  { clear Ecl Hpack. destruct d as [|[k0 v0] d']; [contradiction|].
    exists k0, v0.
    destruct (Hent (k0, v0) (or_introl eq_refl)) as [Hsz0 _]. simpl in Hsz0.
    split; [reflexivity|]. split.
    { unfold item. simpl. now rewrite key_eqb_refl. }
    split; [exact Hsz0|].
    simpl flat_map at 2. rewrite flat_map_app. intros E.
    apply app_eq_nil in E. destruct E as [E _]. revert E.
    apply nonempty_pieces. simpl. lia. }
  destruct Hfirst as (k0 & v0 & Hk0 & Hv0 & Hsz0 & Hshapes).
  rewrite (bind_ok_nil _ Hk0), (bind_ok_nil _ Hv0), Hsz0.
  rewrite (bind_ok_nil _ Hpack).
  assert (Hcat : cat cl
                 = ([], Ok (if existsb is_complex_dtype cl
                            then Complex (promote cl) (flat_map as_complex cl)
                            else Float (promote cl) (flat_map real_channels cl)))).
  { apply (@cat_uniform sh).
    - apply Forall_forall. intros x Hx. rewrite Ecl in Hx.
      unfold coeff_list_of in Hx.
      apply in_flat_map in Hx. destruct Hx as (ch & _ & Hx).
      apply in_flat_map in Hx. destruct Hx as (e & He & Hx).
      eapply uniform_pieces; [|exact Hx]. apply Hent, He.
    - rewrite Ecl. unfold coeff_list_of, range.
      destruct (Z.to_nat C) as [|n] eqn:En; [lia|].
      simpl seq. simpl map. simpl flat_map at 2.
      rewrite flat_map_app. intros E.
      apply app_eq_nil in E. destruct E as [E _]. contradiction. }
  rewrite Hcat. destruct (existsb is_complex_dtype cl); reflexivity.
Qed.


(** *** The shape of the packed tensor *)

Lemma one_channel (split : bool) (ch : Z) (e : key * tensor) (x : tensor) :
  0 <= ch < size1 (snd e) -> In x (pieces split ch e) ->
  List.length (as_complex x) = 1%nat
  /\ (is_complex_dtype x = false -> List.length (real_channels x) = 1%nat).
Proof.
  intros Hch. unfold pieces. destruct (snd e) as [p cs|p cs]; simpl size1 in Hch.
  - destruct (singleton_chan_real p cs Hch) as [c ->]. simpl.
    destruct (is_residual (fst e)); intros [<-|[]]; simpl; auto.
  - destruct (singleton_chan_cplx p cs Hch) as [c ->]. simpl.
    destruct (is_residual (fst e)); [intros [<-|[]]; simpl; split;
                                     [reflexivity|discriminate]|].
    destruct split; simpl.
    + intros [<-|[<-|[]]]; simpl; auto.
    + intros [<-|[]]; simpl. split; [reflexivity|discriminate].
Qed.

Lemma complex_piece (split : bool) (ch : Z) (e : key * tensor) (x : tensor) :
  0 <= ch -> In x (pieces split ch e) -> is_complex_dtype x = true ->
  is_complex_dtype (snd e) = true
  /\ (is_residual (fst e) = true \/ split = false).
Proof.
  intros Hch Hx Hc.
  assert (Hnot : ~ (is_complex_dtype (snd e) = false
                    \/ is_residual (fst e) = false /\ split = true)).
  { intros H. pose proof (@real_pieces split ch e Hch H) as Hr.
    rewrite forallb_forall in Hr. specialize (Hr x Hx).
    rewrite Hc in Hr. discriminate. }
  destruct (is_complex_dtype (snd e)); [|exfalso; auto].
  split; [reflexivity|].
  destruct (is_residual (fst e)); [auto|].
  destruct split; [exfalso; auto|auto].
Qed.

Lemma row_length (C : Z) (sh : Z * Z * Z) (split : bool)
    (hi : option tensor) (bands : Dict.t tensor) (lo : option tensor) (ch : Z) :
  packable C sh split hi bands lo = true ->
  List.length (flat_map (pieces split ch) (assemble hi bands lo))
  = (match hi with Some _ => 1 | None => 0 end
     + List.length bands * (if split then 2 else 1)
     + match lo with Some _ => 1 | None => 0 end)%nat.
Proof.
  intros Hp.
  destruct (packable_facts _ _ _ _ _ _ Hp)
    as (HC & Hne & Hent & Hb & Hnd & Hres & Hty).
  unfold assemble. rewrite !flat_map_app, !length_app.
  rewrite (@flat_map_constant_length _ _ (if split then 2 else 1)%nat
             (pieces split ch) bands).
  - destruct hi, lo; simpl; lia.
  - intros e He. unfold pieces. rewrite (Hb e He).
    assert (Ec : is_complex_dtype (chan ch (snd e)) = is_complex_dtype (snd e))
      by (destruct (snd e); reflexivity).
    rewrite Ec. destruct split; [|rewrite andb_false_r; reflexivity].
    destruct Hty as [Hc|[Hs _]]; [|discriminate Hs].
    rewrite (Hc e He). reflexivity.
Qed.

(** The packed tensor is made of complex pieces exactly when
    [split_complex] is off and some band is complex. *)
Lemma coeff_list_complex (C : Z) (sh : Z * Z * Z) (split : bool)
    (hi : option tensor) (bands : Dict.t tensor) (lo : option tensor) :
  packable C sh split hi bands lo = true ->
  existsb is_complex_dtype (coeff_list_of (assemble hi bands lo) split C)
  = negb split && existsb (fun e => is_complex_dtype (snd e)) bands.
Proof.
  intros Hp.
  destruct (packable_facts _ _ _ _ _ _ Hp)
    as (HC & Hne & Hent & Hb & Hnd & Hres & Hty).
  destruct (existsb is_complex_dtype
              (coeff_list_of (assemble hi bands lo) split C)) eqn:Eb; symmetry.
  - apply existsb_exists in Eb. destruct Eb as (x & Hx & Hc).
    unfold coeff_list_of in Hx.
    apply in_flat_map in Hx. destruct Hx as (ch & Hch & Hx).
    apply in_flat_map in Hx. destruct Hx as (e & He & Hx).
    apply in_range in Hch.
    destruct (@complex_piece split ch e x (proj1 Hch) Hx Hc) as [Hv Hs].
    destruct (is_residual (fst e)) eqn:Er.
    { rewrite (Hres e He Er) in Hv. discriminate. }
    destruct Hs as [Hs | ->]; [discriminate Hs|]. simpl.
    apply existsb_exists. exists e. split; [|exact Hv].
    eapply in_assemble_band; eassumption.
  - destruct split; [reflexivity|]. simpl.
    apply not_true_is_false. intros Hex.
    apply existsb_exists in Hex. destruct Hex as (e & He & Hc).
    assert (He' : In e (assemble hi bands lo))
      by (apply in_assemble; auto).
    assert (Hx : In (chan 0 (snd e)) (pieces false 0 e)).
    { unfold pieces. rewrite (Hb e He), andb_false_r. left. reflexivity. }
    pose proof (existsb_false_in _ _ _ Eb
                  (@in_coeff_list (assemble hi bands lo) false C 0 e _
                     ltac:(lia) He' Hx)) as Hf.
    destruct (snd e); [discriminate Hc|discriminate Hf].
Qed.

(** What [convert_pyr_to_tensor] returns on a packable dictionary: no
    warning; the number of image channels, [split_complex] and the keys as
    [pyr_info]; a tensor that has, for each image channel, one channel per
    residual and one per band, or two per band when [split_complex] is
    set; and a complex dtype exactly when [split_complex] is off and some
    band is complex. *)
Theorem convert_pyr_to_tensor_shape (C : Z) (sh : Z * Z * Z) (split : bool)
    (hi : option tensor) (bands : Dict.t tensor) (lo : option tensor) :
  packable C sh split hi bands lo = true ->
  exists P,
    convert_pyr_to_tensor (assemble hi bands lo) split
    = ([], Ok (P, {| num_channels := C; split_complex := split;
                     pyr_keys := Dict.keys (assemble hi bands lo) |}))
    /\ size1 P = C * (match hi with Some _ => 1 | None => 0 end
                      + (if split then 2 else 1) * Z.of_nat (List.length bands)
                      + match lo with Some _ => 1 | None => 0 end)
    /\ is_complex_dtype P
       = negb split && existsb (fun e => is_complex_dtype (snd e)) bands.
Proof.
  intros Hp.
  destruct (packable_facts _ _ _ _ _ _ Hp)
    as (HC & Hne & Hent & Hb & Hnd & Hres & Hty).
  eexists. split; [apply (pack_result _ _ _ _ _ _ Hp)|].
  rewrite <- (coeff_list_complex _ _ _ _ _ _ Hp).
  assert (Hlen : List.length (coeff_list_of (assemble hi bands lo) split C)
                 = (Z.to_nat C
                    * (match hi with Some _ => 1 | None => 0 end
                       + List.length bands * (if split then 2 else 1)
                       + match lo with Some _ => 1 | None => 0 end))%nat).
  { unfold coeff_list_of.
    rewrite (@flat_map_constant_length _ _ _ _ (range C)
               (fun ch _ => @row_length C sh split hi bands lo ch Hp)).
    now rewrite range_length. }
  assert (Hone : forall x, In x (coeff_list_of (assemble hi bands lo) split C) ->
                   List.length (as_complex x) = 1%nat
                   /\ (is_complex_dtype x = false ->
                       List.length (real_channels x) = 1%nat)).
  { intros x Hx. unfold coeff_list_of in Hx.
    apply in_flat_map in Hx. destruct Hx as (ch & Hch & Hx).
    apply in_flat_map in Hx. destruct Hx as (e & He & Hx).
    apply in_range in Hch. eapply one_channel; [|exact Hx].
    rewrite (proj1 (Hent e He)). exact Hch. }
  destruct (existsb is_complex_dtype
              (coeff_list_of (assemble hi bands lo) split C)) eqn:Eb.
  - split; [|reflexivity].
    simpl size1.
    rewrite (@flat_map_constant_length _ _ 1%nat as_complex _
               (fun x Hx => proj1 (Hone x Hx))), Hlen.
    destruct hi, lo, split; lia.
  - split; [|reflexivity].
    simpl size1.
    rewrite (@flat_map_constant_length _ _ 1%nat real_channels _
               (fun x Hx => proj2 (Hone x Hx)
                              (existsb_false_in _ _ _ Eb Hx))), Hlen.
    destruct hi, lo, split; lia.
Qed.

(** *** The round trip *)

Lemma flat_map_rows {A C D E} (f : D -> list E) (g : A -> C -> list D)
    (d : list C) (chs : list A) :
  flat_map f (flat_map (fun ch => flat_map (g ch) d) chs)
  = flat_map (fun ch => flat_map (fun e => flat_map f (g ch e)) d) chs.
Proof.
  rewrite flat_map_flat_map. apply flat_map_ext. intros ch.
  apply flat_map_flat_map.
Qed.

Lemma partial_all (C : Z) (d : Dict.t tensor) :
  0 < C -> (forall e, In e d -> size1 (snd e) = C) -> partial C [] d = d.
Proof.
  intros HC H. unfold partial. simpl. destruct (Z.eqb_spec C 0); [lia|].
  rewrite <- (map_id d) at 2. apply map_ext_in. intros [k v] He. simpl.
  rewrite <- (H _ He). simpl. now rewrite take_all.
Qed.

Lemma promote_single (xs : list tensor) :
  forallb single xs = true -> promote xs = Single.
Proof.
  induction xs as [|x xs IH]; simpl; [reflexivity|].
  intros H. apply andb_true_iff in H. destruct H as [Hx H].
  rewrite (IH H). unfold single in Hx.
  destruct (precision_of x); [reflexivity|discriminate Hx].
Qed.

Lemma single_pieces (split : bool) (ch : Z) (e : key * tensor) (x : tensor) :
  single (snd e) = true -> In x (pieces split ch e) -> single x = true.
Proof.
  unfold pieces, chan. destruct (snd e) as [p cs|p cs]; simpl; intros Hs.
  - destruct (is_residual (fst e)); intros [<-|[]]; exact Hs.
  - destruct (is_residual (fst e)); [intros [<-|[]]; exact Hs|].
    destruct split; simpl; [intros [<-|[<-|[]]]|intros [<-|[]]]; exact Hs.
Qed.

(** The round trip of a packable dictionary of single precision: the
    dictionary comes back, and every warning is one of a cast. *)
Lemma roundtrip_result (C : Z) (sh : Z * Z * Z) (split : bool)
    (hi : option tensor) (bands : Dict.t tensor) (lo : option tensor) :
  packable C sh split hi bands lo = true ->
  forallb (fun e => single (snd e)) (assemble hi bands lo) = true ->
  exists w,
    roundtrip (assemble hi bands lo) split = (w, Ok (assemble hi bands lo))
    /\ Forall (eq cast_warning) w
    /\ (negb split && existsb (fun e => is_complex_dtype (snd e)) bands = false ->
        w = []).
Proof.
  intros Hp Hsingle.
  destruct (packable_facts _ _ _ _ _ _ Hp)
    as (HC & Hne & Hent & Hb & Hnd & Hres & Hty).
  pose proof (@assemble_nodup hi bands lo Hb Hnd) as Hnd'.
  unfold roundtrip. rewrite (bind_ok_nil _ (pack_result _ _ _ _ _ _ Hp)).
  cbv iota. cbv beta. simpl num_channels. simpl split_complex. simpl pyr_keys.
  unfold convert_tensor_to_pyr.
  pose proof (coeff_list_complex _ _ _ _ _ _ Hp) as Hcx.
  pose proof (fun ch e x Hch He Hx =>
                @in_coeff_list (assemble hi bands lo) split C ch e x Hch He Hx)
    as Hin.
  assert (Hprec : promote (coeff_list_of (assemble hi bands lo) split C) = Single).
  { apply promote_single. apply forallb_forall. intros x Hx.
    unfold coeff_list_of in Hx.
    apply in_flat_map in Hx. destruct Hx as (ch & _ & Hx).
    apply in_flat_map in Hx. destruct Hx as (e & He & Hx).
    rewrite forallb_forall in Hsingle.
    exact (@single_pieces split ch e x (Hsingle e He) Hx). }
  rewrite Hprec. clear Hprec.
  unfold coeff_list_of in *.
  set (d := assemble hi bands lo) in *.
  assert (Hs1 : forall e, In e d -> single (snd e) = true)
    by (intros e He; rewrite forallb_forall in Hsingle; exact (Hsingle e He)).
  assert (Hsizes : forall e, In e d -> size1 (snd e) = C)
    by (intros e He; apply Hent, He).
  assert (Hstart : (0, @Dict.empty tensor)
                   = (Z.of_nat (List.length (@nil plane)),
                      partial (Z.of_nat 0) [] d)) by reflexivity.
  assert (Hstart' : (0, @Dict.empty tensor)
                    = (Z.of_nat (List.length (@nil (plane * plane))),
                       partial (Z.of_nat 0) [] d)) by reflexivity.
  assert (Hend : partial (Z.of_nat (Z.to_nat C)) [] d = d).
  { replace (Z.of_nat (Z.to_nat C)) with C by lia.
    apply partial_all; assumption. }
  rewrite Hcx.
  destruct (negb split && existsb (fun e => is_complex_dtype (snd e)) bands)
    eqn:Eb.
  - (* the packed tensor is complex *)
    apply andb_true_iff in Eb. destruct Eb as [Es Eb].
    apply negb_true_iff in Es. subst split.
    assert (Hc : forall e, In e bands -> is_complex_dtype (snd e) = true).
    { destruct Hty as [Hc|[_ Hr]]; [exact Hc|].
      apply existsb_exists in Eb. destruct Eb as (e & He & Hce).
      rewrite (Hr e He) in Hce. discriminate Hce. }
    rewrite flat_map_rows, Hstart'.
    destruct (@unpack_passes (plane * plane) Cplx
                (fun ch e => flat_map as_complex (pieces false ch e))
                false d C sh (Forall (eq cast_warning))
                (@Forall_nil _ _)
                (fun a b Ha Hb' => proj2 (Forall_app _ a b) (conj Ha Hb'))
                Hnd' Hent
                (fun A rest ch e He Hch =>
                   @read_cplx A rest ch e
                     ltac:(rewrite (Hsizes e He); exact Hch)
                     (Hs1 e He)
                     (Hres e He)
                     (fun Hr => Hc e (in_assemble_band _ _ _ _ He Hr)))
                (Cplx (flat_map
                         (fun ch => flat_map
                                      (fun e => flat_map as_complex
                                                  (pieces false ch e)) d)
                         (range C)))
                (Z.to_nat C) 0%nat [] ltac:(lia) eq_refl) as (i & w & Hw & Hi).
    change (0 + Z.to_nat C)%nat with (Z.to_nat C) in Hi.
    rewrite Hend in Hi.
    exists (w ++ []). split; [|split].
    + unfold range. apply (bind_ok_ok _ Hi). reflexivity.
    + rewrite app_nil_r. exact Hw.
    + discriminate.
  - (* the packed tensor is real *)
    rewrite flat_map_rows, Hstart.
    assert (Hreal : forall ch e, In e d -> 0 <= ch < C ->
                      forallb (fun x => negb (is_complex_dtype x))
                              (pieces split ch e) = true).
    { intros ch e He Hch. apply forallb_forall. intros x Hx.
      apply negb_true_iff.
      exact (existsb_false_in _ _ _ Hcx (Hin ch e x Hch He Hx)). }
    assert (Hsplit : forall e, In e d -> is_residual (fst e) = false ->
                       split = true -> is_complex_dtype (snd e) = true).
    { intros e He Hr Hs. destruct Hty as [Hc|[Hs' _]]; [|congruence].
      apply Hc. eapply in_assemble_band; eassumption. }
    destruct (@unpack_passes plane Real
                (fun ch e => flat_map real_channels (pieces split ch e))
                split d C sh (fun w => w = [])
                eq_refl
                (fun a b Ha Hb' => eq_trans (f_equal (fun l => l ++ b) Ha) Hb')
                Hnd' Hent
                (fun A rest ch e He Hch =>
                   ex_intro _ [] (conj eq_refl
                     (@read_real split A rest ch e
                        ltac:(rewrite (Hsizes e He); exact Hch)
                        (Hs1 e He)
                        (Hreal ch e He Hch) (Hsplit e He))))
                (Real (flat_map
                         (fun ch => flat_map
                                      (fun e => flat_map real_channels
                                                  (pieces split ch e)) d)
                         (range C)))
                (Z.to_nat C) 0%nat [] ltac:(lia) eq_refl) as (i & w & Hw & Hi).
    change (0 + Z.to_nat C)%nat with (Z.to_nat C) in Hi.
    rewrite Hend in Hi. subst w.
    exists []. split; [|split].
    + unfold range. apply (bind_ok_ok _ Hi). reflexivity.
    + constructor.
    + reflexivity.
Qed.

(** For a packable dictionary of [torch.float32] and [torch.complex64]
    tensors, [convert_tensor_to_pyr] applied to what [convert_pyr_to_tensor]
    returned gives the dictionary back: the same keys in the same order,
    with the same tensors.  The only warning there can be is the one of the
    cast of a residual that is read back from a complex tensor, and there
    is none when the packed tensor is real, that is, when [split_complex]
    is set or no band is complex. *)
Theorem roundtrip_exact (C : Z) (sh : Z * Z * Z) (split : bool)
    (hi : option tensor) (bands : Dict.t tensor) (lo : option tensor) :
  packable C sh split hi bands lo = true ->
  forallb (fun e => single (snd e)) (assemble hi bands lo) = true ->
  outcome (roundtrip (assemble hi bands lo) split) = Ok (assemble hi bands lo)
  /\ Forall (eq cast_warning)
            (warnings (roundtrip (assemble hi bands lo) split))
  /\ (negb split && existsb (fun e => is_complex_dtype (snd e)) bands = false ->
      warnings (roundtrip (assemble hi bands lo) split) = []).
Proof.
  intros Hp Hs.
  destruct (roundtrip_result _ _ _ _ _ _ Hp Hs) as (w & E & Hw & Hq).
  rewrite E. auto.
Qed.


(** A residual of the dtype [torch.float64] does not come back as it was:
    [convert_tensor_to_pyr] casts every residual to [torch.float32], so its
    dtype changes and its values are rounded ([2^24 + 1] becomes [2^24]),
    while a band keeps the dtype of the packed tensor. *)
Theorem roundtrip_double_residual :
  roundtrip double_coeffs false
  = ([], Ok [(KStr residual_highpass,
              Real [{| shape := (1, 1, 2); data := [16777216; 3] |}]);
             (KTup 0 0, Float Double [sample_plane 20])])
  /\ outcome (roundtrip double_coeffs false) <> Ok double_coeffs.
Proof. split; [reflexivity|vm_compute; discriminate]. Qed.

(** *** Feature maps of different sizes *)

(** Entries whose planes differ in shape, as the bands of a pyramid built
    with downsampling do, cannot be packed: [torch.cat] fails and
    [convert_pyr_to_tensor] raises its own exception. *)
Theorem convert_pyr_to_tensor_mismatch (split : bool) (hi : option tensor)
    (bands : Dict.t tensor) (lo : option tensor)
    (e0 e1 e2 : key * tensor) (s1 s2 : Z * Z * Z) :
  forallb (fun e => negb (is_residual (fst e))) bands = true ->
  nodupb (Dict.keys bands) = true ->
  nth_error (assemble hi bands lo) 0 = Some e0 ->
  0 < size1 (snd e0) ->
  In e1 (assemble hi bands lo) -> In e2 (assemble hi bands lo) ->
  0 < size1 (snd e1) -> 0 < size1 (snd e2) ->
  uniform s1 (snd e1) = true -> uniform s2 (snd e2) = true -> s1 <> s2 ->
  convert_pyr_to_tensor (assemble hi bands lo) split
  = ([], Raise concat_error).
Proof.
  intros Hb Hnd H0 HC He1 He2 Hc1 Hc2 Hu1 Hu2 Hne.
  assert (Hb' : forall e, In e bands -> is_residual (fst e) = false).
  { intros e He. rewrite forallb_forall in Hb. specialize (Hb e He).
    now apply negb_true_iff in Hb. }
  apply nodupb_spec in Hnd.
  unfold convert_pyr_to_tensor. cbv zeta.
  pose proof (@pack_channels split hi bands lo Hb' Hnd
                (range (size1 (snd e0))) []) as Hpack.
  simpl app in Hpack.
  fold (coeff_list_of (assemble hi bands lo) split (size1 (snd e0))) in Hpack.
  assert (Hshape : forall e s, In e (assemble hi bands lo) ->
                     0 < size1 (snd e) -> uniform s (snd e) = true ->
                     In s (flat_map channel_shapes
                             (coeff_list_of (assemble hi bands lo) split
                                (size1 (snd e0))))).
  { intros e s He Hc Hu.
    pose proof (@nonempty_pieces split 0 e ltac:(lia)) as Hn.
    destruct (flat_map channel_shapes (pieces split 0 e)) as [|s' ss] eqn:Es;
      [contradiction|].
    assert (Hs' : In s' (flat_map channel_shapes (pieces split 0 e)))
      by (rewrite Es; left; reflexivity).
    apply in_flat_map in Hs'. destruct Hs' as (x & Hx & Hs').
    pose proof (@channel_shapes_uniform s x
                  (@uniform_pieces s split 0 e x Hu Hx)) as Hall.
    rewrite Forall_forall in Hall. rewrite (Hall s' Hs').
    apply in_flat_map. exists x. split; [|exact Hs'].
    eapply in_coeff_list; [|exact He|exact Hx]. lia. }
  remember (coeff_list_of (assemble hi bands lo) split (size1 (snd e0)))
    as cl eqn:Ecl.
  remember (assemble hi bands lo) as d eqn:Ed.
  assert (Hfirst : index (Dict.keys d) 0 = ([], Ok (fst e0))
                   /\ item d (fst e0) = ([], Ok (snd e0))).
  { clear - H0. destruct d as [|[k v] d']; [discriminate H0|].
    simpl in H0. injection H0 as <-. split; [reflexivity|].
    unfold item. simpl. now rewrite key_eqb_refl. }
  destruct Hfirst as [Hk0 Hv0].
  rewrite (bind_ok_nil _ Hk0), (bind_ok_nil _ Hv0), (bind_ok_nil _ Hpack).
  assert (Hcat : cat cl = ([], Raise RuntimeError)).
  { unfold cat.
    pose proof (Hshape e1 s1 He1 Hc1 Hu1) as H1.
    pose proof (Hshape e2 s2 He2 Hc2 Hu2) as H2.
    destruct (flat_map channel_shapes cl) as [|s ss]; [destruct H1|].
    assert (Hex : exists y, In y ss /\ y <> s).
    { destruct H1 as [<-|H1].
      - destruct H2 as [H2|H2]; [congruence|]. exists s2. split; [exact H2|].
        congruence.
      - destruct (shape_eqb s1 s) eqn:E.
        + apply shape_eqb_eq in E. subst s1.
          destruct H2 as [H2|H2]; [congruence|]. exists s2. split; [exact H2|].
          congruence.
        + exists s1. split; [exact H1|]. intros ->.
          rewrite (proj2 (shape_eqb_eq s s) eq_refl) in E. discriminate. }
    destruct Hex as (y & Hy & Hys).
    rewrite (@forallb_false _ (shape_eqb s) ss y Hy); [reflexivity|].
    apply not_true_is_false. intros E. apply shape_eqb_eq in E. congruence. }
  rewrite Hcat. reflexivity.
Qed.

End CodecLayout.

(** ** recon_pyr: the selection as a set *)

Section ReconSelection.
Context {B : Backend}.

Lemma bind_ext {A C} (m : M A) (f g : A -> M C) :
  (forall a, f a = g a) -> bind m f = bind m g.
Proof.
  intros H. destruct m as [w [a|e]]; simpl; [rewrite H|]; reflexivity.
Qed.

Lemma foldM_ext {A S} (f g : S -> A -> M S) (l : list A) :
  (forall s a, f s a = g s a) -> forall s, foldM f l s = foldM g l s.
Proof.
  intros H. induction l as [|a l IH]; intros s; simpl; [reflexivity|].
  rewrite H. apply bind_ext. exact IH.
Qed.

(** [_recon_levels] reads [recon_keys] through membership tests only. *)
Lemma recon_levels_keys_ext (p : pyramid) (d : Dict.t tensor)
    (ks1 ks2 : list key) :
  (forall k, key_in k ks1 = key_in k ks2) ->
  forall rest scale,
    _recon_levels p d ks1 rest scale = _recon_levels p d ks2 rest scale.
Proof.
  intros H. induction rest as [|hm rest IH]; intros scale; simpl.
  - destruct (scale =? num_scales p); [|reflexivity].
    apply bind_ext. intros lo. rewrite H. reflexivity.
  - destruct (scale =? num_scales p).
    + apply bind_ext. intros lo. rewrite H. reflexivity.
    + apply bind_ext. intros c0.
      rewrite (@foldM_ext _ _ (recon_band p d ks1 scale hm)
                 (recon_band p d ks2 scale hm))
        by (intros o b; unfold recon_band; rewrite H; reflexivity).
      apply bind_ext. intros o. apply bind_ext. intros bx.
      apply bind_ext. intros lm. rewrite IH. reflexivity.
Qed.

Lemma in_insert_sorted (x y : Z) (l : list Z) :
  In y (insert_sorted x l) <-> y = x \/ In y l.
Proof.
  induction l as [|a l IH]; simpl.
  - split; [intros [H|[]]; auto|intros [H|[]]; auto].
  - destruct (x <=? a); simpl; [split; intros [H|H]; auto|].
    rewrite IH. tauto.
Qed.

Lemma in_sort (y : Z) (l : list Z) : In y (sort l) <-> In y l.
Proof.
  unfold sort. induction l as [|a l IH]; simpl; [tauto|].
  rewrite in_insert_sorted, IH. split; intros [H|H]; auto.
Qed.

Lemma forallb_same {A} (f : A -> bool) (l1 l2 : list A) :
  (forall x, In x l1 <-> In x l2) -> forallb f l1 = forallb f l2.
Proof.
  intros H. apply eq_true_iff_eq. rewrite !forallb_forall.
  split; intros Hf x Hx; apply Hf, H, Hx.
Qed.

Lemma sel_in_same (v : sel) (l1 l2 : list sel) :
  (forall x, In x l1 <-> In x l2) -> sel_in v l1 = sel_in v l2.
Proof.
  intros H. apply eq_true_iff_eq. rewrite !sel_in_spec. apply H.
Qed.

Lemma in_levs_nums (z : Z) (l : list sel) :
  In z (levs_nums_of l) <->
  exists s, In s l
            /\ match s with
               | SInt i => z = i
               | SStr t => isdigit t = true /\ z = int_of_digits 0 t
               end.
Proof.
  induction l as [|[i|t] l IH]; simpl.
  - split; [intros []|intros (s & [] & _)].
  - rewrite IH. split.
    + intros [<-|(s & Hs & Hm)]; [exists (SInt i); auto|exists s; auto].
    + intros (s & [<-|Hs] & Hm); [left; auto|right; exists s; auto].
  - destruct (isdigit t) eqn:Et; simpl; rewrite IH; split.
    + intros [<-|(s & Hs & Hm)]; [exists (SStr t); auto|exists s; auto].
    + intros (s & [<-|Hs] & Hm); [left; symmetry; apply Hm|right; exists s; auto].
    + intros (s & Hs & Hm). exists s. auto.
    + intros (s & [<-|Hs] & Hm); [destruct Hm; congruence|exists s; auto].
Qed.

Lemma sel_in_ints (s : string) (l : list Z) :
  sel_in (SStr s) (map SInt l) = false.
Proof.
  apply not_true_is_false. intros H. apply sel_in_spec in H.
  apply in_map_iff in H. destruct H as (i & E & _). discriminate E.
Qed.

(** The list [_recon_levels_check] makes of a list of levels: the high-pass
    residual if it is listed and [pyr_size] holds it, the level numbers in
    increasing order, the low-pass residual likewise. *)
Lemma levels_check_list (p : pyramid) (l : list sel) :
  _recon_levels_check p (LevelsList l)
  = (assert (forallb (fun z => 0 <=? z) (levs_nums_of l))
            "Level numbers must be non-negative." ;;;
     assert (forallb (fun z => z <? num_scales p) (levs_nums_of l))
            (levels_range_error (num_scales p)) ;;;
     ret ((if sel_in (SStr residual_highpass) l
              && Dict.mem (KStr residual_highpass) (pyr_size p)
           then [SStr residual_highpass] else [])
          ++ map SInt (sort (levs_nums_of l))
          ++ (if sel_in (SStr residual_lowpass) l
                 && Dict.mem (KStr residual_lowpass) (pyr_size p)
              then [SStr residual_lowpass] else []))).
Proof.
  unfold _recon_levels_check. cbv zeta.
  destruct (forallb (fun z => 0 <=? z) (levs_nums_of l)); [|reflexivity].
  destruct (forallb (fun z => z <? num_scales p) (levs_nums_of l));
    [|reflexivity].
  simpl assert. rewrite !(bind_ok_nil _ (eq_refl : ret _ = ([], Ok _))).
  set (N := map SInt (sort (levs_nums_of l))).
  assert (HN : forall s, sel_in (SStr s) N = false)
    by (intros s; apply sel_in_ints).
  assert (Happ : forall v a b, sel_in v (a ++ b) = sel_in v a || sel_in v b)
    by (intros; apply existsb_app).
  destruct (sel_in (SStr residual_highpass) l),
    (sel_in (SStr residual_lowpass) l),
    (Dict.mem (KStr residual_highpass) (pyr_size p)),
    (Dict.mem (KStr residual_lowpass) (pyr_size p));
    cbn [andb negb];
    rewrite ?Happ, ?HN, ?removelast_last, ?Happ, ?HN;
    cbn [sel_in existsb sel_eqb orb andb negb tl app];
    rewrite ?app_nil_r; try reflexivity.
Qed.

(** The keys that two selections with the same entries give. *)
Lemma recon_keys_same (p : pyramid) (l1 l2 : list sel) (b1 b2 : list Z) :
  (forall s, In s l1 <-> In s l2) -> (forall z, In z b1 <-> In z b2) ->
  (exists e,
     _recon_keys p (LevelsList l1) (BandsList b1) None = ([], Raise e)
     /\ _recon_keys p (LevelsList l2) (BandsList b2) None = ([], Raise e))
  \/ (exists ks1 ks2,
        _recon_keys p (LevelsList l1) (BandsList b1) None = ([], Ok ks1)
        /\ _recon_keys p (LevelsList l2) (BandsList b2) None = ([], Ok ks2)
        /\ forall k, key_in k ks1 = key_in k ks2).
Proof.
  intros Hl Hb.
  assert (Hn : forall z, In z (levs_nums_of l1) <-> In z (levs_nums_of l2)).
  { intros z. rewrite !in_levs_nums. split; intros (s & Hs & Hm);
      exists s; split; auto; apply Hl; auto. }
  unfold _recon_keys. rewrite !levels_check_list.
  rewrite (@forallb_same _ (fun z => 0 <=? z) _ _ Hn).
  rewrite (@forallb_same _ (fun z => z <? num_scales p) _ _ Hn).
  rewrite (@sel_in_same (SStr residual_highpass) _ _ Hl).
  rewrite (@sel_in_same (SStr residual_lowpass) _ _ Hl).
  destruct (forallb (fun z => 0 <=? z) (levs_nums_of l2));
    [|left; eexists; split; reflexivity].
  destruct (forallb (fun z => z <? num_scales p) (levs_nums_of l2));
    [|left; eexists; split; reflexivity].
  simpl assert. rewrite !(bind_ok_nil _ (eq_refl : ret _ = ([], Ok _))).
  unfold _recon_bands_check.
  rewrite (@forallb_same _ (fun z => 0 <=? z) _ _ Hb).
  rewrite (@forallb_same _ (fun z => z <? num_orientations p) _ _ Hb).
  destruct (forallb (fun z => 0 <=? z) b2);
    [|left; eexists; split; reflexivity].
  destruct (forallb (fun z => z <? num_orientations p) b2);
    [|left; eexists; split; reflexivity].
  simpl assert. rewrite !(bind_ok_nil _ (eq_refl : ret _ = ([], Ok _))).
  right. do 2 eexists. split; [reflexivity|]. split; [reflexivity|].
  intros k. apply eq_true_iff_eq. rewrite !key_in_spec, !in_flat_map.
  assert (Hlev : forall s hpk lpk,
             In s (hpk ++ map SInt (sort (levs_nums_of l1)) ++ lpk)
             <-> In s (hpk ++ map SInt (sort (levs_nums_of l2)) ++ lpk)).
  { intros s hpk lpk. rewrite !in_app_iff, !in_map_iff.
    split; (intros [H|[(z & E & Hz)|H]]; [auto| |auto]);
      right; left; exists z; (split; [exact E|]);
      rewrite in_sort in *; apply Hn; exact Hz. }
  split; intros (s & Hs & Hk); exists s; (split; [apply Hlev, Hs|]);
    (destruct s as [i|name]; [|exact Hk]);
    apply in_map_iff in Hk; destruct Hk as (b & E & Hin);
    apply in_map_iff; exists b; (split; [exact E|]); apply Hb, Hin.
Qed.

(** The result of [recon_pyr] depends on which levels and which bands the
    two lists hold, not on their order nor on repetitions: the same
    warnings, and the same tensor or the same exception. *)
Theorem recon_pyr_selection_order (p : pyramid) (d : Dict.t tensor)
    (l1 l2 : list sel) (b1 b2 : list Z) (twidth : Z) :
  (forall s, In s l1 <-> In s l2) -> (forall z, In z b1 <-> In z b2) ->
  recon_pyr p d (LevelsList l1) (BandsList b1) twidth
  = recon_pyr p d (LevelsList l2) (BandsList b2) twidth.
Proof.
  intros Hl Hb. unfold recon_pyr.
  apply bind_ext. intros []. apply bind_ext. intros t.
  destruct (@recon_keys_same p l1 l2 b1 b2 Hl Hb)
    as [(e & E1 & E2)|(ks1 & ks2 & E1 & E2 & Hk)]; rewrite E1, E2.
  - reflexivity.
  - rewrite !(bind_ok_nil _ (eq_refl : ([], Ok _) = ([], Ok _))).
    cbv zeta. rewrite (@recon_levels_keys_ext p d ks1 ks2 Hk).
    apply bind_ext. intros r. rewrite Hk. reflexivity.
Qed.

End ReconSelection.

(** ** nspd *)

Section DistanceFacts.
Context {B : Backend} {MT : Metric B}.

(** [nspd] builds a pyramid of height [S] for the size of its first image,
    so it raises the constructor's exception when [S] exceeds
    floor(log2(min(H, W))) - 2; with the default [S=5] this happens for
    every image with a side below 128. *)
Theorem nspd_small_image (IM_1 IM_2 : tensor) (O S H W : Z) (complex : bool) :
  shape2 IM_1 = (H, W) -> 0 < H -> 0 < W ->
  (Z.log2 (Z.min H W) - 2 < S ->
   outcome (nspd IM_1 IM_2 O (Height S) complex)
   = Raise (height_error (Z.log2 (Z.min H W) - 2)))
  /\ (Z.min H W < 128 ->
      outcome (nspd IM_1 IM_2 O (Height 5) complex)
      = Raise (height_error (Z.log2 (Z.min H W) - 2))).
Proof.
  intros Hs HH HW.
  assert (Hgen : forall S', Z.log2 (Z.min H W) - 2 < S' ->
                   outcome (nspd IM_1 IM_2 O (Height S') complex)
                   = Raise (height_error (Z.log2 (Z.min H W) - 2))).
  { intros S' Hh. unfold nspd, __init__. rewrite Hs.
    rewrite outcome_bind, outcome_bind.
    replace (outcome (when _ (warn odd_size_warning))) with (Ok tt)
      by (destruct (_ || _); reflexivity).
    rewrite outcome_bind, (choose_num_scales_too_high HH HW Hh).
    reflexivity. }
  split; [apply Hgen|]. intros Hmin. apply Hgen.
  assert (Z.log2 (Z.min H W) < 7)
    by (apply Z.log2_lt_pow2; [lia|simpl; lia]).
  lia.
Qed.

End DistanceFacts.

(** * The further properties on concrete inputs *)

Lemma sample_coeffs_complete (k : key) :
  @defined_key sample_backend sample_pyramid k ->
  Dict.get sample_coeffs k <> None.
Proof.
  destruct k as [name|i b]; simpl.
  - intros [-> | ->]; discriminate.
  - intros [Hi Hb]. change (num_scales sample_pyramid) with 2 in Hi.
    change (num_orientations sample_pyramid) with 2 in Hb.
    assert (Ei : i = 0 \/ i = 1) by lia. assert (Eb : b = 0 \/ b = 1) by lia.
    destruct Ei as [-> | ->], Eb as [-> | ->]; discriminate.
Qed.

Lemma init_warnings_witness :
  exists p,
    @__init__ sample_backend (17, 16) Auto 0 0 true false true
    = ([odd_size_warning; order_warning; twidth_warning], Ok p).
Proof.
  destruct (@__init__ sample_backend (17, 16) Auto 0 0 true false true)
    as [w [p|e]] eqn:E.
  - exists p. f_equal.
    exact (@init_warnings sample_backend (17, 16) Auto 0 0 true false true w p E).
  - vm_compute in E. discriminate E.
Defined.

Lemma init_order_clamped_witness :
  exists w p,
    @__init__ sample_backend (16, 16) Auto 20 1 false true false = (w, Ok p)
    /\ order p = Z.min (Z.max 20 1) 15
    /\ 1 <= order p <= 15
    /\ num_orientations p = order p + 1
    /\ (1 <= 20 <= 15 -> order p = 20).
Proof.
  do 2 eexists. split; [reflexivity|].
  eapply (@init_order_clamped sample_backend (16, 16) Auto 20 1 false true false).
  reflexivity.
Defined.

Lemma init_height_accepted_witness :
  exists p,
    outcome (@__init__ sample_backend (16, 16) (Height 2) 3 1 false true false)
    = Ok p
    /\ num_scales p = 2
    /\ List.length (_himasks p) = Z.to_nat 2
    /\ (2 <= 0 -> scales p = [SStr residual_lowpass; SStr residual_highpass]).
Proof.
  apply (@init_height_accepted sample_backend 16 16 2 3 1 false true false).
  - lia.
  - lia.
  - vm_compute. discriminate.
Defined.

Lemma lo_box_geometry_witness :
  let '((s0, s1), (e0, e1)) := lo_box (17, 16) in
  0 <= s0 /\ e0 <= 17 /\ e0 - s0 = (17 + 1) / 2
  /\ 0 <= s1 /\ e1 <= 16 /\ e1 - s1 = (16 + 1) / 2
  /\ 17 / 2 - s0 = (e0 - s0) / 2
  /\ 16 / 2 - s1 = (e1 - s1) / 2.
Proof.
  apply (@lo_box_geometry 17 16); lia.
Defined.

Lemma init_loindices_witness :
  exists w p,
    @__init__ sample_backend (17, 16) Auto 1 1 false true false = (w, Ok p)
    /\ index (_loindices p) 1
       = ([], Ok (lo_box (halve_n (Z.to_nat 1) 17, halve_n (Z.to_nat 1) 16))).
Proof.
  do 2 eexists. split; [reflexivity|].
  eapply (@init_loindices sample_backend 17 16 1 1 1 Auto false true false).
  - lia.
  - lia.
  - reflexivity.
  - vm_compute. split; first [discriminate|reflexivity].
Defined.

Lemma init_wf_witness :
  exists w p,
    @__init__ sample_backend (17, 16) Auto 1 1 false true false = (w, Ok p)
    /\ wf p.
Proof.
  do 2 eexists. split; [reflexivity|].
  eapply (@init_wf sample_backend (17, 16) Auto 1 1 false true false).
  reflexivity.
Defined.

Lemma forward_input_not_4d_witness :
  @forward sample_backend_nd
    (@build_pyramid sample_backend_nd (16, 16) 2 1 1 false true false)
    3 (ScalesList [SInt 0])
  = ([], Raise (AssertionError input_error)).
Proof.
  apply (@forward_input_not_4d sample_backend_nd).
  - apply build_pyramid_wf.
  - repeat constructor; simpl; lia.
  - vm_compute. discriminate.
Defined.

Lemma init_twidth_truncated_witness :
  [] = (if Z.odd 16 || Z.odd 16 then [odd_size_warning] else [])
       ++ (if (15 <? 3) || (3 <=? 0) then [order_warning] else [])
  /\ @build_pyramid sample_backend (16, 16) 2 3 0 false true false
     = @build_pyramid sample_backend (16, 16) 2 3 (int_of (1 # 2))
         false true false
  /\ ((1 # 2 < 1)%Q -> int_of (1 # 2) = 0).
Proof.
  apply (@init_twidth_truncated sample_backend (16, 16) Auto 3 (1 # 2)
           false true false []
           (@build_pyramid sample_backend (16, 16) 2 3 0 false true false)).
  - reflexivity.
  - reflexivity.
Defined.

Lemma forward_returns_keys_witness :
  exists d p',
    @forward sample_backend sample_pyramid 5
      (ScalesList [SInt 1; SStr residual_lowpass]) = ([], Ok (d, p'))
    /\ Dict.keys d
       = forward_keys sample_pyramid [SInt 1; SStr residual_lowpass]
    /\ NoDup (Dict.keys d)
    /\ (forall i b, Dict.get d (KTup i b) <> None <->
                    0 <= i < num_scales sample_pyramid
                    /\ 0 <= b < num_orientations sample_pyramid
                    /\ In (SInt i)
                          (selected sample_pyramid
                             [SInt 1; SStr residual_lowpass]))
    /\ (forall name, Dict.get d (KStr name) <> None <->
                     (name = residual_highpass \/ name = residual_lowpass)
                     /\ In (SStr name)
                           (selected sample_pyramid
                              [SInt 1; SStr residual_lowpass])).
Proof.
  do 2 eexists. split; [reflexivity|].
  eapply (@forward_returns_keys sample_backend sample_pyramid _ 5
            [SInt 1; SStr residual_lowpass] []).
  - exact sample_pyramid_wf.
  - reflexivity.
Defined.

Lemma forward_records_sizes_witness :
  exists d p',
    @forward sample_backend sample_pyramid 5 (ScalesList [SInt 0])
    = ([], Ok (d, p'))
    /\ p' = with_pyr_size sample_pyramid (pyr_size p')
    /\ (forall k, In k (Dict.keys d) -> In k (Dict.keys (pyr_size p')))
    /\ (forall k, In k (Dict.keys (pyr_size sample_pyramid)) ->
                  In k (Dict.keys (pyr_size p'))).
Proof.
  do 2 eexists. split; [reflexivity|].
  eapply (@forward_records_sizes sample_backend sample_pyramid _ 5
            (ScalesList [SInt 0])).
  reflexivity.
Defined.

Lemma forward_out_of_range_raises_witness :
  @forward sample_backend sample_pyramid 5 (ScalesList [SInt 0; SInt 2])
  = ([], Raise (AssertionError scales_error)).
Proof.
  apply (@forward_out_of_range_raises sample_backend sample_pyramid 5
           [SInt 0; SInt 2] 2).
  - right. left. reflexivity.
  - right. vm_compute. discriminate.
Defined.

Lemma recon_keys_fresh_witness :
  exists w p,
    @__init__ sample_backend (16, 16) Auto 1 1 false true false = (w, Ok p)
    /\ _recon_keys p (LevelsOne (SStr "all")) BandsAll None
       = ([], Ok (flat_map (fun i => map (fun b => KTup i b)
                                         (range (num_orientations p)))
                           (range (num_scales p)))).
Proof.
  do 2 eexists. split; [reflexivity|].
  eapply (@recon_keys_fresh sample_backend (16, 16) Auto 1 1 false true false).
  reflexivity.
Defined.

Lemma recon_keys_after_forward_witness :
  exists d p',
    @forward sample_backend sample_pyramid 5 (ScalesList []) = ([], Ok (d, p'))
    /\ _recon_keys p' (LevelsOne (SStr "all")) BandsAll None
       = ([], Ok (Dict.keys d))
    /\ Dict.keys d = all_keys sample_pyramid.
Proof.
  do 2 eexists. split; [reflexivity|].
  eapply (@recon_keys_after_forward sample_backend sample_pyramid _ 5).
  - exact sample_pyramid_wf.
  - reflexivity.
  - reflexivity.
Defined.

Lemma recon_pyr_level_out_of_range_witness :
  outcome (@recon_pyr sample_backend sample_pyramid sample_coeffs
             (LevelsList [SInt 0; SInt 2]) BandsAll 1)
  = Raise (AssertionError (levels_range_error 2)).
Proof.
  apply (@recon_pyr_level_out_of_range sample_backend sample_pyramid
           sample_coeffs [SInt 0; SInt 2] BandsAll 1 2).
  - exact sample_pyramid_wf.
  - exact sample_coeffs_complete.
  - right. left. reflexivity.
  - right. vm_compute. discriminate.
Defined.

Lemma recon_pyr_band_out_of_range_witness :
  outcome (@recon_pyr sample_backend sample_pyramid sample_coeffs
             (LevelsOne (SStr "all")) (BandsList [0; -1]) 1)
  = Raise (AssertionError "Error: band numbers must be larger than 0.").
Proof.
  eapply (@recon_pyr_band_out_of_range sample_backend sample_pyramid
            sample_coeffs (LevelsOne (SStr "all")) [0; -1] 1 (-1)).
  - exact sample_pyramid_wf.
  - exact sample_coeffs_complete.
  - reflexivity.
  - right. left. reflexivity.
  - left. lia.
Defined.

Lemma recon_pyr_negative_height_witness :
  outcome (@recon_pyr sample_backend
             (@build_pyramid sample_backend (2, 2) (-1) 1 1 false true false)
             [(KStr residual_highpass, 5); (KStr residual_lowpass, 5)]
             (LevelsOne (SStr "all")) BandsAll 1)
  = Raise IndexError.
Proof.
  eapply (@recon_pyr_negative_height sample_backend).
  - apply build_pyramid_wf.
  - reflexivity.
  - discriminate.
  - discriminate.
  - reflexivity.
Defined.

Lemma recon_pyr_selection_order_witness :
  @recon_pyr sample_backend sample_pyramid sample_coeffs
    (LevelsList [SInt 1; SStr residual_lowpass; SInt 0; SInt 1])
    (BandsList [1; 0; 1]) 1
  = @recon_pyr sample_backend sample_pyramid sample_coeffs
      (LevelsList [SInt 0; SInt 1; SStr residual_lowpass])
      (BandsList [0; 1]) 1.
Proof.
  apply (@recon_pyr_selection_order sample_backend sample_pyramid sample_coeffs).
  - intros s. simpl. tauto.
  - intros z. simpl. tauto.
Defined.

Lemma steer_coeffs_returns_iff_witness :
  (exists w r,
     @steer_coeffs sample_backend sample_pyramid sample_coeffs [3; 4] true
     = (w, Ok r))
  <-> (exists c, Dict.get sample_coeffs (KTup 0 0) = Some c
                 /\ @is_complex_dtype sample_backend c = false)
      /\ (forall i b, 0 <= i < num_scales sample_pyramid ->
                      0 <= b < num_orientations sample_pyramid ->
                      Dict.get sample_coeffs (KTup i b) <> None)
      /\ warnings (@steer_coeffs sample_backend sample_pyramid sample_coeffs
                     [3; 4] true) = [].
Proof.
  apply (@steer_coeffs_returns_iff sample_backend sample_pyramid sample_coeffs
           [3; 4] true).
  reflexivity.
Defined.

Lemma convert_pyr_to_tensor_shape_witness :
  exists P,
    Codec.convert_pyr_to_tensor complex_coeffs2 true
    = ([], Ok (P, {| Codec.num_channels := 2; Codec.split_complex := true;
                     Codec.pyr_keys := Dict.keys complex_coeffs2 |}))
    /\ Codec.size1 P = 2 * (1 + 2 * 2 + 1)
    /\ Codec.is_complex_dtype P = false.
Proof.
  apply (@convert_pyr_to_tensor_shape 2 (1, 1, 2) true
           (Some (Codec.Real [sample_plane 10; sample_plane 11]))
           [(KTup 0 0, Codec.Cplx [(sample_plane 20, sample_plane 25);
                                   (sample_plane 21, sample_plane 26)]);
            (KTup 0 1, Codec.Cplx [(sample_plane 30, sample_plane 35);
                                   (sample_plane 31, sample_plane 36)])]
           (Some (Codec.Real [sample_plane 40; sample_plane 41]))).
  reflexivity.
Defined.

Lemma roundtrip_exact_witness :
  (outcome (Codec.roundtrip complex_coeffs2 true) = Ok complex_coeffs2
   /\ Forall (eq Codec.cast_warning)
             (warnings (Codec.roundtrip complex_coeffs2 true))
   /\ (false = false -> warnings (Codec.roundtrip complex_coeffs2 true) = []))
  /\ (outcome (Codec.roundtrip complex_coeffs2 false) = Ok complex_coeffs2
      /\ Forall (eq Codec.cast_warning)
                (warnings (Codec.roundtrip complex_coeffs2 false))
      /\ (true = false ->
          warnings (Codec.roundtrip complex_coeffs2 false) = [])).
Proof.
  split.
  - apply (@roundtrip_exact 2 (1, 1, 2) true
             (Some (Codec.Real [sample_plane 10; sample_plane 11]))
             [(KTup 0 0, Codec.Cplx [(sample_plane 20, sample_plane 25);
                                     (sample_plane 21, sample_plane 26)]);
              (KTup 0 1, Codec.Cplx [(sample_plane 30, sample_plane 35);
                                     (sample_plane 31, sample_plane 36)])]
             (Some (Codec.Real [sample_plane 40; sample_plane 41])));
      reflexivity.
  - apply (@roundtrip_exact 2 (1, 1, 2) false
             (Some (Codec.Real [sample_plane 10; sample_plane 11]))
             [(KTup 0 0, Codec.Cplx [(sample_plane 20, sample_plane 25);
                                     (sample_plane 21, sample_plane 26)]);
              (KTup 0 1, Codec.Cplx [(sample_plane 30, sample_plane 35);
                                     (sample_plane 31, sample_plane 36)])]
             (Some (Codec.Real [sample_plane 40; sample_plane 41])));
      reflexivity.
Defined.

Lemma convert_pyr_to_tensor_mismatch_witness :
  Codec.convert_pyr_to_tensor
    [(KStr residual_highpass, Codec.Real [sample_plane 10]);
     (KTup 0 0, Codec.Real [sample_plane 20]);
     (KTup 1 0, Codec.Real [{| Codec.shape := (1, 1, 1); Codec.data := [7] |}])]
    false
  = ([], Raise Codec.concat_error).
Proof.
  apply (@convert_pyr_to_tensor_mismatch false
           (Some (Codec.Real [sample_plane 10]))
           [(KTup 0 0, Codec.Real [sample_plane 20]);
            (KTup 1 0, Codec.Real [{| Codec.shape := (1, 1, 1);
                                      Codec.data := [7] |}])]
           None
           (KStr residual_highpass, Codec.Real [sample_plane 10])
           (KTup 0 0, Codec.Real [sample_plane 20])
           (KTup 1 0, Codec.Real [{| Codec.shape := (1, 1, 1);
                                     Codec.data := [7] |}])
           (1, 1, 2) (1, 1, 1)).
  - reflexivity.
  - reflexivity.
  - reflexivity.
  - reflexivity.
  - simpl. auto.
  - simpl. auto.
  - reflexivity.
  - reflexivity.
  - reflexivity.
  - reflexivity.
  - discriminate.
Defined.

Lemma nspd_small_image_witness :
  (Z.log2 (Z.min 64 48) - 2 < 4 ->
   outcome (@nspd sample_backend_64 sample_metric 1 2 1 (Height 4) true)
   = Raise (height_error (Z.log2 (Z.min 64 48) - 2)))
  /\ (Z.min 64 48 < 128 ->
      outcome (@nspd sample_backend_64 sample_metric 1 2 1 (Height 5) true)
      = Raise (height_error (Z.log2 (Z.min 64 48) - 2))).
Proof.
  apply (@nspd_small_image sample_backend_64 sample_metric 1 2 1 4 64 48 true).
  - reflexivity.
  - lia.
  - lia.
Defined.
